(** * Foundry: configuration, planner and executor

    A shallow embedding of the Foundry CI/CD engine: the configuration
    ([internal/config]: [Validate], [ResolveProfile], [LoadFromBytes]),
    the policy ([internal/policy]: [ValidateStep]), the planning engine
    ([internal/plan]: [Build], [TopologicalSort]), the execution engine
    ([internal/exec]: [Execute], [executeStep], [executeStepAttempt]),
    the hashes of [internal/util] and the way the commands of
    [cmd/anvil] chain them, with the properties of its specification and
    further properties of the code stated over it.

    Conventions.
    - Go strings are byte strings: [string]; [slices.Sort] on [[]string]
      orders them bytewise, which is [String.le].
    - Go maps are [gmap]s; a read of a missing key yields the zero value,
      written [default 0 (m !! k)].
    - Go [int] values that are lengths or counters far below [2^63] are [Z]
      without wrap-around; where the code computes on caller-supplied
      integers ([Retries + 1]) the wrap-around is written out.
    - Errors built with [fmt.Errorf] are constructors of an inductive type
      that keep the arguments of the format string. *)

From Stdlib Require Import ZArith List Lia Ascii String.
From Stdlib.Strings Require Import Byte.
From stdpp Require Import base option list gmap strings sorting relations pretty.

Set Warnings "-clear-no-such-hyp".

Local Open Scope string_scope.
Local Open Scope list_scope.
Local Open Scope Z_scope.

(** A Go function returning [(T, error)]. *)
Inductive result (E A : Type) : Type :=
| Ok (a : A)
| Err (e : E).
Arguments Ok {E A} a.
Arguments Err {E A} e.

(** ** Library functions the code calls *)

(** [crypto/sha256]: [sha256.Sum256], after FIPS 180-4. Words are [Z] in
    [0, 2^32); every addition is reduced modulo [2^32]. *)
Module SHA256.

Definition add32 (x y : Z) : Z := (x + y) mod 2 ^ 32.
Definition rotr (n x : Z) : Z :=
  Z.lor (Z.shiftr x n) (Z.shiftl x (32 - n) mod 2 ^ 32).
Definition not32 (x : Z) : Z := Z.lxor x 0xffffffff.

Definition Ch (x y z : Z) : Z := Z.lxor (Z.land x y) (Z.land (not32 x) z).
Definition Maj (x y z : Z) : Z :=
  Z.lxor (Z.lxor (Z.land x y) (Z.land x z)) (Z.land y z).
Definition Sigma0 (x : Z) : Z := Z.lxor (Z.lxor (rotr 2 x) (rotr 13 x)) (rotr 22 x).
Definition Sigma1 (x : Z) : Z := Z.lxor (Z.lxor (rotr 6 x) (rotr 11 x)) (rotr 25 x).
Definition sigma0 (x : Z) : Z := Z.lxor (Z.lxor (rotr 7 x) (rotr 18 x)) (Z.shiftr x 3).
Definition sigma1 (x : Z) : Z := Z.lxor (Z.lxor (rotr 17 x) (rotr 19 x)) (Z.shiftr x 10).

(** The constants are defined as FIPS 180-4 defines them: the first 32
    bits of the fractional parts of the cube roots ([K]) and of the square
    roots ([H0]) of the first primes. [root_bisect k n lo hi] is the
    integer [k]-th root of [n], sought between [lo] and [hi]. *)
Definition is_prime (p : Z) : bool :=
  forallb (λ d, negb (p mod d =? 0)) (seqZ 2 (p - 2)).

Definition primes (n : nat) : list Z := take n (filter (λ p, is_prime p = true) (seqZ 2 310)).

Fixpoint root_bisect (fuel : nat) (k n lo hi : Z) : Z :=
  match fuel with
  | O => lo
  | S fuel' =>
      let mid := (lo + hi) / 2 in
      if mid ^ k <=? n then root_bisect fuel' k n mid hi else root_bisect fuel' k n lo mid
  end.

Definition frac_root (k p : Z) : Z :=
  root_bisect 48 k (p * 2 ^ (32 * k)) 0 (2 ^ 40) mod 2 ^ 32.

Definition K : list Z := frac_root 3 <$> primes 64.
Definition H0 : list Z := frac_root 2 <$> primes 8.

Definition byteZ (b : Byte.byte) : Z := Z.of_N (Byte.to_N b).
Definition Zbyte (z : Z) : Byte.byte := default Byte.x00 (Byte.of_N (Z.to_N (z mod 256))).

(** Big-endian encoding of [z] on [n] bytes. *)
Fixpoint be_bytes (n : nat) (z : Z) : list Z :=
  match n with
  | O => []
  | S n' => (Z.shiftr z (8 * Z.of_nat n') mod 256) :: be_bytes n' z
  end.

(** The message followed by 0x80, zeros up to 56 modulo 64, and the bit
    length on 8 bytes. *)
Definition pad (msg : list Z) : list Z :=
  let len := Z.of_nat (length msg) in
  let zeros := Z.to_nat ((55 - len) mod 64) in
  msg ++ [0x80] ++ replicate zeros 0 ++ be_bytes 8 (8 * len).

Fixpoint words (fuel : nat) (bs : list Z) : list Z :=
  match fuel, bs with
  | S fuel', b0 :: b1 :: b2 :: b3 :: rest =>
      (b0 * 2 ^ 24 + b1 * 2 ^ 16 + b2 * 2 ^ 8 + b3) :: words fuel' rest
  | _, _ => []
  end.

(** Extends the 16 words of a block to the 64 words of the schedule;
    [win] holds the last 16 words. *)
Fixpoint schedule (n : nat) (win : list Z) : list Z :=
  match n with
  | O => []
  | S n' =>
      let w := add32 (add32 (sigma1 (nth 14 win 0)) (nth 9 win 0))
                     (add32 (sigma0 (nth 1 win 0)) (nth 0 win 0)) in
      w :: schedule n' (tl win ++ [w])
  end.

Definition round (st : list Z) (kw : Z * Z) : list Z :=
  match st with
  | [a; b; c; d; e; f; g; h] =>
      let t1 := add32 (add32 (add32 h (Sigma1 e)) (add32 (Ch e f g) kw.1)) kw.2 in
      let t2 := add32 (Sigma0 a) (Maj a b c) in
      [add32 t1 t2; a; b; c; add32 d t1; e; f; g]
  | _ => st
  end.

Definition block (h : list Z) (ws : list Z) : list Z :=
  let w := ws ++ schedule 48 ws in
  zip_with add32 h (fold_left round (zip K w) h).

Fixpoint blocks (fuel : nat) (h : list Z) (ws : list Z) : list Z :=
  match fuel, ws with
  | S fuel', _ :: _ => blocks fuel' (block h (take 16 ws)) (drop 16 ws)
  | _, _ => h
  end.

Definition Sum256 (data : list byte) : list byte :=
  let bs := pad (byteZ <$> data) in
  let ws := words (length bs) bs in
  Zbyte <$> (blocks (length ws) H0 ws ≫= be_bytes 4).

End SHA256.

(** [encoding/hex]: [hex.EncodeToString], lower-case. *)
Module Hex.

Definition digit (n : Z) : ascii :=
  ascii_of_nat (Z.to_nat (if n <? 10 then 48 + n else 87 + n)).

Fixpoint EncodeToString (bs : list byte) : string :=
  match bs with
  | [] => EmptyString
  | b :: rest =>
      let z := SHA256.byteZ b in
      String (digit (z / 16)) (String (digit (z mod 16)) (EncodeToString rest))
  end.

End Hex.

(** [time.ParseDuration], after the Go standard library. A [Duration] is a
    number of nanoseconds; the [uint64] arithmetic of the parser is
    written out, and so is the one computation it makes in [float64]. *)
Module Time.

Definition Nanosecond : Z := 1.
Definition Microsecond : Z := 1000 * Nanosecond.
Definition Millisecond : Z := 1000 * Microsecond.
Definition Second : Z := 1000 * Millisecond.
Definition Minute : Z := 60 * Second.
Definition Hour : Z := 60 * Minute.

Definition code (c : ascii) : Z := Z.of_N (N_of_ascii c).

(** ['0' <= c && c <= '9']. *)
Definition is_digit (c : ascii) : bool := bool_decide (48 ≤ code c ≤ 57).

(** [c == '.' || '0' <= c && c <= '9']. *)
Definition is_number (c : ascii) : bool := bool_decide (code c = 46) || is_digit c.

(** [func quote(s string) string]: the string between double quotes, a
    backslash before a double quote or a backslash, and [\xHH] for every
    byte below [' '] or of a character outside ASCII. *)
Definition double_quote : ascii := ascii_of_nat 34.
Definition backslash : ascii := ascii_of_nat 92.

Fixpoint quote_bytes (s : string) : string :=
  match s with
  | EmptyString => EmptyString
  | String c s' =>
      (if bool_decide (128 ≤ code c) || bool_decide (code c < 32)
       then String backslash
              (String "x" (String (Hex.digit (code c / 16))
                             (String (Hex.digit (code c mod 16)) EmptyString)))
       else if bool_decide (c = double_quote) || bool_decide (c = backslash)
       then String backslash (String c EmptyString)
       else String c EmptyString) +:+ quote_bytes s'
  end.

Definition quote (s : string) : string :=
  String double_quote (quote_bytes s +:+ String double_quote EmptyString).

(** [var unitMap]. The micro sign is U+00B5 and the Greek mu U+03BC, in
    UTF-8. *)
Definition micro_sign : string := String (ascii_of_nat 194) (String (ascii_of_nat 181) "s").
Definition greek_mu : string := String (ascii_of_nat 206) (String (ascii_of_nat 188) "s").

Definition unitMap (u : string) : option Z :=
  if decide (u = "ns") then Some Nanosecond
  else if decide (u = "us") then Some Microsecond
  else if decide (u = micro_sign) then Some Microsecond
  else if decide (u = greek_mu) then Some Microsecond
  else if decide (u = "ms") then Some Millisecond
  else if decide (u = "s") then Some Second
  else if decide (u = "m") then Some Minute
  else if decide (u = "h") then Some Hour
  else None.

(** [func leadingInt(s) (x uint64, rem string, err error)], from the value
    [x] read so far; [None] is [errLeadingInt]. *)
Fixpoint leadingInt (x : Z) (s : string) : option (Z * string) :=
  match s with
  | EmptyString => Some (x, s)
  | String c s' =>
      if is_digit c
      then
        if decide (x > 2 ^ 63 / 10) then None
        else
          let x := x * 10 + code c - 48 in
          if decide (x > 2 ^ 63) then None else leadingInt x s'
      else Some (x, s)
  end.

(** [func leadingFraction(s string) (x uint64, scale float64, rem string)],
    from the values read so far. [scale] is a power of ten up to [10^19],
    which [float64] holds exactly. *)
Fixpoint leadingFraction (x scale : Z) (overflow : bool) (s : string) : Z * Z * string :=
  match s with
  | EmptyString => (x, scale, s)
  | String c s' =>
      if is_digit c
      then
        if overflow then leadingFraction x scale overflow s'
        else if decide (x > (2 ^ 63 - 1) / 10) then leadingFraction x scale true s'
        else
          let y := x * 10 + code c - 48 in
          if decide (y > 2 ^ 63) then leadingFraction x scale true s'
          else leadingFraction y (scale * 10) overflow s'
      else (x, scale, s)
  end.

(** The unit: the characters up to the next [.] or digit, and the rest. *)
Fixpoint unit_span (s : string) : string * string :=
  match s with
  | EmptyString => (EmptyString, EmptyString)
  | String c s' =>
      if is_number c then (EmptyString, s)
      else let '(u, rest) := unit_span s' in (String c u, rest)
  end.

(** The [float64] nearest to the positive rational [n / d], ties to even,
    as a fraction; the values met here are far from the ends of the
    range of [float64]. *)
Definition float64 (n d : Z) : Z * Z :=
  let scaled (e : Z) : Z * Z := if decide (0 ≤ e) then (n, d * 2 ^ e) else (n * 2 ^ (- e), d) in
  let e0 := Z.log2 n - Z.log2 d - 52 in
  let e := if decide ((scaled e0).1 < (scaled e0).2 * 2 ^ 52) then e0 - 1 else e0 in
  let '(n', d') := scaled e in
  let q := n' / d' in
  let r := n' mod d' in
  let m := if decide (2 * r < d') then q
           else if decide (d' < 2 * r) then q + 1
           else if Z.even q then q else q + 1 in
  if decide (0 ≤ e) then (m * 2 ^ e, 1) else (m, 2 ^ (- e)).

(** [uint64(float64(f) * (float64(unit) / scale))], for [f > 0]. *)
Definition fraction (f unit scale : Z) : Z :=
  let '(fn, fd) := float64 f 1 in
  let '(qn, qd) := float64 unit scale in
  let '(pn, pd) := float64 (fn * qn) (fd * qd) in
  pn / pd.

Definition invalid (orig : string) : string := "time: invalid duration " +:+ quote orig.

(** [for s != ""] of [ParseDuration], with [d] the sum so far. Every pass
    takes a character at least off [s]; [fuel] bounds the passes. *)
Fixpoint segments (fuel : nat) (orig s : string) (d : Z) : result string Z :=
  match s with
  | EmptyString => Ok d
  | String c _ =>
      match fuel with
      | O => Err (invalid orig)
      | S fuel' =>
          if negb (is_number c) then Err (invalid orig)
          else
            match leadingInt 0 s with
            | None => Err (invalid orig)
            | Some (v, s1) =>
                let pre := negb (bool_decide (String.length s = String.length s1)) in
                let '(f, scale, s2, post) :=
                  match s1 with
                  | String c1 s1' =>
                      if bool_decide (code c1 = 46)
                      then
                        let '(f, scale, s2) := leadingFraction 0 1 false s1' in
                        (f, scale, s2,
                         negb (bool_decide (String.length s1' = String.length s2)))
                      else (0, 1, s1, false)
                  | EmptyString => (0, 1, s1, false)
                  end in
                if negb pre && negb post then Err (invalid orig)
                else
                  let '(u, s3) := unit_span s2 in
                  if decide (u = "") then Err ("time: missing unit in duration " +:+ quote orig)
                  else
                    match unitMap u with
                    | None =>
                        Err ("time: unknown unit " +:+ quote u +:+ " in duration "
                             +:+ quote orig)
                    | Some unit =>
                        if decide (v > 2 ^ 63 / unit) then Err (invalid orig)
                        else
                          let v := v * unit in
                          let v := if decide (f > 0) then v + fraction f unit scale else v in
                          if decide (f > 0 ∧ v > 2 ^ 63) then Err (invalid orig)
                          else
                            let d := (d + v) mod 2 ^ 64 in
                            if decide (d > 2 ^ 63) then Err (invalid orig)
                            else segments fuel' orig s3 d
                    end
            end
      end
  end.

(** [func ParseDuration(s string) (Duration, error)]. *)
Definition ParseDuration (orig : string) : result string Z :=
  let '(neg, s) :=
    match orig with
    | String c s' =>
        if bool_decide (code c = 45) then (true, s')
        else if bool_decide (code c = 43) then (false, s')
        else (false, orig)
    | EmptyString => (false, orig)
    end in
  if decide (s = "0") then Ok 0
  else if decide (s = "") then Err (invalid orig)
  else
    match segments (String.length s) orig s 0 with
    | Err e => Err e
    | Ok d =>
        if neg then Ok (- d)
        else if decide (d > 2 ^ 63 - 1) then Err (invalid orig)
        else Ok d
    end.

End Time.

(** ** Package util

    [hashBytes], [canonicalizeJSON] and [CanonicalHash]. *)

Module Util.
(** [func hashBytes(data []byte) string]. *)
Definition hashBytes (data : list byte) : string :=
  let hash := SHA256.Sum256 data in
  Hex.EncodeToString hash.

(** The digits of [hex.EncodeToString]. *)
Definition hex_digit (c : ascii) : bool :=
  bool_decide (c ∈ list_ascii_of_string "0123456789abcdef").

(** What [json.Unmarshal] stores in an [interface{}]: nil, a bool, a
    float64 (of type [F]), a string, a [[]interface{}] or a
    [map[string]interface{}]. *)
#[warnings="-register-all"]
Inductive json (F : Type) : Type :=
| JNull
| JBool (b : bool)
| JNumber (f : F)
| JString (s : string)
| JArray (l : list (json F))
| JObject (m : gmap string (json F)).
Arguments JNull {F}.
Arguments JBool {F} b.
Arguments JNumber {F} f.
Arguments JString {F} s.
Arguments JArray {F} l.
Arguments JObject {F} m.

(** [sort.Strings]. *)
Definition sort_Strings (l : list string) : list string := merge_sort String.le l.

(** [func canonicalizeJSON(v interface{}) interface{}] on such values.
    [vals !! k] is [canonicalizeJSON(val[k])]. *)
Fixpoint canonicalizeJSON {F} (v : json F) : json F :=
  match v with
  | JObject val =>
      let keys := sort_Strings (map_to_list val).*1 in
      let vals := canonicalizeJSON <$> val in
      JObject (fold_left (λ result k,
                 match vals !! k with
                 | Some x => <[k := x]> result
                 | None => result
                 end) keys ∅)
  | JArray val => JArray (canonicalizeJSON <$> val)
  | _ => v
  end.

Section canonical.
Context {F : Type}.
(** [json.Unmarshal(data, &obj)] and [json.Marshal(canonical)]. *)
Context (json_Unmarshal : list byte → result string (json F)).
Context (json_Marshal : json F → result string (list byte)).

(** [func CanonicalHash(data []byte) string]. *)
Definition CanonicalHash (data : list byte) : string :=
  match json_Unmarshal data with
  | Err _ => hashBytes data
  | Ok obj =>
      let canonical := canonicalizeJSON obj in
      match json_Marshal canonical with
      | Err _ => hashBytes data
      | Ok encoded => hashBytes encoded
      end
  end.
End canonical.

(** Number of constructors of a value. *)
Fixpoint json_size {F} (v : json F) : nat :=
  match v with
  | JArray l => S (foldr (λ x acc, json_size x + acc)%nat 0%nat l)
  | JObject m => S (map_fold (λ _ x acc, json_size x + acc)%nat 0%nat m)
  | _ => 1
  end.
End Util.

(** ** Package policy *)

Module Policy.

(** [type Policy struct]. *)
Record Policy : Type := mkPolicy {
  AllowScriptSteps : bool
}.

(** [func DefaultPolicy() Policy]. *)
Definition DefaultPolicy : Policy := mkPolicy false.

Inductive error : Type :=
| ErrScriptStep (stepID : string).
    (* "step %q: script steps are not allowed by policy" *)

(** [func (p Policy) ValidateStep(stepType string, stepID string) error];
    [None] is the nil error. *)
Definition ValidateStep (p : Policy) (stepType stepID : string) : option error :=
  if bool_decide (stepType = "script") && negb (AllowScriptSteps p)
  then Some (ErrScriptStep stepID)
  else None.

End Policy.

(** ** Package config *)

Module Config.

(** [type Step struct]. *)
Record Step : Type := mkStep {
  ID : string;
  Type_ : string;
  Command : list string;
  Deps : list string;
  Env : gmap string string;
  Timeout : string;
  Retries : Z
}.

(** [type Project struct], [type Profile struct], [type Config struct]. The
    fields [Project] and [Policy] of [Config] are written [Project_] and
    [Policy_]. *)
Record Project : Type := mkProject {
  Name : string
}.

Record Profile : Type := mkProfile {
  Extends : string;
  Steps : list Step
}.

Record Config : Type := mkConfig {
  Version : Z;
  Project_ : Project;
  Policy_ : Policy.Policy;
  Profiles : gmap string Profile
}.

(** The errors of [Validate] and of [ResolveProfile]. *)
Inductive error : Type :=
| ErrNilConfig
    (* "validate: config is nil" *)
| ErrVersion (version : Z)
    (* "validate: unsupported config version %d (expected 1)" *)
| ErrProjectName
    (* "validate: project.name must be non-empty" *)
| ErrNoProfiles
    (* "validate: at least one profile must be defined" *)
| ErrExtendsMissing (name parent : string)
    (* "validate: profile %q extends non-existent profile %q" *)
| ErrExtendsCycle (origin reached : string)
    (* "validate: profile %q: circular extends chain detected (reaches %q again)" *)
| ErrEmptyStepID (name : string)
    (* "validate: profile %q has step with empty id" *)
| ErrDuplicateStepID (name id : string)
    (* "validate: profile %q has duplicate step id %q" *)
| ErrInvalidType (name id type : string)
    (* "validate: profile %q step %q has invalid type %q (must be shell, plugin, or script)" *)
| ErrShellNoCommand (name id : string)
    (* "validate: profile %q step %q: shell steps must have non-empty command" *)
| ErrDepNotFound (name id dep : string)
    (* "validate: profile %q step %q: dependency %q not found in profile" *)
| ErrResolveNil
    (* "resolve profile: config is nil" *)
| ErrResolveNotFound (name : string)
    (* "resolve profile: profile %q not found" *)
| ErrResolveCycle
    (* "resolve profile: circular extends chain detected" *)
| ErrResolveExtendsNotFound (parent : string).
    (* "resolve profile: extended profile %q not found" *)

(** [var validStepTypes]. *)
Definition validStepTypes : list string := ["shell"; "plugin"; "script"].

(** [m[k]] on a [map[string]bool]: [false] for a missing key. *)
Definition marked (m : gmap string bool) (k : string) : bool := default false (m !! k).

(** [func checkExtendsCycle(origin, profile, cfg, visited) error]. The
    recursion follows the [extends] chain and marks a new profile at each
    call; [fuel] bounds its depth and [None] is the model running out of
    it. [Ok tt] is the nil error. *)
Fixpoint checkExtendsCycle (fuel : nat) (origin : string) (profile : Profile)
    (cfg : Config) (visited : gmap string bool) : option (result error unit) :=
  match fuel with
  | O => None
  | S fuel' =>
      if decide (Extends profile = "") then Some (Ok tt)
      else if marked visited (Extends profile)
      then Some (Err (ErrExtendsCycle origin (Extends profile)))
      else
        let visited := <[Extends profile := true]> visited in
        match Profiles cfg !! Extends profile with
        | None => Some (Err (ErrExtendsMissing origin (Extends profile)))
        | Some parent => checkExtendsCycle fuel' origin parent cfg visited
        end
  end.

(** The first loop over [profile.Steps] in [validateProfile], from a given
    [stepIDs]: the error it returns, or the [stepIDs] it leaves. (Its inner
    loop over [step.Deps] has an empty body.) *)
Fixpoint check_steps (name : string) (stepIDs : gmap string bool) (steps : list Step)
    : result error (gmap string bool) :=
  match steps with
  | [] => Ok stepIDs
  | step :: steps' =>
      if decide (ID step = "") then Err (ErrEmptyStepID name)
      else if marked stepIDs (ID step) then Err (ErrDuplicateStepID name (ID step))
      else
        let stepIDs := <[ID step := true]> stepIDs in
        if negb (bool_decide (Type_ step ∈ validStepTypes))
        then Err (ErrInvalidType name (ID step) (Type_ step))
        else if bool_decide (Type_ step = "shell") && bool_decide (length (Command step) = 0%nat)
        then Err (ErrShellNoCommand name (ID step))
        else check_steps name stepIDs steps'
  end.

(** The second pass: the first dependency that is not in [stepIDs]. *)
Fixpoint check_deps (name : string) (stepIDs : gmap string bool) (steps : list Step)
    : result error unit :=
  match steps with
  | [] => Ok tt
  | step :: steps' =>
      match List.find (λ dep, negb (marked stepIDs dep)) (Deps step) with
      | Some dep => Err (ErrDepNotFound name (ID step) dep)
      | None => check_deps name stepIDs steps'
      end
  end.

(** [func validateProfile(name string, profile Profile, cfg *Config) error]. *)
Definition validateProfile (name : string) (profile : Profile) (cfg : Config)
    : option (result error unit) :=
  if bool_decide (Extends profile ≠ "") && bool_decide (Profiles cfg !! Extends profile = None)
  then Some (Err (ErrExtendsMissing name (Extends profile)))
  else
    match checkExtendsCycle (S (size (Profiles cfg))) name profile cfg {[name := true]} with
    | None => None
    | Some (Err e) => Some (Err e)
    | Some (Ok _) =>
        match check_steps name ∅ (Steps profile) with
        | Err e => Some (Err e)
        | Ok stepIDs => Some (check_deps name stepIDs (Steps profile))
        end
    end.

(** [for profileName, profile := range cfg.Profiles] of [Validate], over
    the entries in the order the iteration yields them. *)
Fixpoint validate_profiles (cfg : Config) (entries : list (string * Profile))
    : option (result error unit) :=
  match entries with
  | [] => Some (Ok tt)
  | (profileName, profile) :: entries' =>
      match validateProfile profileName profile cfg with
      | None => None
      | Some (Err e) => Some (Err e)
      | Some (Ok _) => validate_profiles cfg entries'
      end
  end.

(** [func Validate(cfg *Config) error]; [cfg] is [None] for the nil
    pointer. Go leaves the order of a [range] over a map unspecified:
    [range_Profiles] is that order, some rearrangement of the entries of
    the map. *)
Definition Validate (range_Profiles : gmap string Profile → list (string * Profile))
    (cfg : option Config) : option (result error unit) :=
  match cfg with
  | None => Some (Err ErrNilConfig)
  | Some cfg =>
      if decide (Version cfg ≠ 1) then Some (Err (ErrVersion (Version cfg)))
      else if decide (Name (Project_ cfg) = "") then Some (Err ErrProjectName)
      else if decide (size (Profiles cfg) = 0%nat) then Some (Err ErrNoProfiles)
      else validate_profiles cfg (range_Profiles (Profiles cfg))
  end.

(** The body of [for _, step := range profile.Steps] in
    [resolveProfileChain]: [step] takes the place of the first step of
    [baseSteps] with its id, or is appended. *)
Definition merge_step (baseSteps : list Step) (step : Step) : list Step :=
  match list_find (λ existing, ID existing = ID step) baseSteps with
  | Some (i, _) => <[i := step]> baseSteps
  | None => baseSteps ++ [step]
  end.

(** [func resolveProfileChain(profile, cfg, visited) ([]Step, error)], with
    fuel as for [checkExtendsCycle]. *)
Fixpoint resolveProfileChain (fuel : nat) (profile : Profile) (cfg : Config)
    (visited : gmap string bool) : option (result error (list Step)) :=
  match fuel with
  | O => None
  | S fuel' =>
      let base :=
        if decide (Extends profile ≠ "")
        then
          if marked visited (Extends profile) then Some (Err ErrResolveCycle)
          else
            let visited := <[Extends profile := true]> visited in
            match Profiles cfg !! Extends profile with
            | None => Some (Err (ErrResolveExtendsNotFound (Extends profile)))
            | Some parent => resolveProfileChain fuel' parent cfg visited
            end
        else Some (Ok [])
      in
      match base with
      | None => None
      | Some (Err e) => Some (Err e)
      | Some (Ok baseSteps) => Some (Ok (fold_left merge_step (Steps profile) baseSteps))
      end
  end.

(** [func ResolveProfile(cfg *Config, name string) ([]Step, error)]. *)
Definition ResolveProfile (cfg : option Config) (name : string)
    : option (result error (list Step)) :=
  match cfg with
  | None => Some (Err ErrResolveNil)
  | Some cfg =>
      match Profiles cfg !! name with
      | None => Some (Err (ErrResolveNotFound name))
      | Some profile =>
          resolveProfileChain (S (size (Profiles cfg))) profile cfg {[name := true]}
      end
  end.

(** [func LoadFromBytes(data []byte)], returning the configuration or an
    error. [yaml_Decode] is
    the decoding of the document by [gopkg.in/yaml.v3] with
    [KnownFields(true)], which is not part of this development. *)
Inductive load_error : Type :=
| ErrReadFile (path e : string)   (* "load config %q: %w", "read config %q: %w" *)
| ErrParse (e : string)           (* "parse config YAML: %w" *)
| ErrInvalid (e : error).         (* the error of [Validate], as it is *)

Definition LoadFromBytes (yaml_Decode : list byte → result string Config)
    (range_Profiles : gmap string Profile → list (string * Profile))
    (data : list byte) : option (result load_error Config) :=
  match yaml_Decode data with
  | Err e => Some (Err (ErrParse e))
  | Ok cfg =>
      match Validate range_Profiles (Some cfg) with
      | None => None
      | Some (Err e) => Some (Err (ErrInvalid e))
      | Some (Ok _) => Some (Ok cfg)
      end
  end.

(** [func Load(path string)] and [func RawBytes(path string)], in a world
    [W] whose files [os_ReadFile] reads. *)
Definition Load {W : Type} (os_ReadFile : string → W → result string (list byte) * W)
    (yaml_Decode : list byte → result string Config)
    (range_Profiles : gmap string Profile → list (string * Profile))
    (path : string) (w : W) : option (result load_error Config) * W :=
  match os_ReadFile path w with
  | (Err e, w1) => (Some (Err (ErrReadFile path e)), w1)
  | (Ok data, w1) => (LoadFromBytes yaml_Decode range_Profiles data, w1)
  end.

Definition RawBytes {W : Type} (os_ReadFile : string → W → result string (list byte) * W)
    (path : string) (w : W) : result load_error (list byte) * W :=
  match os_ReadFile path w with
  | (Err e, w1) => (Err (ErrReadFile path e), w1)
  | (Ok data, w1) => (Ok data, w1)
  end.

(** *** Vocabulary of the properties *)

(** [extends cfg a b]: the profile named [a] has [extends: b]. *)
Definition extends (cfg : Config) (a b : string) : Prop :=
  ∃ profile, Profiles cfg !! a = Some profile ∧ Extends profile = b ∧ b ≠ "".

(** What [validateProfile] asks of a step. *)
Definition step_ok (step : Step) : Prop :=
  ID step ≠ "" ∧ Type_ step ∈ validStepTypes ∧
  (Type_ step = "shell" → Command step ≠ []).

Definition ids (steps : list Step) : list string := ID <$> steps.

(** A profile extends a profile that exists, if any; its steps are valid,
    with pairwise distinct ids, and depend on steps of the profile only. *)
Definition profile_ok (cfg : Config) (profile : Profile) : Prop :=
  (Extends profile ≠ "" → is_Some (Profiles cfg !! Extends profile)) ∧
  Forall step_ok (Steps profile) ∧
  NoDup (ids (Steps profile)) ∧
  (∀ step dep, step ∈ Steps profile → dep ∈ Deps step → dep ∈ ids (Steps profile)).

Definition well_formed (cfg : Config) : Prop :=
  Version cfg = 1 ∧
  Name (Project_ cfg) ≠ "" ∧
  Profiles cfg ≠ ∅ ∧
  (∀ name profile, Profiles cfg !! name = Some profile → profile_ok cfg profile) ∧
  (∀ name, ¬ tc (extends cfg) name name).

(** The step that an id names in a list of steps: the first with that id. *)
Definition step_of (steps : list Step) (id : string) : option Step :=
  snd <$> list_find (λ step, ID step = id) steps.

(** What the merge of [resolveProfileChain] gives. *)

(** The ids of [l] that are not in [seen], each once, in the order in
    which they first occur. *)
Fixpoint fresh_ids (seen l : list string) : list string :=
  match l with
  | [] => []
  | id :: l' =>
      if decide (id ∈ seen) then fresh_ids seen l'
      else id :: fresh_ids (seen ++ [id]) l'
  end.

(** The step an id names after the steps of a profile have been merged
    onto [base]: the last step of the profile with that id, and else the
    step of [base] with that id. *)
Definition merged_step (own base : list Step) (id : string) : option Step :=
  match last (filter (λ step, ID step = id) own) with
  | Some step => Some step
  | None => step_of base id
  end.

(** *** A configuration

    The configuration of the README, with a second profile that extends
    [default]: it replaces [test] and adds [package]. *)
Definition shell (id : string) (command deps : list string) : Step :=
  mkStep id "shell" command deps ∅ "" 0.

Definition readme_default : Profile :=
  mkProfile "" [shell "lint" ["bash"; "-lc"; "go fmt ./..."] [];
                shell "test" ["bash"; "-lc"; "go test ./..."] ["lint"]].

Definition readme_release : Profile :=
  mkProfile "default"
            [shell "test" ["bash"; "-lc"; "go test -race ./..."] [];
             shell "package" ["bash"; "-lc"; "go build ./..."] ["test"]].

Definition readme_config : Config :=
  mkConfig 1 (mkProject "my-project") Policy.DefaultPolicy
           (<["release" := readme_release]> {["default" := readme_default]}).

End Config.

(** ** Package plan *)

Module Plan.

(** [type PlanStep struct]. *)
Record PlanStep : Type := mkPlanStep {
  ID : string;
  Type_ : string;
  Command : list string;
  Deps : list string;
  Env : gmap string string;
  Timeout : string;
  Retries : Z
}.

(** [type Plan struct]. *)
Record Plan : Type := mkPlan {
  Version : Z;
  ProjectName : string;
  Profile : string;
  ConfigHash : string;
  CreatedAt : string;
  Steps : list PlanStep;
  Order : list string
}.

(** The errors of the package. *)
Inductive error : Type :=
| ErrCycle (ordered total : nat)
    (* "topological sort: cycle detected (only %d of %d steps ordered)" *)
| ErrEmptyProject         (* "build plan: project name is empty" *)
| ErrEmptyProfile         (* "build plan: profile name is empty" *)
| ErrBuild (e : error).   (* "build plan: %w" *)

(** [slices.Sort] on a slice of strings: the ascending rearrangement. *)
Definition slices_Sort (l : list string) : list string :=
  merge_sort String.le l.

(** The three maps [TopologicalSort] builds in its first loop. *)
Record index : Type := mkIndex {
  stepMap : gmap string PlanStep;
  inDegree : gmap string Z;
  adjList : gmap string (list string)
}.

Definition deg (m : gmap string Z) (id : string) : Z := default 0 (m !! id).
Definition adj (m : gmap string (list string)) (id : string) : list string :=
  default [] (m !! id).

(** Body of [for _, dep := range step.Deps]. *)
Definition add_dep (id : string) (acc : gmap string Z * gmap string (list string))
    (dep : string) : gmap string Z * gmap string (list string) :=
  let '(indeg, adjl) := acc in
  (<[id := deg indeg id + 1]> indeg, <[dep := adj adjl dep ++ [id]]> adjl).

(** Body of [for _, step := range steps]. *)
Definition add_step (ix : index) (step : PlanStep) : index :=
  let sm := <[ID step := step]> (stepMap ix) in
  let indeg0 :=
    match inDegree ix !! ID step with
    | Some _ => inDegree ix
    | None => <[ID step := 0]> (inDegree ix)
    end in
  let '(indeg, adjl) := fold_left (add_dep (ID step)) (Deps step) (indeg0, adjList ix) in
  mkIndex sm indeg adjl.

Definition build_index (steps : list PlanStep) : index :=
  fold_left add_step steps (mkIndex ∅ ∅ ∅).

(** [for id := range stepMap { if inDegree[id] == 0 {...} }; slices.Sort(ready)].
    Go visits the keys in an unspecified order; the sort erases it. *)
Definition initial_ready (ix : index) : list string :=
  slices_Sort (filter (λ id, deg (inDegree ix) id = 0) (map_to_list (stepMap ix)).*1).

(** [for _, neighbor := range neighbors]: decrement, and append to [ready]
    (re-sorting it) when the in-degree reaches zero. *)
Fixpoint relax (neighbors : list string) (indeg : gmap string Z) (ready : list string)
    : gmap string Z * list string :=
  match neighbors with
  | [] => (indeg, ready)
  | neighbor :: rest =>
      let d := deg indeg neighbor - 1 in
      let indeg' := <[neighbor := d]> indeg in
      if decide (d = 0)
      then relax rest indeg' (slices_Sort (ready ++ [neighbor]))
      else relax rest indeg' ready
  end.

(** [for len(ready) > 0]. The recursion is on [fuel]; [None] means the fuel
    ran out with [ready] not yet empty. *)
Fixpoint drain (fuel : nat) (adjl : gmap string (list string))
    (indeg : gmap string Z) (ready order : list string) : option (list string) :=
  match ready with
  | [] => Some order
  | current :: ready' =>
      match fuel with
      | O => None
      | S fuel' =>
          let order' := order ++ [current] in
          let neighbors := slices_Sort (adj adjl current) in
          let '(indeg', ready'') := relax neighbors indeg ready' in
          drain fuel' adjl indeg' ready'' order'
      end
  end.

(** [func TopologicalSort(steps []PlanStep) ([]string, error)].
    Every pass of the main loop appends one id that was never appended
    before, so [length steps] passes always suffice
    ([TopologicalSort_returns]); [None] is the model running out of fuel. *)
Definition TopologicalSort (steps : list PlanStep) : option (result error (list string)) :=
  if decide (length steps = 0%nat) then Some (Ok [])
  else
    let ix := build_index steps in
    match drain (length steps) (adjList ix) (inDegree ix) (initial_ready ix) [] with
    | None => None
    | Some order =>
        if decide (length order ≠ length steps)
        then Some (Err (ErrCycle (length order) (length steps)))
        else Some (Ok order)
    end.

(** The body of [Build]'s conversion loop: a [config.Step] copied field
    by field into a [PlanStep]. *)
Definition to_PlanStep (s : Config.Step) : PlanStep :=
  mkPlanStep (Config.ID s) (Config.Type_ s) (Config.Command s) (Config.Deps s)
             (Config.Env s) (Config.Timeout s) (Config.Retries s).

(** [func Build(projectName, profileName string, steps []config.Step,
    configData []byte)], returning a plan or an error. [now] is what
    [time.Now().UTC().Format(time.RFC3339)] yields at the call. *)
Definition Build (now : string) (projectName profileName : string)
    (steps : list Config.Step) (configData : list byte) : option (result error Plan) :=
  if decide (projectName = "") then Some (Err ErrEmptyProject)
  else if decide (profileName = "") then Some (Err ErrEmptyProfile)
  else
    let planSteps := to_PlanStep <$> steps in
    match TopologicalSort planSteps with
    | None => None
    | Some (Err err) => Some (Err (ErrBuild err))
    | Some (Ok order) =>
        let hash := SHA256.Sum256 configData in
        let configHash := Hex.EncodeToString hash in
        Some (Ok (mkPlan 1 projectName profileName configHash now planSteps order))
    end.

(** *** Vocabulary of the specification *)

Definition ids (steps : list PlanStep) : list string := ID <$> steps.

(** [depends steps d s]: some step with id [s] lists [d] among its [Deps]. *)
Definition depends (steps : list PlanStep) (d s : string) : Prop :=
  ∃ st, st ∈ steps ∧ ID st = s ∧ d ∈ Deps st.

(** Referential integrity: every dependency id is the id of a step. *)
Definition resolved (steps : list PlanStep) : Prop :=
  ∀ st d, st ∈ steps → d ∈ Deps st → d ∈ ids steps.

Definition has_cycle (steps : list PlanStep) : Prop :=
  ∃ x, tc (depends steps) x x.

Definition acyclic (steps : list PlanStep) : Prop :=
  ∀ x, ¬ tc (depends steps) x x.

(** [before order d s]: [s] occurs in [order] with [d] somewhere ahead of it. *)
Definition before (order : list string) (d s : string) : Prop :=
  ∃ l1 l2, order = l1 ++ s :: l2 ∧ d ∈ l1.

(** Every step appears after each of its dependencies. *)
Definition linearizes (order : list string) (steps : list PlanStep) : Prop :=
  ∀ st d, st ∈ steps → d ∈ Deps st → before order d (ID st).

(** The dependency edges [(dep, dependent)] in the order the first loop of
    [TopologicalSort] meets them. *)
Definition edges (steps : list PlanStep) : list (string * string) :=
  st ← steps; (λ d, (d, ID st)) <$> Deps st.

(** *** Vocabulary of the proofs *)

(** Number of edges into [n], and the dependents of [d] in edge order. *)
Definition into (E : list (string * string)) (n : string) : nat :=
  length (filter (λ e, e.2 = n) E).
Definition out_of (E : list (string * string)) (d : string) : list string :=
  (filter (λ e, e.1 = d) E).*2.

(** Edges into [n] whose source is not yet in [order]. *)
Definition pend_in (E : list (string * string)) (order : list string) (n : string) : nat :=
  length (filter (λ e, e.2 = n ∧ e.1 ∉ order) E).
Definition pend (steps : list PlanStep) : list string → string → nat :=
  pend_in (edges steps).

(** Occurrences of [n] in [l]. *)
Definition cnt (n : string) (l : list string) : nat := length (filter (n =.) l).

(** The loop invariant. [rem] is the part of [neighbors] the inner loop has
    still to visit; it is empty at the head of the outer loop. *)
Record inv (steps : list PlanStep) (indeg : gmap string Z)
    (ready order rem : list string) : Prop := mkInv {
  inv_nodup : NoDup (order ++ ready);
  inv_deg : ∀ n, deg indeg n = Z.of_nat (pend steps order n) + Z.of_nat (cnt n rem);
  inv_mem : ∀ n, n ∈ order ++ ready ↔ n ∈ ids steps ∧ deg indeg n = 0;
  inv_valid : ∀ l1 n l2, order = l1 ++ n :: l2 →
    ∀ d, depends steps d n → d ∈ l1;
  inv_least : ∀ l1 x l2, order = l1 ++ x :: l2 →
    ∀ y, y ∈ ids steps → y ∉ l1 → (∀ d, depends steps d y → d ∈ l1) → String.le x y;
  inv_sorted : StronglySorted String.le ready;
  inv_rem : ∀ n, n ∈ rem → n ∈ ids steps
}.

(** *** Example step lists *)

Definition step (id : string) (deps : list string) : PlanStep :=
  mkPlanStep id "shell" ["true"] deps ∅ "" 0.

(** The diamond [a → b], [a → c], [b → d], [c → d]. *)
Definition diamond : list PlanStep :=
  [step "d" ["b"; "c"]; step "c" ["a"]; step "b" ["a"]; step "a" []].

Definition diamond_rank (id : string) : nat :=
  if decide (id = "a") then 0 else if decide (id = "d") then 2 else 1.

Definition two_cycle : list PlanStep :=
  [step "a" ["b"]; step "b" ["a"]; step "c" []].

End Plan.

(** ** Package exec *)

Module Exec.

(** Modelled from the spec: the declaration of [plan.Step], the type package
    exec and its tests give to the steps of a plan, is not among the
    sources. The specification's Step has an id, a kind, a command, the
    dependency ids, an environment, a timeout and a retry budget; these
    are the fields of [Plan.PlanStep], which stands for it. *)
Definition Step : Type := Plan.PlanStep.

(** [type Options struct]. [DefaultTimeout] is a [time.Duration]: a signed
    64-bit count of nanoseconds. *)
Record Options : Type := mkOptions {
  OutDir : string;
  DefaultTimeout : Z;
  Jobs : Z;
  FailFast : bool
}.

(** [type StepResult struct]. [Duration] holds the [time.Duration] whose
    [String()] rendering the Go field stores ("0s" is the rendering of 0);
    [executeStepAttempt] leaves the field at its zero value and
    [executeStep] always overwrites it. *)
Record StepResult : Type := mkStepResult {
  ID : string;
  Status : string;
  Error : string;
  LogFile : string;
  Duration : Z;
  ExitCode : Z;
  Attempt : Z
}.

Definition set_Status (v : string) (r : StepResult) : StepResult :=
  mkStepResult (ID r) v (Error r) (LogFile r) (Duration r) (ExitCode r) (Attempt r).
Definition set_Error (v : string) (r : StepResult) : StepResult :=
  mkStepResult (ID r) (Status r) v (LogFile r) (Duration r) (ExitCode r) (Attempt r).
Definition set_LogFile (v : string) (r : StepResult) : StepResult :=
  mkStepResult (ID r) (Status r) (Error r) v (Duration r) (ExitCode r) (Attempt r).
Definition set_Duration (v : Z) (r : StepResult) : StepResult :=
  mkStepResult (ID r) (Status r) (Error r) (LogFile r) v (ExitCode r) (Attempt r).
Definition set_ExitCode (v : Z) (r : StepResult) : StepResult :=
  mkStepResult (ID r) (Status r) (Error r) (LogFile r) (Duration r) v (Attempt r).

(** [type ExecutionResult struct]; the fields are prefixed because a
    module cannot declare two records with a field [Status]. *)
Record ExecutionResult : Type := mkExecutionResult {
  Overall_Status : string;
  Overall_Duration : Z;
  Overall_Steps : list StepResult
}.

(** *** The world a step runs in

    What [executeStepAttempt] and [executeStep] ask of the operating system,
    the clock and the context, as operations on a state [W] that is
    threaded through them. *)

(** What [cmd.Run()] returns: [nil]; an [*exec.ExitError], with its
    [ExitCode()] and [Error()]; any other error, with its [Error()]. *)
Inductive run_outcome : Type :=
| RunOk
| RunExit (code : Z) (msg : string)
| RunFail (msg : string).

(** The command handed to [cmd.Run()]: the argument vector, the variables
    appended to the ambient environment, the deadline of the context it
    is bound to ([None]: the step context itself, no deadline added), the
    file receiving stdout and stderr. *)
Record Cmd : Type := mkCmd {
  Args : list string;
  ExtraEnv : gmap string string;
  Deadline : option Z;
  Output : option string
}.

Record Sys (W : Type) : Type := mkSys {
  time_Now : W → Z;                            (* the clock, in nanoseconds *)
  ctx_Err : W → bool;                          (* [ctx.Err() != nil] *)
  time_ParseDuration : string → result string Z;
  filepath_Join : string → string → string;
  os_Create : string → W → option string * W;  (* [Some e]: the error *)
  cmd_Run : Cmd → W → run_outcome * W;
  retry_pause : W → W
    (* [select { case <-time.After(100ms): case <-ctx.Done(): }] *)
}.
Arguments time_Now {W} _ _.
Arguments ctx_Err {W} _ _.
Arguments time_ParseDuration {W} _ _.
Arguments filepath_Join {W} _ _ _.
Arguments os_Create {W} _ _ _.
Arguments cmd_Run {W} _ _ _.
Arguments retry_pause {W} _ _.

Section step_runner.
Context {W : Type} (sys : Sys W).

(** The [// Apply timeout] block of [executeStepAttempt]: the default, or
    the parsed [step.Timeout] when that string is not empty. *)
Definition step_timeout (step : Step) (opts : Options) : result string Z :=
  if decide (Plan.Timeout step ≠ "")
  then time_ParseDuration sys (Plan.Timeout step)
  else Ok (DefaultTimeout opts).

(** [if timeout > 0 { ctx, cancel = context.WithTimeout(ctx, timeout) ... }]. *)
Definition deadline_of (timeout : Z) : option Z :=
  if decide (timeout > 0) then Some timeout else None.

(** [fmt.Sprintf("%s.%d.log", step.ID, attempt)]. *)
Definition logFileName (id : string) (attempt : Z) : string :=
  (id +:+ "." +:+ pretty attempt +:+ ".log")%string.

(** The [// Create log file] block: the error of [os.Create], if any, the
    path of the log file, if one was asked for, and the world left. *)
Definition create_log (step : Step) (opts : Options) (attempt : Z) (w : W)
    : option string * option string * W :=
  if decide (OutDir opts ≠ "")
  then
    let logPath := filepath_Join sys (OutDir opts) (logFileName (Plan.ID step) attempt) in
    match os_Create sys logPath w with
    | (Some err, w1) => (Some err, None, w1)
    | (None, w1) => (None, Some logPath, w1)
    end
  else (None, None, w).

(** The end of [executeStepAttempt], from [err := cmd.Run()] on. *)
Definition conclude (result : StepResult) (out : run_outcome) : StepResult :=
  match out with
  | RunExit code msg => set_Error msg (set_ExitCode code result)
  | RunFail msg => set_Error msg (set_ExitCode (-1) result)
  | RunOk => set_ExitCode 0 (set_Status "success" result)
  end.

(** [func executeStepAttempt(ctx, step, opts, attempt)], returning the
    result of the attempt. The command is built a second time when a
    deadline is set, with the same arguments, output and environment: it
    is the command with the deadline that runs. *)
Definition executeStepAttempt (step : Step) (opts : Options) (attempt : Z) (w : W)
    : StepResult * W :=
  let result := mkStepResult (Plan.ID step) "failed" "" "" 0 0 attempt in
  if decide (Plan.Type_ step ≠ "shell")
  then (set_Error ("unsupported step type: " +:+ Plan.Type_ step) result, w)
  else if decide (length (Plan.Command step) = 0%nat)
  then (set_Error "empty command" result, w)
  else
    match create_log step opts attempt w with
    | (Some err, _, w1) => (set_Error ("create log file: " +:+ err) result, w1)
    | (None, logFile, w1) =>
        let result := set_LogFile (default "" logFile) result in
        match step_timeout step opts with
        | Err err => (set_Error ("invalid timeout: " +:+ err) result, w1)
        | Ok timeout =>
            let cmd := mkCmd (Plan.Command step) (Plan.Env step) (deadline_of timeout) logFile in
            let '(out, w2) := cmd_Run sys cmd w1 in
            (conclude result out, w2)
        end
    end.

(** Go's [int] addition on a 64-bit platform. *)
Definition wrap64 (z : Z) : Z := (z + 2 ^ 63) mod 2 ^ 64 - 2 ^ 63.

(** [maxAttempts := step.Retries + 1; if maxAttempts < 1 { maxAttempts = 1 }]. *)
Definition maxAttempts (step : Step) : Z :=
  let m := wrap64 (Plan.Retries step + 1) in
  if decide (m < 1) then 1 else m.

(** [for attempt := 1; attempt <= maxAttempts; attempt++] of [executeStep],
    entered with [attempt <= maxAttempts]. [k] is [maxAttempts - attempt],
    the number of passes left after this one: the test
    [attempt < maxAttempts] is [k ≠ 0]. The [break] under
    [case <-ctx.Done()] leaves the [select] only, so both cases of the
    pause go on to the next pass. ([attempt++] after a failed pass at
    [attempt = 2^63 - 1] would wrap and keep the Go loop going; no run
    gets there and the recursion stops.) Returns what [executeStep]
    returns from this pass on. *)
Fixpoint attempt_loop (step : Step) (opts : Options) (stepStart : Z)
    (k : nat) (attempt : Z) (w : W) : StepResult * W :=
  let attemptStart := time_Now sys w in
  let '(result, w1) := executeStepAttempt step opts attempt w in
  let result := set_Duration (time_Now sys w1 - attemptStart) result in
  if decide (Status result = "success")
  then (set_Duration (time_Now sys w1 - stepStart) result, w1)
  else if ctx_Err sys w1
  then (set_Duration (time_Now sys w1 - stepStart) result, w1)
  else
    match k with
    | O => (set_Duration (time_Now sys w1 - stepStart) result, w1)
    | S k' => attempt_loop step opts stepStart k' (attempt + 1) (retry_pause sys w1)
    end.

(** [func executeStep(ctx, step, opts) *StepResult]. *)
Definition executeStep (step : Step) (opts : Options) (w : W) : StepResult * W :=
  attempt_loop step opts (time_Now sys w) (Z.to_nat (maxAttempts step - 1)) 1 w.

(** The attempts [executeStep] makes, in order: for each, its number, the
    world it starts in, what [executeStepAttempt] returns and the world
    it leaves. A ghost of [attempt_loop], which it follows pass by pass. *)
Record attempt_record : Type := mkAttempt {
  at_number : Z;
  at_before : W;
  at_result : StepResult;
  at_after : W
}.

Fixpoint attempt_log (step : Step) (opts : Options)
    (k : nat) (attempt : Z) (w : W) : list attempt_record :=
  let '(result, w1) := executeStepAttempt step opts attempt w in
  let this := mkAttempt attempt w result w1 in
  if decide (Status result = "success") then [this]
  else if ctx_Err sys w1 then [this]
  else
    match k with
    | O => [this]
    | S k' => this :: attempt_log step opts k' (attempt + 1) (retry_pause sys w1)
    end.

Definition executeStep_log (step : Step) (opts : Options) (w : W) : list attempt_record :=
  attempt_log step opts (Z.to_nat (maxAttempts step - 1)) 1 w.

End step_runner.

(** *** [Execute]

    [Execute] starts one goroutine per id of [p.Order] and waits for all of
    them. The goroutines share [results] (under [resultsMu]), [failedSteps]
    (under [failedMu]), the semaphore channel [sem] and the cancellation of
    [execCtx]. The model is the interleaving of their atomic actions: one
    action is one critical section, one channel operation or the call of
    [executeStep]. *)

(** The errors of [Execute]. *)
Inductive error : Type :=
| ErrNilPlan                      (* "execute: plan is nil" *)
| ErrCreateOutDir (e : string)    (* "execute: create output directory: %w" *)
| ErrNotInSteps (id : string)     (* "execute: step %q in order but not in steps" *)
| ErrMissingResult (id : string). (* "execute: missing result for step %q" *)

(** Where a goroutine stands. *)
Inductive pc : Type :=
| AtAcquire                 (* at [select { case sem <- struct{}{}: ... case <-execCtx.Done(): ... }] *)
| AtPoll                    (* about to read [results] for its dependencies *)
| AtSleep                   (* at [select { case <-time.After(10ms): case <-execCtx.Done(): ... }] *)
| AtCheck                   (* about to read [failedSteps] for its dependencies *)
| AtSkip                    (* [depFailed] is true: about to record the skip *)
| AtRun                     (* in [executeStep(execCtx, step, opts)] *)
| AtStore (r : StepResult)  (* [executeStep] returned [r]: about to write [results] *)
| AtTrack (r : StepResult)  (* about to test [result.Status == "failed"] *)
| AtCancel                  (* [failedSteps] updated: about to test [opts.FailFast] *)
| AtDone.                   (* returned: slot released, [wg.Done()] called *)

(** The shared state. [sem] is the number of elements in the channel. *)
Record state : Type := mkState {
  results : gmap string StepResult;
  failedSteps : gmap string bool;
  sem : Z;
  cancelled : bool;
  tasks : list pc
}.

(** From [case sem <- struct{}{}] to the deferred [<-sem] a goroutine
    holds one slot of the semaphore. *)
Definition holds_slot (c : pc) : bool :=
  match c with
  | AtAcquire | AtDone => false
  | _ => true
  end.

Definition cancelled_skip (id : string) : StepResult :=
  mkStepResult id "skipped" "execution cancelled" "" 0 0 0.

Definition dependency_skip (id : string) : StepResult :=
  mkStepResult id "skipped" "dependency failed" "" 0 0 0.

(** [stepMap]: the last step of [p.Steps] with a given id. *)
Definition stepMap (steps : list Step) : gmap string Step :=
  fold_left (λ m st, <[Plan.ID st := st]> m) steps ∅.

(** [failedSteps[dep]] on a [map[string]bool]. *)
Definition is_failed (s : state) (dep : string) : bool :=
  default false (failedSteps s !! dep).

Definition is_complete (s : state) (dep : string) : bool :=
  bool_decide (is_Some (results s !! dep)).

Definition set_results (id : string) (r : StepResult) (s : state) : state :=
  mkState (<[id := r]> (results s)) (failedSteps s) (sem s) (cancelled s) (tasks s).
Definition set_failed (id : string) (s : state) : state :=
  mkState (results s) (<[id := true]> (failedSteps s)) (sem s) (cancelled s) (tasks s).
Definition set_sem (n : Z) (s : state) : state :=
  mkState (results s) (failedSteps s) n (cancelled s) (tasks s).
Definition set_cancelled (b : bool) (s : state) : state :=
  mkState (results s) (failedSteps s) (sem s) b (tasks s).
Definition set_pc (i : nat) (c : pc) (s : state) : state :=
  mkState (results s) (failedSteps s) (sem s) (cancelled s) (<[i := c]> (tasks s)).
Definition release (s : state) : state := set_sem (sem s - 1) s.

Section scheduler.
Context {W : Type} (sys : Sys W).

(** The atomic actions. [ACallerCancel] is the cancellation of the context
    [Execute] was called with; [ARun i w] is goroutine [i] going through
    [executeStep] in the world [w]. *)
Inductive action : Type :=
| AAcquire (i : nat)
| AAcquireCancelled (i : nat)
| APoll (i : nat)
| AWake (i : nat)
| ASleepCancelled (i : nat)
| ACheck (i : nat)
| ASkip (i : nat)
| ARun (i : nat) (w : W)
| AStore (i : nat)
| ATrack (i : nat)
| ACancel (i : nat)
| ACallerCancel.

(** One action of the goroutine of [id] and [step] standing at [c]: its
    next position and the shared state it leaves; [None] when the action
    is not enabled there. *)
Definition task_fire (opts : Options) (id : string) (step : Step)
    (a : action) (c : pc) (s : state) : option (pc * state) :=
  match a, c with
  | AAcquire _, AtAcquire =>
      if decide (sem s < Jobs opts) then Some (AtPoll, set_sem (sem s + 1) s) else None
  | AAcquireCancelled _, AtAcquire =>
      if cancelled s then Some (AtDone, set_results id (cancelled_skip id) s) else None
  | APoll _, AtPoll =>
      if forallb (is_complete s) (Plan.Deps step) then Some (AtCheck, s) else Some (AtSleep, s)
  | AWake _, AtSleep => Some (AtPoll, s)
  | ASleepCancelled _, AtSleep =>
      if cancelled s then Some (AtDone, release (set_results id (cancelled_skip id) s)) else None
  | ACheck _, AtCheck =>
      if existsb (is_failed s) (Plan.Deps step) then Some (AtSkip, s) else Some (AtRun, s)
  | ASkip _, AtSkip => Some (AtDone, release (set_results id (dependency_skip id) s))
  | ARun _ w, AtRun => Some (AtStore (executeStep sys step opts w).1, s)
  | AStore _, AtStore r => Some (AtTrack r, set_results id r s)
  | ATrack _, AtTrack r =>
      if decide (Status r = "failed") then Some (AtCancel, set_failed id s)
      else Some (AtDone, release s)
  | ACancel _, AtCancel =>
      Some (AtDone, release (if FailFast opts then set_cancelled true s else s))
  | _, _ => None
  end.

Definition actor (a : action) : option nat :=
  match a with
  | AAcquire i | AAcquireCancelled i | APoll i | AWake i | ASleepCancelled i
  | ACheck i | ASkip i | ARun i _ | AStore i | ATrack i | ACancel i => Some i
  | ACallerCancel => None
  end.

(** One action on the whole state. *)
Definition fire (p : Plan.Plan) (opts : Options) (a : action) (s : state) : option state :=
  match actor a with
  | None => Some (set_cancelled true s)
  | Some i =>
      id ← Plan.Order p !! i;
      step ← stepMap (Plan.Steps p) !! id;
      c ← tasks s !! i;
      '(c', s') ← task_fire opts id step a c s;
      Some (set_pc i c' s')
  end.

Fixpoint run (p : Plan.Plan) (opts : Options) (acts : list action) (s : state)
    : option state :=
  match acts with
  | [] => Some s
  | a :: acts' => s' ← fire p opts a s; run p opts acts' s'
  end.

(** The state in which the goroutines start. *)
Definition init (p : Plan.Plan) : state :=
  mkState ∅ ∅ 0 false (replicate (length (Plan.Order p)) AtAcquire).

Definition reachable (p : Plan.Plan) (opts : Options) (s : state) : Prop :=
  ∃ acts, run p opts acts (init p) = Some s.

(** [wg.Wait()] returns. *)
Definition all_done (s : state) : Prop := Forall (λ c, c = AtDone) (tasks s).

(** What [Execute] does before it waits: the nil check, the output
    directory ([mkdir] is the error of [os.MkdirAll], if any), the semaphore
    ([make] panics on a negative capacity) and the launch loop, which
    returns at the first id of [p.Order] that [stepMap] lacks. *)
Inductive launched : Type :=
| Launched (p : Plan.Plan)
| Failed (e : error)
| Panicked.

Definition launch (p : option Plan.Plan) (opts : Options) (mkdir : option string)
    : launched :=
  match p with
  | None => Failed ErrNilPlan
  | Some p =>
      match (if decide (OutDir opts ≠ "") then mkdir else None) with
      | Some e => Failed (ErrCreateOutDir e)
      | None =>
          if decide (Jobs opts < 0) then Panicked
          else
            match List.find (λ id, bool_decide (stepMap (Plan.Steps p) !! id = None))
                            (Plan.Order p) with
            | Some id => Failed (ErrNotInSteps id)
            | None => Launched p
            end
      end
  end.

(** [// Collect results in order] and the return. [elapsed] is
    [time.Since(startTime)]. *)
Fixpoint collect (order : list string) (res : gmap string StepResult)
    (stepResults : list StepResult) (overallStatus : string)
    : result error (list StepResult * string) :=
  match order with
  | [] => Ok (stepResults, overallStatus)
  | stepID :: order' =>
      match res !! stepID with
      | None => Err (ErrMissingResult stepID)
      | Some r =>
          collect order' res (stepResults ++ [r])
                  (if decide (Status r = "failed") then "failed" else overallStatus)
      end
  end.

Definition finish (p : Plan.Plan) (s : state) (elapsed : Z)
    : result error ExecutionResult :=
  match collect (Plan.Order p) (results s) [] "success" with
  | Err e => Err e
  | Ok (stepResults, overallStatus) =>
      Ok (mkExecutionResult overallStatus elapsed stepResults)
  end.

(** [Execute(ctx, p, opts)] returns [out]. *)
Inductive Execute (p : option Plan.Plan) (opts : Options) (mkdir : option string)
    : result error ExecutionResult → Prop :=
| Execute_early e :
    launch p opts mkdir = Failed e →
    Execute p opts mkdir (Err e)
| Execute_waited p' acts s elapsed :
    launch p opts mkdir = Launched p' →
    run p' opts acts (init p') = Some s →
    all_done s →
    Execute p opts mkdir (finish p' s elapsed).

End scheduler.

(** *** Vocabulary of the proofs *)

(** Number of goroutines holding a slot, and number of them inside
    [executeStep]. *)
Fixpoint slots (l : list pc) : Z :=
  match l with
  | [] => 0
  | c :: l' => (if holds_slot c then 1 else 0) + slots l'
  end.

Fixpoint running (l : list pc) : Z :=
  match l with
  | [] => 0
  | c :: l' => (if c is AtRun then 1 else 0) + running l'
  end.

(** Positions at which the goroutine has written its result. *)
Definition recorded (c : pc) : bool :=
  match c with
  | AtTrack _ | AtCancel | AtDone => true
  | _ => false
  end.

(** The semaphore counts the goroutines that hold a slot. *)
Record sem_inv (p : Plan.Plan) (opts : Options) (s : state) : Prop := mkSemInv {
  sem_len : length (tasks s) = length (Plan.Order p);
  sem_slots : sem s = slots (tasks s);
  sem_cap : sem s ≤ Z.max (Jobs opts) 0
}.

(** A goroutine past its write has its result in [results]. *)
Definition rec_inv (p : Plan.Plan) (s : state) : Prop :=
  ∀ i id c, Plan.Order p !! i = Some id → tasks s !! i = Some c →
            recorded c = true → is_Some (results s !! id).

(** *** Failed steps

    In a plan whose order has no repeated id, each id has one goroutine,
    the only writer of its result. *)
Record fail_inv (p : Plan.Plan) (s : state) : Prop := mkFailInv {
  fi_track : ∀ i id r, Plan.Order p !! i = Some id →
    tasks s !! i = Some (AtTrack r) → results s !! id = Some r;
  fi_store : ∀ i r, tasks s !! i = Some (AtStore r) →
    Status r = "failed" ∨ Status r = "success";
  fi_failed : ∀ d, is_failed s d = true →
    ∃ i r, Plan.Order p !! i = Some d ∧
           (tasks s !! i = Some AtCancel ∨ tasks s !! i = Some AtDone) ∧
           results s !! d = Some r ∧ Status r = "failed";
  fi_skip : ∀ i id st, Plan.Order p !! i = Some id →
    stepMap (Plan.Steps p) !! id = Some st → tasks s !! i = Some AtSkip →
    ∃ d, d ∈ Plan.Deps st ∧ is_failed s d = true;
  fi_depskip : ∀ id st r, stepMap (Plan.Steps p) !! id = Some st →
    results s !! id = Some r → Status r = "skipped" → Error r = "dependency failed" →
    ∃ d, d ∈ Plan.Deps st ∧ is_failed s d = true
}.

(** *** A goroutine that finds a failed dependency

    [doomed i id d s]: goroutine [i], of id [id], is at the check with its
    dependency [d] in [failedSteps], or on its way from there. *)
Definition doomed (i : nat) (id d : string) (s : state) : Prop :=
  (tasks s !! i = Some AtCheck ∧ is_failed s d = true) ∨
  tasks s !! i = Some AtSkip ∨
  (tasks s !! i = Some AtDone ∧ results s !! id = Some (dependency_skip id)).

(** *** What the results hold *)

(** Positions between the end of the polling loop and the return. *)
Definition past_poll (c : pc) : bool :=
  match c with
  | AtCheck | AtSkip | AtRun | AtStore _ | AtTrack _ | AtCancel => true
  | _ => false
  end.

(** A result that [executeStep] returned for the step of an id. *)
Definition executed (id : string) (r : StepResult) : Prop :=
  ID r = id ∧ (Status r = "failed" ∨ Status r = "success") ∧ 1 ≤ Attempt r ∧
  (Status r = "success" → ExitCode r = 0 ∧ Error r = "").

(** What [results] holds, and for which ids. *)
Record res_inv (p : Plan.Plan) (s : state) : Prop := mkResInv {
  ri_final : ∀ id r, results s !! id = Some r →
    r = dependency_skip id ∨ (r = cancelled_skip id ∧ cancelled s = true) ∨ executed id r;
  ri_store : ∀ i id r, Plan.Order p !! i = Some id →
    tasks s !! i = Some (AtStore r) → executed id r;
  ri_owner : ∀ id, is_Some (results s !! id) →
    ∃ i c, Plan.Order p !! i = Some id ∧ tasks s !! i = Some c ∧ recorded c = true
}.

(** Where the skips for a failed dependency and the cancellation of
    fail-fast come from: an id in [failedSteps]. *)
Record skip_inv (p : Plan.Plan) (s : state) : Prop := mkSkipInv {
  si_skip : ∀ i, tasks s !! i = Some AtSkip → ∃ d, is_failed s d = true;
  si_result : ∀ id, results s !! id = Some (dependency_skip id) →
    ∃ d, is_failed s d = true;
  si_cancel : ∀ i id, Plan.Order p !! i = Some id → tasks s !! i = Some AtCancel →
    is_failed s id = true
}.

(** A goroutine past its polling loop has all its dependencies recorded. *)
Definition dep_inv (p : Plan.Plan) (s : state) : Prop :=
  ∀ i id step c, Plan.Order p !! i = Some id → stepMap (Plan.Steps p) !! id = Some step →
    tasks s !! i = Some c → past_poll c = true →
    ∀ d, d ∈ Plan.Deps step → is_Some (results s !! d).

(** *** Goroutines that cannot go on *)

(** With no slot to take, a goroutine stays at the semaphore until the
    cancellation lets it return. *)
Definition idle (s : state) : Prop :=
  Forall (λ c, c = AtAcquire ∨ c = AtDone) (tasks s) ∧
  (∀ i, tasks s !! i = Some AtDone → cancelled s = true) ∧
  (∀ id r, results s !! id = Some r → r = cancelled_skip id).

(** Where a goroutine can be when it never gets past the polling loop. *)
Definition waiting (i : nat) (s : state) : Prop :=
  tasks s !! i = Some AtAcquire ∨ tasks s !! i = Some AtPoll ∨
  tasks s !! i = Some AtSleep ∨ (tasks s !! i = Some AtDone ∧ cancelled s = true).

(** The goroutines of [J] have taken every slot and wait for their
    dependencies; no step has a result. *)
Definition starved (p : Plan.Plan) (J : list nat) (s : state) : Prop :=
  results s = ∅ ∧ cancelled s = false ∧ sem s = Z.of_nat (length J) ∧
  length (tasks s) = length (Plan.Order p) ∧
  ∀ i c, tasks s !! i = Some c →
    if decide (i ∈ J) then c = AtPoll ∨ c = AtSleep else c = AtAcquire.

(** *** Enough slots *)

(** How far a goroutine is from its return. *)
Definition steps_left (c : pc) : nat :=
  match c with
  | AtAcquire | AtSleep => 8
  | AtPoll => 7
  | AtCheck => 6
  | AtRun => 5
  | AtStore _ => 4
  | AtTrack _ => 3
  | AtCancel => 2
  | AtSkip => 1
  | AtDone => 0
  end.

(** Every id of the order has its step, and the dependencies of the step
    come earlier in the order. *)
Definition ordered_plan (p : Plan.Plan) : Prop :=
  ∀ i id, Plan.Order p !! i = Some id →
    ∃ step, stepMap (Plan.Steps p) !! id = Some step ∧
      ∀ d, d ∈ Plan.Deps step → ∃ k, (k < i)%nat ∧ Plan.Order p !! k = Some d.

(** The step of an id has dependencies. *)
Definition has_deps (p : Plan.Plan) (id : string) : bool :=
  match stepMap (Plan.Steps p) !! id with
  | Some step => negb (bool_decide (Plan.Deps step = []))
  | None => false
  end.

(** The ids of the order whose step has dependencies. *)
Definition dependents (p : Plan.Plan) : list string :=
  List.filter (has_deps p) (Plan.Order p).

(** Every goroutine that holds a slot is polling for the dependencies of a
    step that has some. *)
Definition settled (p : Plan.Plan) (s : state) : Prop :=
  ∀ i c id, tasks s !! i = Some c → Plan.Order p !! i = Some id →
    c = AtAcquire ∨ c = AtDone ∨ ((c = AtPoll ∨ c = AtSleep) ∧ has_deps p id = true).

(** *** A goroutine that goes through

    [through sys opts i id step s]: goroutine [i], of id [id], is past its
    last poll and on its way to [executeStep], in it, or has recorded
    what it returned. *)
Definition through {W : Type} (sys : Sys W) (opts : Options)
    (i : nat) (id : string) (step : Step) (s : state) : Prop :=
  ((tasks s !! i = Some AtPoll ∨ tasks s !! i = Some AtCheck ∨ tasks s !! i = Some AtRun) ∧
   results s !! id = None) ∨
  (∃ w, tasks s !! i = Some (AtStore (executeStep sys step opts w).1) ∧
        results s !! id = None) ∨
  (∃ w, (tasks s !! i = Some (AtTrack (executeStep sys step opts w).1) ∨
         tasks s !! i = Some AtCancel ∨ tasks s !! i = Some AtDone) ∧
        results s !! id = Some (executeStep sys step opts w).1).

(** Every dependency of [step] has a result, and none a failed one. *)
Definition settled_deps (step : Step) (s : state) : Prop :=
  ∀ d, d ∈ Plan.Deps step → ∃ r, results s !! d = Some r ∧ Status r ≠ "failed".

(** *** A scripted world

    A concrete world for the examples. The context is cancelled once the
    clock reaches [cancel_at]; the command runs exit with the codes of
    [exits], in turn, each taking one millisecond; [ran] records the
    commands handed to [cmd.Run()]. *)
Record script : Type := mkScript {
  clock : Z;
  cancel_at : option Z;
  exits : list Z;
  ran : list Cmd
}.

Definition script_done (w : script) : bool :=
  match cancel_at w with
  | Some t => bool_decide (t ≤ clock w)
  | None => false
  end.

(** [time.ParseDuration]. *)
Definition script_ParseDuration (s : string) : result string Z := Time.ParseDuration s.

Definition script_Run (cmd : Cmd) (w : script) : run_outcome * script :=
  let clock' := clock w + 1000000 in
  if script_done w
  then (RunFail "context canceled", mkScript (clock w) (cancel_at w) (exits w) (ran w))
  else
    match exits w with
    | [] => (RunOk, mkScript clock' (cancel_at w) [] (ran w ++ [cmd]))
    | code :: rest =>
        (if decide (code = 0) then RunOk else RunExit code ("exit status " +:+ pretty code)%string,
         mkScript clock' (cancel_at w) rest (ran w ++ [cmd]))
    end.

Definition script_pause (w : script) : script :=
  if script_done w then w
  else
    let wake := clock w + 100000000 in
    let wake := match cancel_at w with
                | Some t => Z.min t wake
                | None => wake
                end in
    mkScript wake (cancel_at w) (exits w) (ran w).

Definition script_sys : Sys script :=
  mkSys script clock script_done script_ParseDuration
        (λ dir file, (dir +:+ "/" +:+ file)%string)
        (λ _ w, (None, w)) script_Run script_pause.

Definition script_start (exits : list Z) : script := mkScript 0 None exits [].

(** *** The plan of [TestExecute_DependencySkip]

    A step that fails and a step that depends on it, with some
    interleavings of [Execute] on that plan. *)
Definition failing : Step :=
  Plan.mkPlanStep "failing" "shell" ["false"] [] ∅ "" 0.
Definition dependent : Step :=
  Plan.mkPlanStep "dependent" "shell" ["echo"; "dependent"] ["failing"] ∅ "" 0.
Definition skip_plan : Plan.Plan :=
  Plan.mkPlan 1 "test" "default" "abc123" "2024-01-01T00:00:00Z"
              [failing; dependent] ["failing"; "dependent"].

Definition skip_opts (jobs : Z) (failFast : bool) : Options :=
  mkOptions "" 10000000000 jobs failFast.

(** The command of [failing] exits with status 1. *)
Definition false_world : script := script_start [1].

(** [failing] runs and fails; [dependent], which was sleeping between two
    polls, then polls again, finds the failure and records the skip. *)
Definition skip_trace : list (action (W := script)) :=
  [AAcquire 0; AAcquire 1; APoll 0; ACheck 0; APoll 1; ARun 0 false_world;
   AStore 0; ATrack 0; ACancel 0; AWake 1; APoll 1; ACheck 1; ASkip 1].

(** The same, with [dependent] woken by the cancellation that fail-fast
    sends when [failing] has failed. *)
Definition failfast_trace : list (action (W := script)) :=
  [AAcquire 0; AAcquire 1; APoll 0; ACheck 0; APoll 1; ARun 0 false_world;
   AStore 0; ATrack 0; ACancel 0; ASleepCancelled 1].

(** [dependent] polls between the write of the result of [failing] and
    the write of [failedSteps]. *)
Definition race_trace : list (action (W := script)) :=
  [AAcquire 0; AAcquire 1; APoll 0; ACheck 0; APoll 1; ARun 0 false_world;
   AStore 0; AWake 1; APoll 1; ACheck 1].

(** With one slot, [dependent] takes it first. *)
Definition starve_trace : list (action (W := script)) :=
  [AAcquire 1; APoll 1].

(** A third step, depending on the skipped one. *)
Definition report : Step :=
  Plan.mkPlanStep "report" "shell" ["echo"; "report"] ["dependent"] ∅ "" 0.
Definition cascade_plan : Plan.Plan :=
  Plan.mkPlan 1 "test" "default" "abc123" "2024-01-01T00:00:00Z"
              [failing; dependent; report] ["failing"; "dependent"; "report"].

(** [failing] fails, [dependent] is skipped for it, and [report] finds
    its only dependency recorded. *)
Definition cascade_trace : list (action (W := script)) :=
  [AAcquire 0; AAcquire 1; AAcquire 2; APoll 0; ACheck 0; ARun 0 false_world;
   AStore 0; ATrack 0; ACancel 0; APoll 1; ACheck 1; ASkip 1; APoll 2].

(** Both commands succeed, one step after the other. *)
Definition ok_world : script := script_start [].
Definition ok_trace : list (action (W := script)) :=
  [AAcquire 0; APoll 0; ACheck 0; ARun 0 ok_world; AStore 0; ATrack 0;
   AAcquire 1; APoll 1; ACheck 1; ARun 1 ok_world; AStore 1; ATrack 1].

(** A plan whose order leaves out the dependency of its only id. *)
Definition dangling_plan : Plan.Plan :=
  Plan.mkPlan 1 "test" "default" "abc123" "2024-01-01T00:00:00Z"
              [failing; dependent] ["dependent"].

(** A step whose timeout is no duration. *)
Definition hasty : Step :=
  Plan.mkPlanStep "hasty" "shell" ["sleep"; "1"] [] ∅ "soon" 2.

(** The context of the run is cancelled from the start, and the world
    hands out nothing. *)
Definition cancelled_world : script := mkScript 0 (Some 0) [] [].

(** The caller cancels; [failing] is still waiting for a slot and takes
    the cancellation; [dependent] gets a slot all the same and finds its
    dependency recorded. *)
Definition cancel_trace : list (action (W := script)) :=
  [ACallerCancel; AAcquireCancelled 0; AAcquire 1; APoll 1; ACheck 1;
   ARun 1 cancelled_world; AStore 1; ATrack 1; ACancel 1].

(** The state a trace leads to from the start ([init p] if it is not a
    run of [p]). *)
Definition state_after (p : Plan.Plan) (opts : Options)
    (acts : list (action (W := script))) : state :=
  default (init p) (run script_sys p opts acts (init p)).

End Exec.

(** ** Command anvil

    What [cmdPlan] and [cmdRun] do between the parsing of their flags and
    the writing of the plan: they load the configuration, resolve the
    profile, check the steps against the policy and build the plan. Each
    failure ends the command with [os.Exit(1)]. Logging and printing are
    left out. *)

Module Main.

(** What the commands ask of their environment. *)
Record Env (W : Type) : Type := mkEnv {
  os_ReadFile : string → W → result string (list byte) * W;
  yaml_Decode : list byte → result string Config.Config;
  range_Profiles : gmap string Config.Profile → list (string * Config.Profile);
  time_Now : W → string   (* [time.Now().UTC().Format(time.RFC3339)] *)
}.
Arguments os_ReadFile {W} _ _ _.
Arguments yaml_Decode {W} _ _.
Arguments range_Profiles {W} _ _.
Arguments time_Now {W} _ _.

(** The calls of [os.Exit(1)], by the message logged before. *)
Inductive exit : Type :=
| ExitLoad (e : Config.load_error)     (* "failed to load config" *)
| ExitResolve (e : Config.error)       (* "failed to resolve profile" *)
| ExitRead (e : Config.load_error)     (* "failed to read config bytes" *)
| ExitPolicy (e : Policy.error)        (* "policy violation" *)
| ExitBuild (e : Plan.error).          (* "failed to build plan" *)

Section commands.
Context {W : Type} (env : Env W).

(** [func loadAndResolve(configPath, profileName string)]. *)
Definition loadAndResolve (configPath profileName : string) (w : W)
    : option (result exit (Config.Config * list Config.Step * list byte)) * W :=
  match Config.Load (os_ReadFile env) (yaml_Decode env) (range_Profiles env) configPath w with
  | (None, w1) => (None, w1)
  | (Some (Err e), w1) => (Some (Err (ExitLoad e)), w1)
  | (Some (Ok cfg), w1) =>
      match Config.ResolveProfile (Some cfg) profileName with
      | None => (None, w1)
      | Some (Err e) => (Some (Err (ExitResolve e)), w1)
      | Some (Ok steps) =>
          match Config.RawBytes (os_ReadFile env) configPath w1 with
          | (Err e, w2) => (Some (Err (ExitRead e)), w2)
          | (Ok configData, w2) => (Some (Ok (cfg, steps, configData)), w2)
          end
      end
  end.

(** [for _, s := range steps] with [cfg.Policy.ValidateStep(s.Type, s.ID)]:
    the first violation. *)
Fixpoint policy_violation (policy : Policy.Policy) (steps : list Config.Step)
    : option Policy.error :=
  match steps with
  | [] => None
  | s :: steps' =>
      match Policy.ValidateStep policy (Config.Type_ s) (Config.ID s) with
      | Some e => Some e
      | None => policy_violation policy steps'
      end
  end.

(** [cmdPlan] and [cmdRun] from [loadAndResolve] to [plan.Build]: the plan
    they go on with, or the exit. *)
Definition planned (configPath profileName : string) (w : W)
    : option (result exit Plan.Plan) * W :=
  match loadAndResolve configPath profileName w with
  | (None, w1) => (None, w1)
  | (Some (Err e), w1) => (Some (Err e), w1)
  | (Some (Ok (cfg, steps, configData)), w1) =>
      match policy_violation (Config.Policy_ cfg) steps with
      | Some e => (Some (Err (ExitPolicy e)), w1)
      | None =>
          match Plan.Build (time_Now env w1) (Config.Name (Config.Project_ cfg))
                           profileName steps configData with
          | None => (None, w1)
          | Some (Err e) => (Some (Err (ExitBuild e)), w1)
          | Some (Ok p) => (Some (Ok p), w1)
          end
      end
  end.

End commands.

(** *** A file system with one file

    The world is the content of the configuration file, if it exists; its
    decoding is fixed to the configuration above. *)
Definition one_file (path : string) (w : option (list byte))
    : result string (list byte) * option (list byte) :=
  match w with
  | Some data => (Ok data, w)
  | None => (Err ("open " +:+ path +:+ ": no such file or directory")%string, w)
  end.

Definition readme_env : Env (option (list byte)) :=
  mkEnv _ one_file (λ _, Ok Config.readme_config) map_to_list (λ _, "2024-01-01T00:00:00Z").

End Main.

(** ** The duration parser *)

Section duration_theorems.
Import Time.

Lemma leadingInt_length s : ∀ x v s1,
  leadingInt x s = Some (v, s1) → (String.length s1 ≤ String.length s)%nat.
Proof.
  induction s as [|c s IH]; intros x v s1; simpl.
  - by intros [= _ <-].
  - destruct (is_digit c); [|by intros [= _ <-]].
    destruct (decide _); [done|]. destruct (decide _); [done|].
    intros Hs%IH. lia.
Qed.

Lemma leadingFraction_length s : ∀ x scale overflow,
  (String.length (leadingFraction x scale overflow s).2 ≤ String.length s)%nat.
Proof.
  induction s as [|c s IH]; intros x scale overflow; simpl; [done|].
  destruct (is_digit c); [|simpl; lia].
  destruct overflow; [specialize (IH x scale true); lia|].
  destruct (decide _); [specialize (IH x scale true); lia|].
  destruct (decide _); [specialize (IH x scale true); lia|].
  specialize (IH (x * 10 + code c - 48) (scale * 10) false). lia.
Qed.

Lemma unit_span_length s : ∀ u rest,
  unit_span s = (u, rest) → String.length s = (String.length u + String.length rest)%nat.
Proof.
  induction s as [|c s IH]; intros u rest; simpl.
  - by intros [= <- <-].
  - destruct (is_number c); [by intros [= <- <-]|].
    destruct (unit_span s) as [u' rest'] eqn:Hspan. intros [= <- <-].
    simpl. by rewrite (IH u' rest').
Qed.

(** The passes of [ParseDuration] never run out of fuel: each takes a
    character at least off the string. *)
Lemma segments_fuel orig fuel : ∀ fuel' s d,
  (String.length s ≤ fuel)%nat → (fuel ≤ fuel')%nat →
  segments fuel' orig s d = segments fuel orig s d.
Proof.
  induction fuel as [|fuel IH]; intros fuel' s d Hs Hfuel.
  { destruct s; [by destruct fuel'|simpl in Hs; lia]. }
  destruct fuel' as [|fuel']; [lia|].
  destruct s as [|c s]; [done|]. cbn [segments].
  destruct (negb (is_number c)); [done|].
  destruct (leadingInt 0 (String c s)) as [[v s1]|] eqn:Hint; [|done].
  apply leadingInt_length in Hint.
  set (parts := match s1 with
                | EmptyString => (0, 1, s1, false)
                | String c1 s1' =>
                    if bool_decide (code c1 = 46)
                    then let '(f, scale, s2) := leadingFraction 0 1 false s1' in
                         (f, scale, s2,
                          negb (bool_decide (String.length s1' = String.length s2)))
                    else (0, 1, s1, false)
                end).
  assert (Hparts : (String.length parts.1.2 ≤ String.length s1)%nat).
  { subst parts. destruct s1 as [|c1 s1']; [done|].
    destruct (bool_decide _); [|done].
    pose proof (leadingFraction_length s1' 0 1 false) as Hlen.
    destruct (leadingFraction 0 1 false s1') as [[f scale] s2]. simpl in *. lia. }
  destruct parts as [[[f scale] s2] post]. simpl in Hparts.
  destruct (_ && _); [done|].
  destruct (unit_span s2) as [u s3] eqn:Hspan. apply unit_span_length in Hspan.
  destruct (decide (u = "")) as [|Hu]; [done|].
  destruct (unitMap u) as [unit|]; [|done].
  assert (0 < String.length u)%nat by (destruct u; [done|simpl; lia]).
  repeat case_decide; try done; (apply IH; [simpl in *; lia|lia]).
Qed.

End duration_theorems.

(** ** Properties of the planner *)

Section planner_index.
Import Plan.

Lemma elem_of_edges steps d s : (d, s) ∈ edges steps ↔ depends steps d s.
Proof.
  unfold edges, depends. rewrite list_elem_of_bind. split.
  - intros (st & Hin & Hst). apply list_elem_of_fmap in Hin as (d' & Heq & Hd).
    simplify_eq. eauto.
  - intros (st & Hst & <- & Hd). exists st. split; [|done].
    apply list_elem_of_fmap. eauto.
Qed.

Lemma edges_snoc steps st :
  edges (steps ++ [st]) = edges steps ++ ((λ d, (d, ID st)) <$> Deps st).
Proof. unfold edges. rewrite bind_app. simpl. by rewrite app_nil_r. Qed.

Lemma depends_target_id steps d s : depends steps d s → s ∈ ids steps.
Proof.
  intros (st & Hst & <- & _). unfold ids. apply list_elem_of_fmap. eauto.
Qed.

Lemma into_cons d s E n :
  into ((d, s) :: E) n = ((if decide (s = n) then 1 else 0) + into E n)%nat.
Proof. unfold into. rewrite filter_cons. simpl. by destruct (decide (s = n)). Qed.

Lemma out_of_cons d' s E d :
  out_of ((d', s) :: E) d = (if decide (d' = d) then [s] else []) ++ out_of E d.
Proof. unfold out_of. rewrite filter_cons. simpl. by destruct (decide (d' = d)). Qed.

Lemma add_dep_fold id deps indeg adjl :
  ∃ indeg' adjl',
    fold_left (add_dep id) deps (indeg, adjl) = (indeg', adjl') ∧
    (∀ n, deg indeg' n = deg indeg n + Z.of_nat (into ((λ d, (d, id)) <$> deps) n)) ∧
    (∀ d, adj adjl' d = adj adjl d ++ out_of ((λ d, (d, id)) <$> deps) d).
Proof.
  revert indeg adjl. induction deps as [|dep deps IH]; intros indeg adjl.
  - exists indeg, adjl. split; [done|]. unfold into, out_of. simpl.
    split; [intros; lia|]. intros. by rewrite app_nil_r.
  - simpl fold_left.
    destruct (IH (<[id := deg indeg id + 1]> indeg) (<[dep := adj adjl dep ++ [id]]> adjl))
      as (indeg' & adjl' & Hf & Hdeg & Hadj).
    exists indeg', adjl'. split; [done|]. split.
    + intros n. rewrite Hdeg, fmap_cons, into_cons. unfold deg at 1.
      destruct (decide (id = n)) as [->|Hne].
      * rewrite lookup_insert_eq. simpl. lia.
      * rewrite lookup_insert_ne by done. fold (deg indeg n). lia.
    + intros d. rewrite Hadj, fmap_cons, out_of_cons. unfold adj at 1.
      destruct (decide (dep = d)) as [->|Hne].
      * rewrite lookup_insert_eq. simpl. by rewrite <- app_assoc.
      * rewrite lookup_insert_ne by done. done.
Qed.

Lemma into_app E1 E2 n : into (E1 ++ E2) n = (into E1 n + into E2 n)%nat.
Proof. unfold into. by rewrite filter_app, length_app. Qed.

Lemma out_of_app E1 E2 d : out_of (E1 ++ E2) d = out_of E1 d ++ out_of E2 d.
Proof. unfold out_of. by rewrite filter_app, fmap_app. Qed.

(** What the first loop of [TopologicalSort] leaves in its three maps. *)
Lemma build_index_spec steps :
  let ix := build_index steps in
  (∀ n, is_Some (stepMap ix !! n) ↔ n ∈ ids steps) ∧
  (∀ n, deg (inDegree ix) n = Z.of_nat (into (edges steps) n)) ∧
  (∀ d, adj (adjList ix) d = out_of (edges steps) d).
Proof.
  unfold build_index. induction steps as [|st steps IH] using rev_ind.
  - simpl. split; [|split].
    + intros n. rewrite lookup_empty. split; [by intros [? ?]|]. by intros ?%elem_of_nil.
    + done.
    + done.
  - rewrite fold_left_app. simpl.
    set (ix := fold_left add_step steps _) in *. destruct IH as (Hsm & Hdeg & Hadj).
    unfold add_step.
    set (indeg0 := match inDegree ix !! ID st with Some _ => inDegree ix | None => _ end).
    assert (Hdeg0 : ∀ n, deg indeg0 n = deg (inDegree ix) n).
    { intros n. unfold indeg0, deg. destruct (inDegree ix !! ID st) eqn:Hl; [done|].
      destruct (decide (ID st = n)) as [<-|Hne].
      - by rewrite lookup_insert_eq, Hl.
      - by rewrite lookup_insert_ne. }
    destruct (add_dep_fold (ID st) (Deps st) indeg0 (adjList ix))
      as (indeg' & adjl' & -> & Hdeg' & Hadj').
    simpl. rewrite edges_snoc. split; [|split].
    + intros n. unfold ids. rewrite fmap_app, elem_of_app. simpl.
      rewrite list_elem_of_singleton. destruct (decide (ID st = n)) as [<-|Hne].
      * rewrite lookup_insert_eq. split; eauto.
      * rewrite lookup_insert_ne by done. rewrite Hsm. unfold ids.
        split; [auto | by intros [?|?]].
    + intros n. rewrite Hdeg', Hdeg0, Hdeg, into_app. lia.
    + intros d. by rewrite Hadj', Hadj, out_of_app.
Qed.

End planner_index.

(** *** The main loop of [TopologicalSort] *)

Section planner_loop.
Import Plan.
Variable steps : list PlanStep.

Lemma cnt_cons n x l : cnt n (x :: l) = ((if decide (n = x) then 1 else 0) + cnt n l)%nat.
Proof. unfold cnt. rewrite filter_cons. by destruct (decide (n = x)). Qed.

Lemma cnt_app n l1 l2 : cnt n (l1 ++ l2) = (cnt n l1 + cnt n l2)%nat.
Proof. unfold cnt. by rewrite filter_app, length_app. Qed.

Lemma cnt_perm n l1 l2 : l1 ≡ₚ l2 → cnt n l1 = cnt n l2.
Proof. intros H. unfold cnt. by rewrite H. Qed.

Lemma cnt_pos n l : (0 < cnt n l)%nat → n ∈ l.
Proof.
  induction l as [|x l IH]; [unfold cnt; simpl; lia|].
  rewrite cnt_cons. destruct (decide (n = x)) as [->|]; [left|right; apply IH; lia].
Qed.

Lemma pend_in_cons d s E order n :
  pend_in ((d, s) :: E) order n =
  ((if decide (s = n ∧ d ∉ order) then 1 else 0) + pend_in E order n)%nat.
Proof. unfold pend_in. rewrite filter_cons. simpl. by destruct (decide _). Qed.

Lemma pend_in_nil_order E n : pend_in E [] n = into E n.
Proof.
  induction E as [|[d s] E IH]; [done|].
  rewrite pend_in_cons, into_cons, IH.
  destruct (decide (s = n)) as [->|]; destruct (decide _) as [[? Hd]|Hd]; try done.
  exfalso. apply Hd. split; [done|]. apply not_elem_of_nil.
Qed.

Lemma pend_in_zero E order n :
  pend_in E order n = 0%nat ↔ ∀ d, (d, n) ∈ E → d ∈ order.
Proof.
  induction E as [|[d s] E IH].
  - split; [|done]. by intros _ d ?%elem_of_nil.
  - rewrite pend_in_cons. destruct (decide _) as [[-> Hd]|Hd]; simpl.
    + split; [lia|]. intros H. exfalso. apply Hd, H. left.
    + rewrite IH. split.
      * intros H d' [Heq|Hin]%elem_of_cons; [|by apply H]. simplify_eq.
        destruct (decide (d ∈ order)); [done|]. exfalso. by apply Hd.
      * intros H d' Hin. apply H. by right.
Qed.

Lemma pend_zero order n :
  pend steps order n = 0%nat ↔ ∀ d, depends steps d n → d ∈ order.
Proof.
  unfold pend. rewrite pend_in_zero. by setoid_rewrite elem_of_edges.
Qed.

(** Appending a fresh id [c] to the order moves its out-edges from the
    pending count to the list of neighbours still to be decremented. *)
Lemma pend_in_snoc E order c n :
  c ∉ order →
  pend_in E order n = (pend_in E (order ++ [c]) n + cnt n (out_of E c))%nat.
Proof.
  intros Hc. induction E as [|[d s] E IH]; [done|].
  rewrite !pend_in_cons, out_of_cons, cnt_app, IH.
  destruct (decide (d = c)) as [->|Hne]; rewrite ?cnt_cons; unfold cnt at 2; simpl;
    repeat case_decide; simpl; first [lia | exfalso; set_solver].
Qed.

Lemma slices_Sort_perm l : slices_Sort l ≡ₚ l.
Proof. apply merge_sort_Permutation. Qed.

Lemma slices_Sort_sorted l : StronglySorted String.le (slices_Sort l).
Proof. apply StronglySorted_merge_sort; apply _. Qed.

Lemma snoc_split {A} (l l1 l2 : list A) (c n : A) :
  l ++ [c] = l1 ++ n :: l2 →
  (l1 = l ∧ n = c ∧ l2 = []) ∨ (∃ l2', l2 = l2' ++ [c] ∧ l = l1 ++ n :: l2').
Proof.
  destruct l2 as [|z l2 _] using rev_ind.
  - intros H. left. by apply app_inj_tail in H as [-> ->].
  - intros H. right. exists l2.
    rewrite app_comm_cons, app_assoc in H. by apply app_inj_tail in H as [-> ->].
Qed.

Lemma inv_init :
  let ix := build_index steps in
  inv steps (inDegree ix) (initial_ready ix) [] [].
Proof.
  intros ix. destruct (build_index_spec steps) as (Hsm & Hdeg & _). fold ix in Hsm, Hdeg.
  assert (Hkeys : ∀ n, n ∈ (map_to_list (stepMap ix)).*1 ↔ n ∈ ids steps).
  { intros n. rewrite <- Hsm. rewrite list_elem_of_fmap. split.
    - intros ([k v] & -> & Hin). apply elem_of_map_to_list in Hin. eauto.
    - intros [v Hv]. exists (n, v). split; [done|]. by apply elem_of_map_to_list. }
  split.
  - simpl. unfold initial_ready. rewrite slices_Sort_perm.
    apply NoDup_filter, NoDup_fst_map_to_list.
  - intros n. rewrite Hdeg. unfold pend. rewrite pend_in_nil_order. unfold cnt. simpl. lia.
  - intros n. simpl. unfold initial_ready. rewrite slices_Sort_perm.
    rewrite list_elem_of_filter, Hkeys. tauto.
  - intros l1 n l2 H. by destruct l1.
  - intros l1 n l2 H. by destruct l1.
  - apply slices_Sort_sorted.
  - by intros n ?%elem_of_nil.
Qed.

(** Popping the head of [ready] and appending it to [order]. *)
Lemma inv_pop indeg current ready order :
  inv steps indeg (current :: ready) order [] →
  inv steps indeg ready (order ++ [current])
      (slices_Sort (adj (adjList (build_index steps)) current)).
Proof.
  intros [Hnd Hdeg Hmem Hvalid Hleast Hsorted _].
  destruct (build_index_spec steps) as (_ & _ & Hadj). rewrite Hadj.
  assert (Hc : current ∉ order).
  { apply NoDup_app in Hnd as (_ & Hdis & _). intros Hin. apply (Hdis _ Hin). left. }
  assert (Hzero : ∀ y, y ∈ ids steps → pend steps order y = 0%nat → y ∈ order ++ current :: ready).
  { intros y Hy Hp. apply Hmem. split; [done|]. rewrite Hdeg, Hp. unfold cnt. simpl. lia. }
  assert (Hcdeps : ∀ d, depends steps d current → d ∈ order).
  { apply pend_zero. assert (current ∈ order ++ current :: ready) as Hin by set_solver.
    apply Hmem in Hin as [_ Hin]. rewrite Hdeg in Hin. unfold cnt in Hin. simpl in Hin. lia. }
  split.
  - rewrite <- app_assoc. done.
  - intros n. rewrite Hdeg. unfold cnt at 1. simpl.
    rewrite (cnt_perm _ _ _ (slices_Sort_perm _)).
    unfold pend. rewrite (pend_in_snoc _ order current n Hc). lia.
  - intros n. rewrite <- Hmem, <- app_assoc. done.
  - intros l1 n l2 [(-> & -> & ->)|(l2' & -> & ->)]%snoc_split; [done|].
    by eapply Hvalid.
  - intros l1 x l2 [(-> & -> & ->)|(l2' & -> & ->)]%snoc_split; [|by eapply Hleast].
    intros y Hy Hny Hdeps.
    specialize (Hzero y Hy (proj2 (pend_zero _ _) Hdeps)).
    apply elem_of_app in Hzero as [?|Hin]; [done|].
    apply elem_of_cons in Hin as [->|Hin]; [done|].
    apply StronglySorted_inv in Hsorted as [_ Hall].
    by eapply Forall_forall in Hall.
  - by apply StronglySorted_inv in Hsorted as [? _].
  - intros n Hn. rewrite slices_Sort_perm in Hn. unfold out_of in Hn.
    apply list_elem_of_fmap in Hn as ([d s] & -> & Hin).
    apply list_elem_of_filter in Hin as [_ Hin].
    apply elem_of_edges in Hin. by eapply depends_target_id.
Qed.

(** The inner loop over the neighbours. *)
Lemma inv_relax rem indeg ready order indeg' ready' :
  inv steps indeg ready order rem →
  relax rem indeg ready = (indeg', ready') →
  inv steps indeg' ready' order [].
Proof.
  revert indeg ready. induction rem as [|nb rem IH]; intros indeg ready Hinv Hrel.
  { simpl in Hrel. by simplify_eq. }
  simpl in Hrel. destruct Hinv as [Hnd Hdeg Hmem Hvalid Hleast Hsorted Hrem].
  set (d := deg indeg nb - 1) in *.
  assert (Hd : d = Z.of_nat (pend steps order nb) + Z.of_nat (cnt nb rem)).
  { unfold d. rewrite Hdeg, cnt_cons. rewrite decide_True by done. lia. }
  assert (Hfresh : nb ∉ order ++ ready).
  { intros [_ Hz]%Hmem. lia. }
  assert (Hdeg' : ∀ n, deg (<[nb := d]> indeg) n
                       = Z.of_nat (pend steps order n) + Z.of_nat (cnt n rem)).
  { intros n. unfold deg. destruct (decide (nb = n)) as [<-|Hne].
    - by rewrite lookup_insert_eq.
    - rewrite lookup_insert_ne by done. fold (deg indeg n).
      rewrite Hdeg, cnt_cons. rewrite decide_False by done. lia. }
  assert (Hother : ∀ n, n ≠ nb → deg (<[nb := d]> indeg) n = deg indeg n).
  { intros n Hne. unfold deg. by rewrite lookup_insert_ne. }
  assert (Hnb : deg (<[nb := d]> indeg) nb = d).
  { unfold deg. by rewrite lookup_insert_eq. }
  destruct (decide (d = 0)) as [Hz|Hnz]; eapply IH; try exact Hrel; split; try done.
  - rewrite slices_Sort_perm, app_assoc. apply NoDup_app. split; [done|].
    split; [|apply NoDup_singleton]. intros x Hx ->%list_elem_of_singleton. done.
  - intros n. rewrite slices_Sort_perm, app_assoc, elem_of_app, list_elem_of_singleton.
    destruct (decide (n = nb)) as [->|Hne].
    + rewrite Hnb. split; [|auto]. intros _. split; [|done]. apply Hrem. left.
    + rewrite Hother, <- Hmem by done. tauto.
  - apply slices_Sort_sorted.
  - intros n Hn. apply Hrem. by right.
  - intros n. destruct (decide (n = nb)) as [->|Hne].
    + rewrite Hnb. split; [done|]. by intros [_ ?].
    + rewrite Hother by done. apply Hmem.
  - intros n Hn. apply Hrem. by right.
Qed.

Lemma inv_bound indeg ready order rem :
  inv steps indeg ready order rem → (length order + length ready ≤ length steps)%nat.
Proof.
  intros Hinv. rewrite <- length_app.
  replace (length steps) with (length (ids steps)) by apply length_fmap.
  apply submseteq_length, NoDup_submseteq; [apply Hinv|].
  intros n Hn. by apply (inv_mem _ _ _ _ _ Hinv).
Qed.

(** The outer loop: with fuel for every step still unordered it runs to
    the end, and the invariant holds of what it returns. *)
Lemma drain_inv fuel indeg ready order :
  inv steps indeg ready order [] →
  (length steps ≤ length order + fuel)%nat →
  ∃ res indeg',
    drain fuel (adjList (build_index steps)) indeg ready order = Some res ∧
    inv steps indeg' [] res [].
Proof.
  revert indeg ready order. induction fuel as [|fuel IH]; intros indeg ready order Hinv Hlen.
  - destruct ready as [|c ready]; [by exists order, indeg|].
    apply inv_bound in Hinv. simpl in Hinv. lia.
  - destruct ready as [|c ready]; [by exists order, indeg|].
    simpl. apply inv_pop in Hinv.
    destruct (relax _ indeg ready) as [indeg1 ready1] eqn:Hrel.
    eapply inv_relax in Hrel; [|done].
    apply IH; [done|]. rewrite length_app. simpl. lia.
Qed.

Lemma TopologicalSort_loop :
  ∃ res indeg',
    drain (length steps) (adjList (build_index steps)) (inDegree (build_index steps))
      (initial_ready (build_index steps)) [] = Some res ∧
    inv steps indeg' [] res [].
Proof. apply drain_inv; [apply inv_init|simpl; lia]. Qed.

(** What the invariant says of the final order. *)
Lemma inv_final_mem indeg res n :
  inv steps indeg [] res [] →
  n ∈ res ↔ n ∈ ids steps ∧ ∀ d, depends steps d n → d ∈ res.
Proof.
  intros Hinv. rewrite <- pend_zero.
  pose proof (inv_mem _ _ _ _ _ Hinv n) as Hm. rewrite app_nil_r in Hm. rewrite Hm.
  rewrite (inv_deg _ _ _ _ _ Hinv). unfold cnt. simpl. split; intros [? ?]; split; auto; lia.
Qed.

Lemma inv_final_nodup indeg res : inv steps indeg [] res [] → NoDup res.
Proof. intros Hinv. pose proof (inv_nodup _ _ _ _ _ Hinv) as H. by rewrite app_nil_r in H. Qed.

Lemma tc_depends_before indeg res a b :
  inv steps indeg [] res [] → tc (depends steps) a b →
  ∀ l1 l2, res = l1 ++ b :: l2 → a ∈ l1.
Proof.
  intros Hinv Htc. induction Htc as [a b Hab|a c b Hac Hcb IH]; intros l1 l2 Hres.
  - by eapply (inv_valid _ _ _ _ _ Hinv).
  - specialize (IH l1 l2 Hres). apply list_elem_of_split in IH as (k1 & k2 & ->).
    rewrite <- app_assoc in Hres. simpl in Hres.
    apply elem_of_app. left. by eapply (inv_valid _ _ _ _ _ Hinv).
Qed.

Lemma tc_depends_target a b : tc (depends steps) a b → b ∈ ids steps.
Proof.
  induction 1 as [a b Hab|]; [|done]. by eapply depends_target_id.
Qed.

(** An id on a dependency cycle is never ordered. *)
Lemma cycle_not_ordered indeg res x :
  inv steps indeg [] res [] → tc (depends steps) x x → x ∉ res.
Proof.
  intros Hinv Htc Hin. apply list_elem_of_split in Hin as (l1 & l2 & Hres).
  pose proof (tc_depends_before _ _ _ _ Hinv Htc _ _ Hres) as Hx.
  pose proof (inv_final_nodup _ _ Hinv) as Hnd. rewrite Hres in Hnd.
  apply NoDup_app in Hnd as (_ & Hdis & _). apply (Hdis _ Hx). left.
Qed.

(** With referential integrity and no cycle, every id is ordered. *)
Lemma acyclic_all_ordered indeg res :
  inv steps indeg [] res [] → resolved steps → acyclic steps →
  ∀ n, n ∈ ids steps → n ∈ res.
Proof.
  intros Hinv Hres Hacyc.
  set (R := flip (depends steps)).
  assert (Hflip : ∀ a b, tc R a b → tc (depends steps) b a).
  { induction 1 as [a b Hab|a c b Hac _ IH]; [by apply tc_once|].
    eapply tc_r; [exact IH|exact Hac]. }
  assert (Hfin : ∀ a b, tc R a b → b ∈ ids steps).
  { intros a b Hab.
    assert (∃ c, R c b) as [c (st & Hst & _ & Hd)]; [|by eapply Hres].
    induction Hab; eauto. }
  assert (Hsn : ∀ n, sn R n).
  { intros n. apply tc_finite_sn.
    - intros x Hx. by apply (Hacyc x), Hflip.
    - exists (ids steps). apply Hfin. }
  intros n. induction (Hsn n) as [n _ IH]. intros Hn.
  apply (inv_final_mem _ _ _ Hinv). split; [done|].
  intros d Hd. apply IH; [exact Hd|]. destruct Hd as (st & Hst & _ & Hd). by eapply Hres.
Qed.

End planner_loop.

(** *** [TopologicalSort] *)

Section planner_theorems.
Import Plan.

(** The main loop always runs to its end within [length steps] passes:
    [TopologicalSort] returns. *)
Lemma TopologicalSort_unfold steps :
  steps ≠ [] →
  ∃ res indeg,
    inv steps indeg [] res [] ∧
    TopologicalSort steps =
      Some (if decide (length res ≠ length steps)
            then Err (ErrCycle (length res) (length steps)) else Ok res).
Proof.
  intros Hne. destruct (TopologicalSort_loop steps) as (res & indeg & Hdrain & Hinv).
  exists res, indeg. split; [done|]. unfold TopologicalSort.
  rewrite decide_False by (by destruct steps). simpl. rewrite Hdrain.
  by destruct (decide _).
Qed.

Lemma TopologicalSort_returns steps : is_Some (TopologicalSort steps).
Proof.
  destruct steps as [|st steps]; [by eexists|].
  destruct (TopologicalSort_unfold (st :: steps)) as (res & indeg & _ & ->); [done|].
  by eexists.
Qed.

(** A successful sort returns an order for which the loop invariant holds. *)
Lemma TopologicalSort_Ok_inv steps order :
  TopologicalSort steps = Some (Ok order) →
  steps = [] ∧ order = [] ∨
  ∃ indeg, inv steps indeg [] order [] ∧ length order = length steps.
Proof.
  destruct steps as [|st steps]; [intros [= <-]; by left|].
  destruct (TopologicalSort_unfold (st :: steps)) as (res & indeg & Hinv & ->); [done|].
  destruct (decide _) as [|Hlen]; [done|]. intros [= <-]. right. exists indeg.
  split; [done|]. by apply dec_stable in Hlen.
Qed.

Lemma TopologicalSort_acyclic steps :
  NoDup (ids steps) → resolved steps → acyclic steps →
  ∃ order, TopologicalSort steps = Some (Ok order) ∧
           order ≡ₚ ids steps ∧ linearizes order steps.
Proof.
  intros Hnd Hres Hacyc. destruct steps as [|st steps].
  { exists []. split; [done|]. split; [done|]. by intros ?? ?%elem_of_nil. }
  destruct (TopologicalSort_unfold (st :: steps)) as (res & indeg & Hinv & ->); [done|].
  assert (Hperm : res ≡ₚ ids (st :: steps)).
  { apply NoDup_Permutation; [by eapply inv_final_nodup|done|].
    intros n. split; [by intros [? _]%(inv_final_mem _ _ _ _ Hinv)|].
    by apply (acyclic_all_ordered _ _ _ Hinv). }
  exists res. rewrite decide_False; last first.
  { intros Hlen. apply Hlen. rewrite Hperm. apply length_fmap. }
  split; [done|]. split; [done|].
  intros s d Hs Hd.
  assert (ID s ∈ res) as (l1 & l2 & Hsplit)%list_elem_of_split.
  { rewrite Hperm. by apply list_elem_of_fmap_2. }
  exists l1, l2. split; [done|].
  eapply (inv_valid _ _ _ _ _ Hinv); [done|]. by exists s.
Qed.

Lemma TopologicalSort_cycle steps :
  has_cycle steps →
  ∃ n, (n < length steps)%nat ∧
       TopologicalSort steps = Some (Err (ErrCycle n (length steps))).
Proof.
  intros [x Hx].
  assert (Hxid : x ∈ ids steps) by (by eapply tc_depends_target).
  assert (Hne : steps ≠ []) by (intros ->; by apply elem_of_nil in Hxid).
  destruct (TopologicalSort_unfold steps Hne) as (res & indeg & Hinv & ->).
  assert (Hlt : (length res < length steps)%nat).
  { pose proof (cycle_not_ordered _ _ _ _ Hinv Hx) as Hnot.
    assert (NoDup (x :: res)) as Hnd.
    { constructor; [done|]. by eapply inv_final_nodup. }
    apply NoDup_submseteq with (k := ids steps) in Hnd.
    - apply submseteq_length in Hnd. unfold ids in Hnd.
      rewrite length_fmap in Hnd. simpl in Hnd. lia.
    - intros n [->|Hn]%elem_of_cons; [done|].
      by apply (inv_final_mem _ _ _ _ Hinv) in Hn as [? _]. }
  exists (length res). split; [done|]. rewrite decide_True by lia. done.
Qed.

(** Lexicographic tie-breaking: the id at every position of the order is
    the least among the ids that are ready there. *)
Lemma TopologicalSort_least steps order l1 x l2 y :
  TopologicalSort steps = Some (Ok order) →
  order = l1 ++ x :: l2 →
  y ∈ ids steps → y ∉ l1 → (∀ d, depends steps d y → d ∈ l1) →
  String.le x y.
Proof.
  intros [[-> ->]|(indeg & Hinv & _)]%TopologicalSort_Ok_inv Horder.
  - by destruct l1.
  - by eapply (inv_least _ _ _ _ _ Hinv).
Qed.

(** ... and that id is itself ready there. *)
Lemma TopologicalSort_ready steps order l1 x l2 :
  TopologicalSort steps = Some (Ok order) →
  order = l1 ++ x :: l2 →
  x ∈ ids steps ∧ (x ∉ l1) ∧ (∀ d, depends steps d x → d ∈ l1).
Proof.
  intros [[-> ->]|(indeg & Hinv & _)]%TopologicalSort_Ok_inv Horder.
  - by destruct l1.
  - split; [|split].
    + apply (inv_final_mem _ _ _ _ Hinv). rewrite Horder. set_solver.
    + pose proof (inv_final_nodup _ _ _ Hinv) as Hnd. rewrite Horder in Hnd.
      apply NoDup_app in Hnd as (_ & Hdis & _). intros Hin. apply (Hdis _ Hin). left.
    + by eapply (inv_valid _ _ _ _ _ Hinv).
Qed.

(** The order is determined by the ids and the dependency relation: two
    lists that satisfy the final invariant for step lists with the same
    ids and the same dependencies are equal. *)
Lemma inv_final_unique steps1 steps2 indeg1 indeg2 o1 o2 :
  (∀ n, n ∈ ids steps1 ↔ n ∈ ids steps2) →
  (∀ d n, depends steps1 d n ↔ depends steps2 d n) →
  inv steps1 indeg1 [] o1 [] → inv steps2 indeg2 [] o2 [] → o1 = o2.
Proof.
  intros Hids Hdeps Hinv1 Hinv2.
  pose proof (inv_final_nodup _ _ _ Hinv1) as Hnd1.
  pose proof (inv_final_nodup _ _ _ Hinv2) as Hnd2.
  assert (Hgo : ∀ s1 s2 pre, o1 = pre ++ s1 → o2 = pre ++ s2 → s1 = s2);
    [|by apply (Hgo o1 o2 [])].
  assert (Hhead : ∀ stepsA stepsB indegA indegB oA oB pre x rest,
    (∀ n, n ∈ ids stepsA ↔ n ∈ ids stepsB) →
    (∀ d n, depends stepsA d n ↔ depends stepsB d n) →
    inv stepsA indegA [] oA [] → inv stepsB indegB [] oB [] →
    oA = pre ++ x :: rest →
    x ∈ ids stepsB ∧ (x ∉ pre) ∧ (∀ d, depends stepsB d x → d ∈ pre)).
  { intros stepsA stepsB indegA indegB oA oB pre x rest HidsAB HdepsAB HinvA HinvB HoA.
    split; [|split].
    - apply HidsAB. apply (inv_final_mem _ _ _ _ HinvA). rewrite HoA. set_solver.
    - pose proof (inv_final_nodup _ _ _ HinvA) as Hnd. rewrite HoA in Hnd.
      apply NoDup_app in Hnd as (_ & Hdis & _). intros Hin. apply (Hdis _ Hin). left.
    - intros d Hd%HdepsAB. by eapply (inv_valid _ _ _ _ _ HinvA). }
  assert (Hend : ∀ stepsA stepsB indegA indegB oA oB x rest,
    (∀ n, n ∈ ids stepsA ↔ n ∈ ids stepsB) →
    (∀ d n, depends stepsA d n ↔ depends stepsB d n) →
    inv stepsA indegA [] oA [] → inv stepsB indegB [] oB [] →
    oA = oB ++ x :: rest → False).
  { intros stepsA stepsB indegA indegB oA oB x rest HidsAB HdepsAB HinvA HinvB HoA.
    destruct (Hhead _ _ _ _ _ _ _ _ _ HidsAB HdepsAB HinvA HinvB HoA) as (Hx & Hnx & Hdx).
    apply Hnx. apply (inv_final_mem _ _ _ _ HinvB). done. }
  intros s1. induction s1 as [|x1 s1 IH]; intros s2 pre Ho1 Ho2.
  - destruct s2 as [|x2 s2]; [done|]. rewrite app_nil_r in Ho1. subst pre.
    exfalso. by eapply (Hend steps2 steps1); [..|exact Ho2].
  - destruct s2 as [|x2 s2].
    { rewrite app_nil_r in Ho2. subst pre. exfalso. by eapply (Hend steps1 steps2). }
    destruct (Hhead _ _ _ _ _ _ _ _ _ Hids Hdeps Hinv1 Hinv2 Ho1) as (Hx1 & Hn1 & Hd1).
    assert (Hids' : ∀ n, n ∈ ids steps2 ↔ n ∈ ids steps1) by (intros n; by rewrite Hids).
    assert (Hdeps' : ∀ d n, depends steps2 d n ↔ depends steps1 d n)
      by (intros d n; by rewrite Hdeps).
    destruct (Hhead _ _ _ _ _ _ _ _ _ Hids' Hdeps' Hinv2 Hinv1 Ho2) as (Hx2 & Hn2 & Hd2).
    assert (x1 = x2) as <-.
    { apply (anti_symm String.le).
      - by eapply (inv_least _ _ _ _ _ Hinv1).
      - by eapply (inv_least _ _ _ _ _ Hinv2). }
    f_equal. apply (IH s2 (pre ++ [x1])); by rewrite <- app_assoc.
Qed.

(** [TopologicalSort] does not depend on the order in which the steps are
    listed. *)
Lemma TopologicalSort_perm steps1 steps2 :
  steps1 ≡ₚ steps2 → TopologicalSort steps1 = TopologicalSort steps2.
Proof.
  intros Hperm.
  destruct steps1 as [|st1 steps1].
  { apply Permutation_nil_l in Hperm. by subst. }
  destruct steps2 as [|st2 steps2].
  { by apply Permutation_nil_r in Hperm. }
  destruct (TopologicalSort_unfold (st1 :: steps1)) as (o1 & indeg1 & Hinv1 & ->); [done|].
  destruct (TopologicalSort_unfold (st2 :: steps2)) as (o2 & indeg2 & Hinv2 & ->); [done|].
  assert (o1 = o2) as <-.
  { eapply inv_final_unique; [| |exact Hinv1|exact Hinv2].
    - intros n. unfold ids. by rewrite Hperm.
    - intros d n. unfold depends. by setoid_rewrite Hperm. }
  by rewrite (Permutation_length Hperm).
Qed.

(** A step list whose dependencies all go from a lower to a higher rank
    has no cycle. *)
Lemma acyclic_ranked (rank : string → nat) steps :
  Forall (λ st, Forall (λ d, (rank d < rank (ID st))%nat) (Deps st)) steps →
  acyclic steps.
Proof.
  intros Hall x Hx.
  assert (Hlt : ∀ a b, tc (depends steps) a b → (rank a < rank b)%nat);
    [|specialize (Hlt x x Hx); lia].
  assert (Hstep : ∀ a b, depends steps a b → (rank a < rank b)%nat).
  { intros a b (st & Hst & <- & Hd). rewrite Forall_forall in Hall.
    specialize (Hall st Hst). rewrite Forall_forall in Hall. by apply Hall. }
  induction 1 as [a b Hab|a c b Hac _ IH]; [by apply Hstep|].
  specialize (Hstep a c Hac). lia.
Qed.

Lemma resolved_Forall steps :
  Forall (λ st, Forall (λ d, d ∈ ids steps) (Deps st)) steps → resolved steps.
Proof.
  intros Hall st d Hst Hd. rewrite Forall_forall in Hall.
  specialize (Hall st Hst). rewrite Forall_forall in Hall. by apply Hall.
Qed.

End planner_theorems.


Section planner_claims.
Import Plan.

(** C1, amended. For every step list with pairwise distinct ids whose
    dependency ids all resolve to steps of the list and whose dependency
    graph is acyclic, [TopologicalSort] returns, with no error, an order
    with exactly as many ids as there are steps (a rearrangement of the
    ids), in which every step appears after each of its dependencies; for
    every step list containing a dependency cycle it returns an error and
    no order; for the empty step list it returns the empty order with no
    error. *)
Theorem TopologicalSort_correct (steps : list PlanStep) :
  (NoDup (ids steps) → resolved steps → acyclic steps →
   ∃ order, TopologicalSort steps = Some (Ok order) ∧
            length order = length steps ∧ order ≡ₚ ids steps ∧
            linearizes order steps) ∧
  (has_cycle steps →
   ∃ n, (n < length steps)%nat ∧
        TopologicalSort steps = Some (Err (ErrCycle n (length steps)))) ∧
  (steps = [] → TopologicalSort steps = Some (Ok [])).
Proof.
  split; [|split].
  - intros Hnd Hres Hacyc.
    destruct (TopologicalSort_acyclic steps Hnd Hres Hacyc) as (order & Hsort & Hperm & Hlin).
    exists order. split; [done|]. split; [|done]. rewrite Hperm. apply length_fmap.
  - apply TopologicalSort_cycle.
  - by intros ->.
Qed.

Lemma diamond_well_formed : NoDup (ids diamond) ∧ resolved diamond ∧ acyclic diamond.
Proof.
  split; [|split].
  - apply (bool_decide_unpack _). by vm_compute.
  - apply resolved_Forall. apply (bool_decide_unpack _). by vm_compute.
  - apply (acyclic_ranked diamond_rank). apply (bool_decide_unpack _). by vm_compute.
Qed.

Lemma two_cycle_has_cycle : has_cycle two_cycle.
Proof.
  exists "a". eapply tc_l; [|apply tc_once].
  - exists (step "b" ["a"]). split; [set_solver|]. split; [done|]. set_solver.
  - exists (step "a" ["b"]). split; [set_solver|]. split; [done|]. set_solver.
Qed.

Lemma TopologicalSort_correct_witness :
  (∃ order, TopologicalSort diamond = Some (Ok order) ∧
            length order = 4%nat ∧ linearizes order diamond) ∧
  (∃ n, TopologicalSort two_cycle = Some (Err (ErrCycle n 3))).
Proof.
  destruct diamond_well_formed as (Hnd & Hres & Hacyc). split.
  - destruct (TopologicalSort_correct diamond) as [Hok _].
    destruct (Hok Hnd Hres Hacyc) as (order & Hsort & Hlen & _ & Hlin).
    exists order. split; [exact Hsort|]. split; [exact Hlen|exact Hlin].
  - destruct (TopologicalSort_correct two_cycle) as (_ & Hcyc & _).
    destruct (Hcyc two_cycle_has_cycle) as (n & _ & Hsort). exists n. exact Hsort.
Defined.

(** The claim as stated fails for a list with a repeated id: the two steps
    [a], [a], without dependencies, have all dependencies resolved and no
    cycle, and [TopologicalSort] returns the cycle error, one id of two
    being ordered. *)
Lemma TopologicalSort_repeated_id :
  let steps := [step "a" []; step "a" []] in
  resolved steps ∧ acyclic steps ∧
  TopologicalSort steps = Some (Err (ErrCycle 1 2)) ∧
  ¬ ∃ order, TopologicalSort steps = Some (Ok order).
Proof.
  intros steps. split; [|split; [|split]].
  - apply resolved_Forall. apply (bool_decide_unpack _). by vm_compute.
  - apply (acyclic_ranked (λ _, 0%nat)). apply (bool_decide_unpack _). by vm_compute.
  - by vm_compute.
  - intros [order Horder]. by vm_compute in Horder.
Qed.

(** C2. [TopologicalSort] is deterministic with lexicographic
    tie-breaking: at every position of the order it returns stands an id
    that is ready there (a step id not yet ordered, all of whose
    dependencies are ordered before), and it is the least of the ids
    ready there, be they ready from the start or only later; the order
    does not depend on how the steps are listed; [c], [a], [b] without
    dependencies sort to [a], [b], [c], and the diamond to [a], [b], [c],
    [d]. *)
Theorem TopologicalSort_deterministic :
  (∀ steps order l1 x l2,
     TopologicalSort steps = Some (Ok order) → order = l1 ++ x :: l2 →
     (x ∈ ids steps ∧ (x ∉ l1) ∧ (∀ d, depends steps d x → d ∈ l1)) ∧
     (∀ y, y ∈ ids steps → y ∉ l1 → (∀ d, depends steps d y → d ∈ l1) →
           String.le x y)) ∧
  (∀ steps1 steps2, steps1 ≡ₚ steps2 → TopologicalSort steps1 = TopologicalSort steps2) ∧
  TopologicalSort [step "c" []; step "a" []; step "b" []] = Some (Ok ["a"; "b"; "c"]) ∧
  (∀ steps, steps ≡ₚ diamond → TopologicalSort steps = Some (Ok ["a"; "b"; "c"; "d"])).
Proof.
  split; [|split; [|split]].
  - intros steps order l1 x l2 Hsort Horder. split.
    + by eapply TopologicalSort_ready.
    + intros y. by eapply TopologicalSort_least.
  - apply TopologicalSort_perm.
  - by vm_compute.
  - intros steps Hperm. rewrite (TopologicalSort_perm _ _ Hperm). by vm_compute.
Qed.

Lemma TopologicalSort_deterministic_witness :
  String.le "b" "c" ∧
  TopologicalSort (reverse diamond) = Some (Ok ["a"; "b"; "c"; "d"]).
Proof.
  destruct TopologicalSort_deterministic as (Hleast & _ & _ & Hdiamond). split.
  - destruct (Hleast diamond ["a"; "b"; "c"; "d"] ["a"] "b" ["c"; "d"]) as [_ Hle].
    + by vm_compute.
    + reflexivity.
    + apply (Hle "c").
      * apply (bool_decide_unpack _). by vm_compute.
      * apply (bool_decide_unpack _). by vm_compute.
      * intros d (st & Hst & Hid & Hd).
        repeat (apply elem_of_cons in Hst as [->|Hst]); try discriminate Hid;
          [|by apply elem_of_nil in Hst].
        simpl in Hd. set_solver.
  - apply Hdiamond. apply reverse_Permutation.
Defined.

(** C8, amended. [Build] fails with a validation error whenever the
    project name or the profile name is empty, whatever the steps and the
    configuration bytes; otherwise it fails with the error of
    [TopologicalSort] when the steps cannot be sorted, and else returns a
    plan whose [ConfigHash] is the hex-encoded SHA-256 of the raw
    configuration bytes and whose [Order] is the topological order of the
    steps; two calls on the same inputs, whenever they are made, give the
    same [ConfigHash] and the same [Order]. *)
Theorem Build_spec (now projectName profileName : string)
    (steps : list Config.Step) (configData : list Byte.byte) :
  (projectName = "" →
   Build now projectName profileName steps configData = Some (Err ErrEmptyProject)) ∧
  (projectName ≠ "" → profileName = "" →
   Build now projectName profileName steps configData = Some (Err ErrEmptyProfile)) ∧
  (projectName ≠ "" → profileName ≠ "" →
   (∃ order,
      TopologicalSort (to_PlanStep <$> steps) = Some (Ok order) ∧
      Build now projectName profileName steps configData
      = Some (Ok (mkPlan 1 projectName profileName
                         (Hex.EncodeToString (SHA256.Sum256 configData))
                         now (to_PlanStep <$> steps) order))) ∨
   (∃ err,
      TopologicalSort (to_PlanStep <$> steps) = Some (Err err) ∧
      Build now projectName profileName steps configData = Some (Err (ErrBuild err)))) ∧
  (∀ now' plan plan',
     Build now projectName profileName steps configData = Some (Ok plan) →
     Build now' projectName profileName steps configData = Some (Ok plan') →
     ConfigHash plan = ConfigHash plan' ∧ Order plan = Order plan').
Proof.
  split; [|split; [|split]].
  - intros ->. done.
  - intros Hproj ->. unfold Build. by rewrite decide_False.
  - intros Hproj Hprof. unfold Build. rewrite !decide_False by done.
    destruct (TopologicalSort_returns (to_PlanStep <$> steps)) as [[order|err] ->].
    + left. by exists order.
    + right. by exists err.
  - intros now' plan plan'. unfold Build. repeat case_decide; try done.
    destruct (TopologicalSort _) as [[order|err]|]; try done.
    by intros [= <-] [= <-].
Qed.

Lemma Build_spec_witness :
  let steps := [Config.mkStep "lint" "shell" ["go"; "fmt"] [] ∅ "" 0;
                Config.mkStep "test" "shell" ["go"; "test"] ["lint"] ∅ "" 0] in
  ∃ plan, Build "2024-01-01T00:00:00Z" "my-project" "default" steps
                (list_byte_of_string "abc") = Some (Ok plan) ∧
          Order plan = ["lint"; "test"] ∧
          ConfigHash plan
          = "ba7816bf8f01cfea414140de5dae2223b00361a396177a9cb410ff61f20015ad".
Proof.
  intros steps.
  destruct (Build_spec "2024-01-01T00:00:00Z" "my-project" "default" steps
              (list_byte_of_string "abc")) as (_ & _ & Hbuild & _).
  destruct Hbuild as [(order & Hsort & Hplan)|(err & Hsort & _)];
    [discriminate|discriminate| |by vm_compute in Hsort].
  eexists. split; [exact Hplan|]. vm_compute in Hsort. injection Hsort as <-.
  split; [reflexivity|]. by vm_compute.
Defined.

(** The claim as stated fails when the names are not empty and the steps
    cannot be sorted: [Build] then returns the error of the sort and no
    plan. *)
Lemma Build_cycle_error :
  let steps := [Config.mkStep "a" "shell" ["true"] ["a"] ∅ "" 0] in
  Build "2024-01-01T00:00:00Z" "my-project" "default" steps (list_byte_of_string "abc")
  = Some (Err (ErrBuild (ErrCycle 0 1))).
Proof. by vm_compute. Qed.

End planner_claims.

(** ** Properties of the step runner *)

Section runner_theorems.
Import Exec.
Context {W : Type} (sys : Sys W).
Implicit Types (step : Step) (opts : Options) (w : W).

(** An attempt returns the id of the step, the number of the attempt and
    one of two statuses. *)
Lemma executeStepAttempt_shape step opts attempt w :
  let r := (executeStepAttempt sys step opts attempt w).1 in
  ID r = Plan.ID step ∧ Attempt r = attempt ∧
  (Status r = "failed" ∨ Status r = "success").
Proof.
  unfold executeStepAttempt. repeat case_decide; simpl; [tauto..|].
  destruct (create_log _ _ _ _ _) as [[[err|] logFile] w1]; simpl; [tauto|].
  destruct (step_timeout _ _ _) as [timeout|err]; simpl; [|tauto].
  destruct (cmd_Run _ _ _) as [[| |] w2]; simpl; tauto.
Qed.

(** A step of an unsupported kind, or without a command, fails before
    anything is asked of the world. *)
Lemma executeStepAttempt_invalid step opts attempt w :
  Plan.Type_ step ≠ "shell" ∨ Plan.Command step = [] →
  ∃ msg, executeStepAttempt sys step opts attempt w
         = (mkStepResult (Plan.ID step) "failed" msg "" 0 0 attempt, w).
Proof.
  intros Hbad. unfold executeStepAttempt. case_decide; [by eexists|].
  case_decide; [by eexists|]. destruct Hbad as [?|Hcmd]; [done|].
  rewrite Hcmd in *. done.
Qed.

Section retry_loop.
Variables (step : Step) (opts : Options).

(** One pass of the loop, and of its ghost. *)
Lemma attempt_log_unfold k attempt w :
  attempt_log sys step opts k attempt w =
  let this := mkAttempt attempt w (executeStepAttempt sys step opts attempt w).1
                        (executeStepAttempt sys step opts attempt w).2 in
  if decide (Status (at_result this) = "success") then [this]
  else if ctx_Err sys (at_after this) then [this]
  else match k with
       | O => [this]
       | S k' => this :: attempt_log sys step opts k' (attempt + 1)
                                      (retry_pause sys (at_after this))
       end.
Proof. destruct k; simpl; by destruct (executeStepAttempt _ _ _ _ _). Qed.

Lemma attempt_loop_unfold stepStart k attempt w :
  attempt_loop sys step opts stepStart k attempt w =
  let r := (executeStepAttempt sys step opts attempt w).1 in
  let w1 := (executeStepAttempt sys step opts attempt w).2 in
  if decide (Status r = "success")
  then (set_Duration (time_Now sys w1 - stepStart) r, w1)
  else if ctx_Err sys w1
  then (set_Duration (time_Now sys w1 - stepStart) r, w1)
  else match k with
       | O => (set_Duration (time_Now sys w1 - stepStart) r, w1)
       | S k' => attempt_loop sys step opts stepStart k' (attempt + 1) (retry_pause sys w1)
       end.
Proof. destruct k; simpl; by destruct (executeStepAttempt _ _ _ _ _). Qed.

Lemma attempt_log_length k attempt w :
  (1 ≤ length (attempt_log sys step opts k attempt w) ≤ S k)%nat.
Proof.
  revert attempt w. induction k as [|k IH]; intros attempt w;
    rewrite attempt_log_unfold; simpl;
    repeat case_decide; try destruct (ctx_Err _ _); simpl; try lia.
  specialize (IH (attempt + 1)
    (retry_pause sys (executeStepAttempt sys step opts attempt w).2)). lia.
Qed.

(** The attempts are numbered consecutively and each is the call of
    [executeStepAttempt] in the world it starts in. *)
Lemma attempt_log_lookup k attempt w i rec :
  attempt_log sys step opts k attempt w !! i = Some rec →
  at_number rec = attempt + Z.of_nat i ∧
  executeStepAttempt sys step opts (at_number rec) (at_before rec)
    = (at_result rec, at_after rec).
Proof.
  assert (Hhere : ∀ a w0 j rec0,
    [mkAttempt a w0 (executeStepAttempt sys step opts a w0).1
               (executeStepAttempt sys step opts a w0).2] !! j = Some rec0 →
    at_number rec0 = a + Z.of_nat j ∧
    executeStepAttempt sys step opts (at_number rec0) (at_before rec0)
      = (at_result rec0, at_after rec0)).
  { intros a w0 [|j] rec0 H; simplify_eq/=. split; [lia|].
    by destruct (executeStepAttempt _ _ _ _ _). }
  revert attempt w i.
  induction k as [|k IH]; intros attempt w i;
    rewrite attempt_log_unfold; simpl;
    repeat case_decide; try destruct (ctx_Err _ _); try apply Hhere.
  destruct i as [|i]; [apply (Hhere attempt w 0%nat)|].
  intros Hi. apply IH in Hi as [-> Hi]. split; [lia|done].
Qed.

Lemma attempt_log_first k attempt w :
  ∃ rec, attempt_log sys step opts k attempt w !! 0%nat = Some rec ∧ at_before rec = w.
Proof.
  rewrite attempt_log_unfold; simpl.
  repeat case_decide; try destruct (ctx_Err _ _); try destruct k; by eexists.
Qed.

(** Sequential attempts: an attempt that is followed by another one did
    not succeed, left the context live, and the next one starts in the
    world it left, after the pause. *)
Lemma attempt_log_next k attempt w i a b :
  attempt_log sys step opts k attempt w !! i = Some a →
  attempt_log sys step opts k attempt w !! S i = Some b →
  Status (at_result a) ≠ "success" ∧ ctx_Err sys (at_after a) = false ∧
  at_before b = retry_pause sys (at_after a).
Proof.
  revert attempt w i.
  induction k as [|k IH]; intros attempt w i;
    rewrite attempt_log_unfold; simpl;
    repeat case_decide;
    try destruct (ctx_Err sys (executeStepAttempt sys step opts attempt w).2) eqn:Hctx;
    try done; try (by destruct i).
  destruct i as [|i].
  - intros Ha Hb. simplify_eq/=. split; [done|]. split; [done|].
    destruct (attempt_log_first k (attempt + 1)
      (retry_pause sys (executeStepAttempt sys step opts attempt w).2))
      as (rec & Hrec & <-).
    congruence.
  - apply IH.
Qed.

(** What the loop returns is the result of the last attempt, with the
    time elapsed since [stepStart] as its duration. *)
Lemma attempt_loop_last stepStart k attempt w :
  ∃ rec, last (attempt_log sys step opts k attempt w) = Some rec ∧
    attempt_loop sys step opts stepStart k attempt w
    = (set_Duration (time_Now sys (at_after rec) - stepStart) (at_result rec),
       at_after rec).
Proof.
  revert attempt w.
  induction k as [|k IH]; intros attempt w;
    rewrite attempt_log_unfold, attempt_loop_unfold; simpl;
    repeat case_decide; try destruct (ctx_Err _ _) eqn:Hctx;
    try (eexists; split; [reflexivity|done]).
  destruct (IH (attempt + 1)
    (retry_pause sys (executeStepAttempt sys step opts attempt w).2))
    as (rec & Hlast & ->).
  exists rec. split; [|done].
  destruct (attempt_log sys step opts k _ _); [done|].
  by rewrite last_cons_cons.
Qed.

End retry_loop.

Lemma maxAttempts_max step :
  - 2 ^ 63 ≤ Plan.Retries step < 2 ^ 63 →
  1 ≤ maxAttempts step ≤ Z.max (Plan.Retries step + 1) 1 ∧
  (Plan.Retries step < 2 ^ 63 - 1 → maxAttempts step = Z.max (Plan.Retries step + 1) 1).
Proof.
  intros Hr. unfold maxAttempts, wrap64.
  destruct (decide (Plan.Retries step = 2 ^ 63 - 1)) as [->|Hne].
  - split; [|lia]. by vm_compute.
  - replace ((Plan.Retries step + 1 + 2 ^ 63) `mod` 2 ^ 64)
      with (Plan.Retries step + 1 + 2 ^ 63) by (symmetry; apply Z.mod_small; lia).
    case_decide; lia.
Qed.

(** [executeStep] returns a result of the step, failed or successful. *)
Lemma executeStep_status step opts w :
  let r := (executeStep sys step opts w).1 in
  ID r = Plan.ID step ∧ (Status r = "failed" ∨ Status r = "success").
Proof.
  unfold executeStep.
  destruct (attempt_loop_last step opts (time_Now sys w)
              (Z.to_nat (maxAttempts step - 1)) 1 w) as (lst & Hlast & ->).
  simpl. rewrite last_lookup in Hlast. apply attempt_log_lookup in Hlast as [_ Hcall].
  pose proof (executeStepAttempt_shape step opts (at_number lst) (at_before lst))
    as (Hid & _ & Hst).
  rewrite Hcall in Hid, Hst. done.
Qed.

End runner_theorems.

Section runner_claims.
Import Exec.



(** The invalid step for which no pass of the loop sees the context
    cancelled goes through all the passes. *)
Lemma attempt_loop_invalid {W : Type} (sys : Sys W) (step : Step) (opts : Options)
    (stepStart : Z) (k : nat) (attempt : Z) (w : W) :
  Plan.Type_ step ≠ "shell" ∨ Plan.Command step = [] →
  (∀ n, (n ≤ k)%nat → ctx_Err sys (Nat.iter n (retry_pause sys) w) = false) →
  let r := (attempt_loop sys step opts stepStart k attempt w).1 in
  Status r = "failed" ∧ Attempt r = attempt + Z.of_nat k.
Proof.
  intros Hbad. revert attempt w. induction k as [|k IH]; intros attempt w Hlive;
    rewrite attempt_loop_unfold;
    destruct (executeStepAttempt_invalid sys step opts attempt w Hbad) as [msg ->];
    pose proof (Hlive 0%nat ltac:(lia)) as Hnow; simpl in Hnow;
    simpl; rewrite Hnow; simpl; [split; [done|lia]|].
  destruct (IH (attempt + 1) (retry_pause sys w)) as [Hs Ha].
  { intros n Hn. rewrite <- Nat.iter_succ_r. apply Hlive. lia. }
  split; [done|]. rewrite Ha. lia.
Qed.




(** C6, amended. For a step that gets as far as running its command (kind
    "shell", a command, no failure creating the log file): when its
    timeout string is empty the configured default is the timeout; when
    it is not empty and parses, the parsed duration is the timeout,
    whatever its sign; the timeout is handed to the command as its
    deadline if it is positive and no deadline is set otherwise, so that
    an explicit zero timeout runs the command without deadline rather
    than with the default. Whatever error the run returns, the end of the
    command at its deadline included, is a failed attempt. *)
Theorem step_deadline {W : Type} (sys : Sys W) (step : Step) (opts : Options)
    (attempt : Z) (w : W) (logFile : option string) (w1 : W) :
  Plan.Type_ step = "shell" → Plan.Command step ≠ [] →
  create_log sys step opts attempt w = (None, logFile, w1) →
  let result := mkStepResult (Plan.ID step) "failed" "" (default "" logFile) 0 0 attempt in
  let run timeout :=
    cmd_Run sys (mkCmd (Plan.Command step) (Plan.Env step)
                       (if decide (timeout > 0) then Some timeout else None) logFile) w1 in
  (Plan.Timeout step = "" →
     executeStepAttempt sys step opts attempt w
     = (conclude result (run (DefaultTimeout opts)).1, (run (DefaultTimeout opts)).2)) ∧
  (∀ d, Plan.Timeout step ≠ "" → time_ParseDuration sys (Plan.Timeout step) = Ok d →
     executeStepAttempt sys step opts attempt w
     = (conclude result (run d).1, (run d).2)) ∧
  (∀ out, out ≠ RunOk → Status (conclude result out) = "failed") ∧
  Status (conclude result RunOk) = "success".
Proof.
  intros Hty Hcmd Hlog result run. split; [|split; [|split]].
  - intros Hto. unfold executeStepAttempt. rewrite decide_False by (by intros []).
    rewrite decide_False by (by destruct (Plan.Command step)). rewrite Hlog.
    unfold step_timeout. rewrite decide_False by (by intros []).
    unfold deadline_of. fold (run (DefaultTimeout opts)).
    by destruct (run (DefaultTimeout opts)).
  - intros d Hto Hparse. unfold executeStepAttempt. rewrite decide_False by (by intros []).
    rewrite decide_False by (by destruct (Plan.Command step)). rewrite Hlog.
    unfold step_timeout. rewrite decide_True by done. rewrite Hparse.
    unfold deadline_of. fold (run d). by destruct (run d).
  - by intros [| |] ?.
  - done.
Qed.

Lemma step_deadline_witness :
  let step := Plan.mkPlanStep "test" "shell" ["go"; "test"] [] ∅ "30s" 0 in
  let opts := mkOptions "" 300000000000 4 true in
  Deadline <$> ran (executeStepAttempt script_sys step opts 1 (script_start [])).2
  = [Some 30000000000].
Proof.
  intros step opts.
  destruct (step_deadline script_sys step opts 1 (script_start []) None (script_start []))
    as (_ & Hexplicit & _); [reflexivity|discriminate|reflexivity|].
  rewrite (Hexplicit 30000000000); [reflexivity|discriminate|reflexivity].
Defined.

(** The claim as stated fails for a zero timeout: with a default of five
    minutes, the command of a step whose timeout is "0s" runs with no
    deadline at all, where the command of a step without timeout runs
    with the default. *)
Lemma zero_timeout_no_deadline :
  let opts := mkOptions "" 300000000000 4 true in
  let zero := Plan.mkPlanStep "test" "shell" ["go"; "test"] [] ∅ "0s" 0 in
  let absent := Plan.mkPlanStep "test" "shell" ["go"; "test"] [] ∅ "" 0 in
  script_ParseDuration (Plan.Timeout zero) = Ok 0 ∧
  Deadline <$> ran (executeStepAttempt script_sys zero opts 1 (script_start [])).2
    = [None] ∧
  Deadline <$> ran (executeStepAttempt script_sys absent opts 1 (script_start [])).2
    = [Some (DefaultTimeout opts)].
Proof. by vm_compute. Qed.

End runner_claims.

(** ** Properties of the scheduler *)

Section scheduler_theorems.
Import Exec.
Context {W : Type} (sys : Sys W) (p : Plan.Plan) (opts : Options).

Lemma slots_insert l i c c' :
  l !! i = Some c →
  slots (<[i := c']> l)
  = slots l - (if holds_slot c then 1 else 0) + (if holds_slot c' then 1 else 0).
Proof.
  revert i. induction l as [|x l IH]; intros [|i] Hi; simplify_eq/=; [lia|].
  rewrite (IH i Hi). lia.
Qed.

Lemma running_le_slots l : 0 ≤ running l ≤ slots l.
Proof. induction l as [|[] l IH]; simpl; lia. Qed.

Lemma slots_replicate_acquire n : slots (replicate n AtAcquire) = 0.
Proof. induction n; simpl; lia. Qed.

(** An enabled action is that of one goroutine, or the caller's cancel. *)
Lemma fire_Some a s s' :
  fire sys p opts a s = Some s' →
  (a = ACallerCancel ∧ s' = set_cancelled true s) ∨
  ∃ i id step c c' s1,
    actor a = Some i ∧ Plan.Order p !! i = Some id ∧
    stepMap (Plan.Steps p) !! id = Some step ∧ tasks s !! i = Some c ∧
    task_fire sys opts id step a c s = Some (c', s1) ∧ s' = set_pc i c' s1.
Proof.
  unfold fire. destruct (actor a) as [i|] eqn:Hact.
  - intros H. right.
    destruct (Plan.Order p !! i) as [id|] eqn:Hid; [|done]. simpl in H.
    destruct (stepMap (Plan.Steps p) !! id) as [step|] eqn:Hstep; [|done]. simpl in H.
    destruct (tasks s !! i) as [c|] eqn:Hc; [|done]. simpl in H.
    destruct (task_fire sys opts id step a c s) as [[c' s1]|] eqn:Htf; [|done].
    simpl in H. simplify_eq. by exists i, id, step, c, c', s1.
  - intros [= <-]. left. split; [|done]. by destruct a.
Qed.

(** A goroutine's action leaves the positions of the goroutines as they
    are in the shared state it returns. *)
Lemma task_fire_tasks id step a c s c' s1 :
  task_fire sys opts id step a c s = Some (c', s1) → tasks s1 = tasks s.
Proof.
  destruct a, c; simpl; intros H; repeat case_match; by simplify_eq/=.
Qed.

(** The semaphore: a goroutine takes a slot when it leaves [AtAcquire]
    through the semaphore, gives it back when it returns, and an action
    is enabled only when there is room. *)
Lemma task_fire_sem id step a c s c' s1 :
  task_fire sys opts id step a c s = Some (c', s1) →
  sem s1 = sem s - (if holds_slot c then 1 else 0) + (if holds_slot c' then 1 else 0) ∧
  (holds_slot c = false → holds_slot c' = true → sem s < Jobs opts).
Proof.
  destruct a, c; simpl; intros H; repeat case_match; simplify_eq/=;
    (split; [lia|]); try done.
Qed.

Lemma sem_inv_init : sem_inv p opts (init p).
Proof.
  split; simpl.
  - apply length_replicate.
  - by rewrite slots_replicate_acquire.
  - lia.
Qed.

Lemma sem_inv_fire a s s' :
  sem_inv p opts s → fire sys p opts a s = Some s' → sem_inv p opts s'.
Proof.
  intros [Hlen Hslots Hcap] [[-> ->]|(i & id & step & c & c' & s1 & _ & _ & _ & Hc & Htf & ->)]%fire_Some.
  { by split. }
  pose proof (task_fire_tasks _ _ _ _ _ _ _ Htf) as Ht.
  destruct (task_fire_sem _ _ _ _ _ _ _ Htf) as [Hsem Hroom].
  split; simpl; rewrite ?Ht.
  - by rewrite length_insert.
  - rewrite (slots_insert _ _ c) by done. lia.
  - destruct (holds_slot c) eqn:Hh, (holds_slot c') eqn:Hh'; lia.
Qed.

Lemma sem_inv_run acts s s' :
  sem_inv p opts s → run sys p opts acts s = Some s' → sem_inv p opts s'.
Proof.
  revert s. induction acts as [|a acts IH]; intros s Hinv; simpl; [by intros [= <-]|].
  destruct (fire sys p opts a s) as [s1|] eqn:Hfire; [|done]. simpl.
  apply IH. by eapply sem_inv_fire.
Qed.

(** What an action does to [results]: nothing, or one write under the
    goroutine's own id. *)
Lemma task_fire_results id step a c s c' s1 :
  task_fire sys opts id step a c s = Some (c', s1) →
  (results s1 = results s ∨ ∃ r, results s1 = <[id := r]> (results s)) ∧
  (recorded c' = true → recorded c = true ∨ is_Some (results s1 !! id)).
Proof.
  destruct a, c; simpl; intros H; repeat case_match; simplify_eq/=;
    (split; [by eauto|]); try done; try (by left);
    intros _; right; rewrite lookup_insert_eq; by eexists.
Qed.

Lemma rec_inv_init : rec_inv p (init p).
Proof.
  intros i id c _ Hc. simpl in Hc. apply lookup_replicate in Hc as [-> _]. done.
Qed.

Lemma rec_inv_fire a s s' :
  rec_inv p s → fire sys p opts a s = Some s' → rec_inv p s'.
Proof.
  intros Hinv [[-> ->]|(i & id & step & c & c' & s1 & _ & Hid & _ & Hc & Htf & ->)]%fire_Some.
  { done. }
  pose proof (task_fire_tasks _ _ _ _ _ _ _ Htf) as Ht.
  destruct (task_fire_results _ _ _ _ _ _ _ Htf) as [Hres Hrec].
  assert (Hgrow : ∀ k, is_Some (results s !! k) → is_Some (results s1 !! k)).
  { intros k Hk. destruct Hres as [->|[r ->]]; [done|].
    destruct (decide (id = k)) as [->|Hne].
    - rewrite lookup_insert_eq. by eexists.
    - by rewrite lookup_insert_ne. }
  intros j idj cj Hidj Hcj Hrecj. simpl in *. rewrite Ht in Hcj.
  destruct (decide (i = j)) as [->|Hne].
  - rewrite list_lookup_insert_eq in Hcj by (by eapply lookup_lt_Some).
    simplify_eq. destruct (Hrec Hrecj) as [Hold|Hnew]; [|done].
    by eapply Hgrow, Hinv.
  - rewrite list_lookup_insert_ne in Hcj by done. by eapply Hgrow, Hinv.
Qed.

Lemma rec_inv_run acts s s' :
  rec_inv p s → run sys p opts acts s = Some s' → rec_inv p s'.
Proof.
  revert s. induction acts as [|a acts IH]; intros s Hinv; simpl; [by intros [= <-]|].
  destruct (fire sys p opts a s) as [s1|] eqn:Hfire; [|done]. simpl.
  apply IH. by eapply rec_inv_fire.
Qed.

(** When every goroutine has returned, every id of the order has its
    result. *)
Lemma all_done_recorded acts s :
  run sys p opts acts (init p) = Some s → all_done s →
  ∀ id, id ∈ Plan.Order p → is_Some (results s !! id).
Proof.
  intros Hrun Hdone id Hid.
  pose proof (sem_inv_run _ _ _ sem_inv_init Hrun) as [Hlen _ _].
  pose proof (rec_inv_run _ _ _ rec_inv_init Hrun) as Hrec.
  apply list_elem_of_lookup in Hid as [i Hi].
  destruct (lookup_lt_is_Some_2 (tasks s) i) as [c Hc].
  { rewrite Hlen. by eapply lookup_lt_Some. }
  assert (c = AtDone) as ->.
  { unfold all_done in Hdone. rewrite Forall_forall in Hdone.
    apply Hdone. by eapply list_elem_of_lookup_2. }
  by eapply Hrec.
Qed.

Lemma fail_inv_init : fail_inv p (init p).
Proof.
  split; simpl.
  - intros i id r _ Hc. by apply lookup_replicate in Hc as [? _].
  - intros i r Hc. by apply lookup_replicate in Hc as [? _].
  - intros d. unfold is_failed. simpl. by rewrite lookup_empty.
  - intros i id st _ _ Hc. by apply lookup_replicate in Hc as [? _].
  - intros id st r _. by rewrite lookup_empty.
Qed.

(** [failedSteps] only grows. *)
Lemma task_fire_failed id step a c s c' s1 :
  task_fire sys opts id step a c s = Some (c', s1) →
  (failedSteps s1 = failedSteps s ∧ ¬ (∃ r, c = AtTrack r ∧ c' = AtCancel)) ∨
  (∃ r, c = AtTrack r ∧ Status r = "failed" ∧ c' = AtCancel ∧
        failedSteps s1 = <[id := true]> (failedSteps s)).
Proof.
  destruct a, c; simpl; intros H; repeat case_match; simplify_eq/=;
    try (left; split; [done|]; by intros (? & ? & ?)).
  right. by eexists.
Qed.

Lemma is_failed_mono id step a c s c' s1 d :
  task_fire sys opts id step a c s = Some (c', s1) →
  is_failed s d = true → is_failed s1 d = true.
Proof.
  intros [[Hf _]|(r & _ & _ & _ & Hf)]%task_fire_failed; unfold is_failed; rewrite Hf; [done|].
  destruct (decide (id = d)) as [->|Hne]; [by rewrite lookup_insert_eq|].
  by rewrite lookup_insert_ne.
Qed.

(** The writes of [results], with the position they are made from. *)
Lemma task_fire_writes id step a c s c' s1 :
  task_fire sys opts id step a c s = Some (c', s1) →
  (results s1 = results s ∧ ¬ (∃ r, c' = AtTrack r)) ∨
  (∃ r, results s1 = <[id := r]> (results s) ∧
        ((c = AtStore r ∧ c' = AtTrack r) ∨
         (c = AtSkip ∧ c' = AtDone ∧ r = dependency_skip id) ∨
         ((c = AtAcquire ∨ c = AtSleep) ∧ c' = AtDone ∧ r = cancelled_skip id))).
Proof.
  destruct a, c; simpl; intros H; repeat case_match; simplify_eq/=;
    try (left; split; [done|]; by intros (? & ?));
    right; eexists; (split; [done|]); naive_solver.
Qed.

(** How a goroutine comes to the positions the invariant speaks of. *)
Lemma task_fire_arrive id step a c s c' s1 :
  task_fire sys opts id step a c s = Some (c', s1) →
  (∀ r, c' = AtStore r → ∃ w, r = (executeStep sys step opts w).1) ∧
  (c' = AtSkip → c = AtCheck ∧ ∃ d, d ∈ Plan.Deps step ∧ is_failed s d = true) ∧
  (c = AtCancel → c' = AtDone) ∧ c ≠ AtDone.
Proof.
  destruct a, c; simpl; intros H; repeat case_match; simplify_eq/=;
    (split; [intros ? ?; simplify_eq; by eexists|]);
    (split; [|done]); try done.
  intros _. split; [done|].
  match goal with Hx : existsb _ _ = true |- _ => apply existsb_exists in Hx as (d & Hd & Hf) end.
  exists d. split; [by apply list_elem_of_In|done].
Qed.

Lemma fail_inv_fire a s s' :
  NoDup (Plan.Order p) →
  fail_inv p s → fire sys p opts a s = Some s' → fail_inv p s'.
Proof.
  intros Hnd [Htrack Hstore Hfailed Hskip Hdepskip]
    [[-> ->]|(i & id & step & c & c' & s1 & _ & Hid & Hstep & Hc & Htf & ->)]%fire_Some.
  { by split. }
  pose proof (task_fire_tasks _ _ _ _ _ _ _ Htf) as Ht.
  pose proof (task_fire_writes _ _ _ _ _ _ _ Htf) as Hw.
  pose proof (task_fire_failed _ _ _ _ _ _ _ Htf) as Hf.
  pose proof (task_fire_arrive _ _ _ _ _ _ _ Htf) as (Hstore' & Hskip' & Hcancel' & Hnotdone).
  pose proof (λ d, is_failed_mono _ _ _ _ _ _ _ d Htf) as Hmono.
  assert (Hi : (i < length (tasks s))%nat) by (by eapply lookup_lt_Some).
  assert (Hother : ∀ j idj, j ≠ i → Plan.Order p !! j = Some idj → idj ≠ id).
  { intros j idj Hne Hj ->. apply Hne. by eapply NoDup_lookup. }
  assert (Hkeep : ∀ k, k ≠ id → results s1 !! k = results s !! k).
  { intros k Hk. destruct Hw as [[-> _]|(r & -> & _)]; [done|]. by rewrite lookup_insert_ne. }
  split; simpl; rewrite ?Ht.
  - intros j idj r Hj Hcj. destruct (decide (j = i)) as [->|Hne].
    + rewrite list_lookup_insert_eq in Hcj by done. simplify_eq.
      destruct Hw as [[_ Hno]|(r' & -> & Hcase)]; [exfalso; eauto|].
      rewrite lookup_insert_eq. naive_solver.
    + rewrite list_lookup_insert_ne in Hcj by done.
      rewrite Hkeep by eauto. by eapply Htrack.
  - intros j r Hcj. destruct (decide (j = i)) as [->|Hne].
    + rewrite list_lookup_insert_eq in Hcj by done. simplify_eq.
      destruct (Hstore' r eq_refl) as [w ->]. apply executeStep_status.
    + rewrite list_lookup_insert_ne in Hcj by done. by eapply Hstore.
  - intros d Hd. destruct Hf as [[Hsame Hno]|(r & -> & Hr & -> & Hins)].
    + assert (is_failed s d = true) as Hd0
        by (unfold is_failed in *; simpl in Hd; by rewrite <- Hsame).
      destruct (Hfailed d Hd0) as (j & rd & Hj & Hcj & Hrd & Hsd).
      exists j, rd. split; [done|]. destruct (decide (j = i)) as [->|Hne].
      * simplify_eq. rewrite list_lookup_insert_eq by done.
        destruct Hw as [[-> _]|(r' & -> & Hcase)].
        -- split; [|done]. destruct Hcj as [Hcj|Hcj]; simplify_eq.
           right. by rewrite Hcancel'.
        -- exfalso. destruct Hcj as [Hcj|Hcj]; simplify_eq; naive_solver.
      * rewrite list_lookup_insert_ne by done. rewrite Hkeep by eauto. done.
    + destruct (decide (d = id)) as [->|Hne].
      * exists i, r. rewrite list_lookup_insert_eq by done.
        split; [done|]. split; [by left|].
        destruct Hw as [[-> _]|(r' & _ & Hcase)]; [|naive_solver].
        split; [by eapply Htrack|done].
      * assert (is_failed s d = true) as Hd0.
        { unfold is_failed in *. simpl in Hd. rewrite Hins in Hd.
          by rewrite lookup_insert_ne in Hd. }
        destruct (Hfailed d Hd0) as (j & rd & Hj & Hcj & Hrd & Hsd).
        exists j, rd. split; [done|].
        assert (j ≠ i) by (intros ->; simplify_eq).
        rewrite list_lookup_insert_ne by done. rewrite Hkeep by done. done.
  - intros j idj st Hj Hst Hcj. destruct (decide (j = i)) as [->|Hne].
    + rewrite list_lookup_insert_eq in Hcj by done. simplify_eq.
      assert (st = step) as ->
        by (apply (inj Some); etrans; [symmetry; exact Hst|exact Hstep]).
      destruct (Hskip' eq_refl) as (_ & d & Hd & Hfd). exists d. split; [done|]. by apply Hmono.
    + rewrite list_lookup_insert_ne in Hcj by done.
      destruct (Hskip j idj st Hj Hst Hcj) as (d & Hd & Hfd). exists d. split; [done|].
      by apply Hmono.
  - intros k st r Hst Hr Hs He.
    assert (∃ d, d ∈ Plan.Deps st ∧ is_failed s d = true) as (d & Hd & Hfd);
      [|exists d; split; [done|by apply Hmono]].
    destruct (decide (k = id)) as [->|Hne]; [|rewrite Hkeep in Hr by done; by eapply Hdepskip].
    destruct Hw as [[Hsame _]|(r' & Hins & Hcase)].
    { rewrite Hsame in Hr. by eapply Hdepskip. }
    rewrite Hins, lookup_insert_eq in Hr. simplify_eq.
    destruct Hcase as [[-> ->]|[(-> & -> & ->)|(_ & _ & ->)]].
    + destruct (Hstore i r Hc) as [Hx|Hx]; rewrite Hx in Hs; done.
    + by eapply Hskip.
    + done.
Qed.

Lemma fail_inv_run acts s s' :
  NoDup (Plan.Order p) →
  fail_inv p s → run sys p opts acts s = Some s' → fail_inv p s'.
Proof.
  intros Hnd. revert s. induction acts as [|a acts IH]; intros s Hinv; simpl;
    [by intros [= <-]|].
  destruct (fire sys p opts a s) as [s1|] eqn:Hfire; [|done]. simpl.
  apply IH. by eapply fail_inv_fire.
Qed.

Lemma doomed_fire i id step d a s s' :
  NoDup (Plan.Order p) →
  Plan.Order p !! i = Some id → stepMap (Plan.Steps p) !! id = Some step →
  d ∈ Plan.Deps step →
  doomed i id d s → fire sys p opts a s = Some s' →
  doomed i id d s' ∧ ∀ w, a ≠ ARun i w.
Proof.
  intros Hnd Hid Hstep Hd Hdoom
    [[-> ->]|(j & idj & stepj & c & c' & s1 & Hact & Hidj & Hstepj & Hc & Htf & ->)]%fire_Some.
  { split; [done|]. by intros w. }
  pose proof (task_fire_tasks _ _ _ _ _ _ _ Htf) as Ht.
  destruct (decide (j = i)) as [->|Hne].
  - assert (idj = id) as -> by congruence.
    assert (stepj = step) as ->
      by (apply (inj Some); etrans; [symmetry; exact Hstepj|exact Hstep]).
    assert (Hi : (i < length (tasks s))%nat) by (by eapply lookup_lt_Some).
    unfold doomed. simpl. rewrite Ht, list_lookup_insert_eq by done.
    destruct Hdoom as [[Hci Hf]|[Hci|[Hci _]]]; rewrite Hc in Hci; injection Hci as ->.
    + assert (existsb (is_failed s) (Plan.Deps step) = true) as Hex.
      { apply existsb_exists. exists d. split; [by apply list_elem_of_In|done]. }
      destruct a; simpl in Htf; try done. rewrite Hex in Htf. simplify_eq.
      split; [by right; left|]. by intros w.
    + destruct a; simpl in Htf; try done. simplify_eq. simpl.
      split; [|by intros w]. right. right. split; [done|]. by rewrite lookup_insert_eq.
    + by destruct a.
  - assert (idj ≠ id) as Hidne.
    { intros ->. apply Hne. by eapply NoDup_lookup. }
    split; [|intros w ->; simpl in Hact; congruence].
    unfold doomed. simpl. rewrite Ht, list_lookup_insert_ne by done.
    destruct Hdoom as [[Hci Hf]|[Hci|[Hci Hr]]].
    + left. split; [done|]. exact (is_failed_mono _ _ _ _ _ _ _ d Htf Hf).
    + by right; left.
    + right; right. split; [done|].
      destruct (task_fire_writes _ _ _ _ _ _ _ Htf) as [[-> _]|(r & -> & _)]; [done|].
      by rewrite lookup_insert_ne.
Qed.

End scheduler_theorems.

Section collect_theorems.
Import Exec.

Lemma collect_Ok order res acc st :
  (∀ id, id ∈ order → is_Some (res !! id)) →
  ∃ rs, Forall2 (λ id r, res !! id = Some r) order rs ∧
        collect order res acc st
        = Ok (acc ++ rs,
              if decide (Exists (λ r, Status r = "failed") rs) then "failed" else st).
Proof.
  revert acc st. induction order as [|id order IH]; intros acc st Hall.
  - exists []. split; [constructor|]. simpl. by rewrite app_nil_r.
  - destruct (Hall id) as [r Hr]; [left|]. simpl. rewrite Hr.
    destruct (IH (acc ++ [r]) (if decide (Status r = "failed") then "failed" else st))
      as (rs & Hrs & ->).
    { intros k Hk. apply Hall. by right. }
    exists (r :: rs). split; [by constructor|].
    rewrite <- app_assoc. simpl. f_equal. f_equal.
    destruct (decide (Status r = "failed")) as [Hf|Hf].
    + rewrite (decide_True (P := Exists _ (r :: rs))) by (by left).
      by destruct (decide _).
    + destruct (decide (Exists _ rs)) as [He|He].
      * rewrite decide_True; [done|]. by right.
      * rewrite decide_False; [done|]. by intros [?|?]%Exists_cons.
Qed.

Lemma collect_Err order res acc st e :
  collect order res acc st = Err e →
  ∃ id, e = ErrMissingResult id ∧ id ∈ order ∧ res !! id = None.
Proof.
  revert acc st. induction order as [|id order IH]; intros acc st; simpl; [done|].
  destruct (res !! id) as [r|] eqn:Hr.
  - intros (k & -> & Hk & Hnone)%IH. exists k. split; [done|]. split; [by right|done].
  - intros [= <-]. exists id. split; [done|]. split; [left|done].
Qed.

End collect_theorems.

Section scheduler_claims.
Import Exec.

(** C4, amended. [Execute] returns an error only for a nil plan, for a
    failure to create the output directory, or for an id of the plan's
    order that is not the id of one of its steps; the check for an id
    without a recorded result after all goroutines have returned never
    fires, and no error is returned because a step failed. Otherwise it
    returns, in the plan's order, the results recorded when every
    goroutine had returned, with overall status failed if one of them is
    failed and success if none is. *)
Theorem Execute_outcome {W : Type} (sys : Sys W) (p : option Plan.Plan) (opts : Options)
    (mkdir : option string) (out : result error ExecutionResult) :
  Execute sys p opts mkdir out →
  match out with
  | Err e =>
      (p = None ∧ e = ErrNilPlan) ∨
      (∃ m, OutDir opts ≠ "" ∧ mkdir = Some m ∧ e = ErrCreateOutDir m) ∨
      (∃ p' id, p = Some p' ∧ id ∈ Plan.Order p' ∧
                stepMap (Plan.Steps p') !! id = None ∧ e = ErrNotInSteps id)
  | Ok er =>
      ∃ p' s, p = Some p' ∧ reachable sys p' opts s ∧ all_done s ∧
        Forall2 (λ id r, results s !! id = Some r) (Plan.Order p') (Overall_Steps er) ∧
        Overall_Status er =
          if decide (Exists (λ r, Status r = "failed") (Overall_Steps er))
          then "failed" else "success"
  end.
Proof.
  intros [e Hlaunch|p' acts s elapsed Hlaunch Hrun Hdone].
  - unfold launch in Hlaunch. destruct p as [p'|]; [|left; by simplify_eq].
    right. destruct (decide (OutDir opts ≠ "")) as [Hout|Hout].
    + destruct mkdir as [m|]; [left; exists m; by simplify_eq|]. right.
      case_decide; [done|]. destruct (find _ _) as [id|] eqn:Hfind; [|done].
      apply find_some in Hfind as [Hin Hnone%bool_decide_eq_true].
      exists p', id. apply list_elem_of_In in Hin. by simplify_eq.
    + right. case_decide; [done|]. destruct (find _ _) as [id|] eqn:Hfind; [|done].
      apply find_some in Hfind as [Hin Hnone%bool_decide_eq_true].
      exists p', id. apply list_elem_of_In in Hin. by simplify_eq.
  - assert (p = Some p') as ->.
    { unfold launch in Hlaunch. destruct p; [|done]. repeat case_match; by simplify_eq. }
    pose proof (all_done_recorded sys p' opts acts s Hrun Hdone) as Hall.
    destruct (collect_Ok (Plan.Order p') (results s) [] "success" Hall) as (rs & Hrs & Hc).
    unfold finish. rewrite Hc. simpl.
    exists p', s. split; [done|]. split; [by exists acts|]. done.
Qed.

(** At any moment of [Execute] the number of steps inside [executeStep]
    is at most the number of slots taken, which is the number of elements
    in the semaphore channel and at most [Jobs]. *)
Lemma reachable_sem_inv {W : Type} (sys : Sys W) (p : Plan.Plan) (opts : Options) (s : state) :
  reachable sys p opts s → sem_inv p opts s.
Proof. intros [acts Hrun]. eapply sem_inv_run; [apply sem_inv_init|done]. Qed.

(** C9, amended. Throughout [Execute] the goroutines that hold a slot of
    the semaphore are as many as the elements in its channel and at most
    [Jobs]; a goroutine executing its command holds one, so at most [Jobs]
    steps execute at once. A goroutine waiting on the semaphore holds no
    slot; a goroutine polling for its dependencies has taken its slot
    before and holds it while it polls and sleeps, so it does count
    against the bound. *)
Theorem Execute_concurrency {W : Type} (sys : Sys W) (p : Plan.Plan) (opts : Options)
    (s : state) :
  reachable sys p opts s →
  0 ≤ Jobs opts →
  running (tasks s) ≤ slots (tasks s) ∧
  slots (tasks s) = sem s ∧
  sem s ≤ Jobs opts ∧
  holds_slot AtRun = true ∧ holds_slot AtAcquire = false ∧
  holds_slot AtPoll = true ∧ holds_slot AtSleep = true.
Proof.
  intros [Hlen Hslots Hcap]%reachable_sem_inv Hjobs.
  pose proof (running_le_slots (tasks s)). repeat split; try done; lia.
Qed.

Lemma reachable_fail_inv {W : Type} (sys : Sys W) (p : Plan.Plan) (opts : Options) (s : state) :
  NoDup (Plan.Order p) → reachable sys p opts s → fail_inv p s.
Proof. intros Hnd [acts Hrun]. eapply fail_inv_run; [done|apply fail_inv_init|done]. Qed.

(** C3, amended. In a plan whose order has no repeated id, whatever the
    options (fail-fast or not): a goroutine that comes to the check of its
    dependencies with one of them in [failedSteps] never enters
    [executeStep]; from then on it is at the check, at the skip, or has
    returned with the result skipped, "dependency failed", zero attempts.
    A goroutine that the cancellation reaches while it waits for a slot
    or sleeps between two polls can take the [execCtx.Done()] branch
    instead, and then returns with the result skipped, "execution
    cancelled", zero attempts, whatever its dependencies. *)
Theorem failed_dependency_skip {W : Type} (sys : Sys W) (p : Plan.Plan) (opts : Options)
    (i : nat) (id : string) (step : Step) :
  NoDup (Plan.Order p) →
  Plan.Order p !! i = Some id →
  stepMap (Plan.Steps p) !! id = Some step →
  (∀ (acts : list (action (W := W))) (s s' : state) (d : string),
     tasks s !! i = Some AtCheck →
     d ∈ Plan.Deps step →
     is_failed s d = true →
     run sys p opts acts s = Some s' →
     (∀ w, ARun i w ∉ acts) ∧
     (tasks s' !! i = Some AtCheck ∨ tasks s' !! i = Some AtSkip ∨
      tasks s' !! i = Some AtDone) ∧
     (tasks s' !! i = Some AtDone →
      results s' !! id = Some (mkStepResult id "skipped" "dependency failed" "" 0 0 0))) ∧
  (∀ s : state,
     cancelled s = true →
     (tasks s !! i = Some AtAcquire →
      ∃ s', fire sys p opts (AAcquireCancelled i) s = Some s' ∧
            tasks s' !! i = Some AtDone ∧ sem s' = sem s ∧
            results s' !! id
              = Some (mkStepResult id "skipped" "execution cancelled" "" 0 0 0)) ∧
     (tasks s !! i = Some AtSleep →
      ∃ s', fire sys p opts (ASleepCancelled i) s = Some s' ∧
            tasks s' !! i = Some AtDone ∧ sem s' = sem s - 1 ∧
            results s' !! id
              = Some (mkStepResult id "skipped" "execution cancelled" "" 0 0 0))).
Proof.
  intros Hnd Hid Hstep. split.
  - intros acts s s' d Hc Hd Hf Hrun.
    assert (Hdoom : doomed i id d s) by (left; done).
    clear Hc Hf. revert s Hdoom Hrun.
    induction acts as [|a acts IH]; intros s Hdoom Hrun; simpl in Hrun.
    + injection Hrun as <-. split; [by intros w ?%elem_of_nil|].
      destruct Hdoom as [[? _]|[?|[? ?]]]; split; eauto; intros; congruence.
    + destruct (fire sys p opts a s) as [s1|] eqn:Hfire; [|done]. simpl in Hrun.
      destruct (doomed_fire sys p opts i id step d a s s1 Hnd Hid Hstep Hd Hdoom Hfire)
        as [Hdoom1 Hnorun].
      destruct (IH s1 Hdoom1 Hrun) as (Hnoruns & Hpos).
      split; [|done]. intros w [Heq|Hin]%elem_of_cons; [by eapply Hnorun|by eapply Hnoruns].
  - intros s Hcan. split; intros Hc; eexists; (split; [|split; [|split]]).
    all: try (unfold fire; simpl; rewrite Hid; simpl; rewrite Hstep; simpl;
              rewrite Hc; simpl; rewrite Hcan; reflexivity).
    all: simpl; try reflexivity.
    all: try (apply list_lookup_insert_eq; by eapply lookup_lt_Some).
    all: by rewrite lookup_insert_eq.
Qed.

(** *** The plan of [TestExecute_DependencySkip], run *)

Lemma skip_plan_NoDup : NoDup (Plan.Order skip_plan).
Proof. apply (bool_decide_unpack _). by vm_compute. Qed.

Lemma cascade_plan_NoDup : NoDup (Plan.Order cascade_plan).
Proof. apply (bool_decide_unpack _). by vm_compute. Qed.

(** Without fail-fast, [dependent] is skipped for its failed dependency
    and [Execute] returns normally, with overall status failed. *)
Lemma Execute_skip_plan :
  Execute script_sys (Some skip_plan) (skip_opts 4 false) None
    (Ok (mkExecutionResult "failed" 5000000
           [mkStepResult "failing" "failed" "exit status 1" "" 1000000 1 1;
            mkStepResult "dependent" "skipped" "dependency failed" "" 0 0 0])).
Proof.
  apply (Execute_waited script_sys (Some skip_plan) (skip_opts 4 false) None skip_plan
           skip_trace (state_after skip_plan (skip_opts 4 false) skip_trace) 5000000).
  - reflexivity.
  - by vm_compute.
  - repeat constructor.
Qed.

Lemma Execute_outcome_witness :
  ∃ s, reachable script_sys skip_plan (skip_opts 4 false) s ∧ all_done s ∧
       results s !! "dependent" = Some (dependency_skip "dependent") ∧
       Status <$> results s !! "failing" = Some "failed".
Proof.
  destruct (Execute_outcome script_sys _ _ _ _ Execute_skip_plan)
    as (p' & s & Hp & Hreach & Hdone & Hres & _).
  injection Hp as <-. exists s. split; [exact Hreach|]. split; [exact Hdone|].
  apply Forall2_cons_1 in Hres as [Hfailing Hres].
  apply Forall2_cons_1 in Hres as [Hdependent _].
  split; [exact Hdependent|].
  etrans; [exact (f_equal (fmap Status) Hfailing)|reflexivity].
Defined.

(** The claim as stated fails: [Execute] also returns an error when the
    output directory cannot be created, and when an id of the order is
    not the id of a step; in neither case is the plan nil or has a
    goroutine been started. *)
Lemma Execute_other_errors :
  Execute script_sys (Some skip_plan) (mkOptions "/proc/out" 10000000000 4 true)
    (Some "mkdir /proc/out: no such file or directory")
    (Err (ErrCreateOutDir "mkdir /proc/out: no such file or directory")) ∧
  Execute script_sys
    (Some (Plan.mkPlan 1 "test" "default" "abc123" "2024-01-01T00:00:00Z" [failing] ["ghost"]))
    (skip_opts 4 true) None (Err (ErrNotInSteps "ghost")).
Proof. split; by apply Execute_early. Qed.

Lemma Execute_concurrency_witness :
  let s := state_after skip_plan (skip_opts 1 false) starve_trace in
  running (tasks s) ≤ 1 ∧ sem s = 1.
Proof.
  intros s.
  destruct (Execute_concurrency script_sys skip_plan (skip_opts 1 false) s)
    as (Hrun & Hslots & Hsem & _).
  - exists starve_trace. by vm_compute.
  - simpl. lia.
  - split; [|reflexivity]. etrans; [exact Hrun|]. by vm_compute.
Defined.

(** The claim as stated fails: with one slot, when [dependent] is the
    first to take it, it holds it while it only polls for [failing]; no
    step is executing its command, the semaphore is full, and [failing]
    cannot take a slot. *)
Lemma polling_holds_slot :
  let opts := skip_opts 1 false in
  let s := state_after skip_plan opts starve_trace in
  run script_sys skip_plan opts starve_trace (init skip_plan) = Some s ∧
  tasks s = [AtAcquire; AtSleep] ∧
  running (tasks s) = 0 ∧ sem s = 1 ∧ sem s = Jobs opts ∧
  fire script_sys skip_plan opts (AAcquire 0) s = None.
Proof. by vm_compute. Qed.

(** From there, unless the caller cancels, [failing] never starts and
    [dependent] polls for ever: [Execute] does not return. *)
Lemma polling_holds_slot_forever (acts : list (action (W := script))) (s' : state) :
  let opts := skip_opts 1 false in
  let s := state_after skip_plan opts starve_trace in
  ACallerCancel ∉ acts →
  run script_sys skip_plan opts acts s = Some s' →
  tasks s' = [AtAcquire; AtSleep] ∨ tasks s' = [AtAcquire; AtPoll].
Proof.
  intros opts s Hno.
  assert (Hstuck : ∀ s0, 
    results s0 = ∅ ∧ sem s0 = 1 ∧ cancelled s0 = false ∧
    (tasks s0 = [AtAcquire; AtSleep] ∨ tasks s0 = [AtAcquire; AtPoll]) →
    run script_sys skip_plan opts acts s0 = Some s' →
    tasks s' = [AtAcquire; AtSleep] ∨ tasks s' = [AtAcquire; AtPoll]).
  { induction acts as [|a acts IH]; intros s0 (Hres & Hsem & Hcan & Htasks) Hrun;
      simpl in Hrun; [by injection Hrun as <-|].
    destruct (fire script_sys skip_plan opts a s0) as [s1|] eqn:Hfire; [|done].
    simpl in Hrun. apply (IH ltac:(set_solver) s1); [|done].
    destruct s0 as [res fs sm can ts]. simpl in *. subst res sm can.
    assert (a ≠ ACallerCancel) by set_solver.
    destruct Htasks as [-> | ->];
      destruct a as [[|[|?]]|[|[|?]]|[|[|?]]|[|[|?]]|[|[|?]]|[|[|?]]|[|[|?]]
                    |[|[|?]] ?|[|[|?]]|[|[|?]]|[|[|?]]|];
      try done; vm_compute in Hfire; simplify_eq; simpl; auto. }
  apply Hstuck. by vm_compute; auto.
Qed.

Lemma polling_holds_slot_forever_witness :
  let opts := skip_opts 1 false in
  let s := state_after skip_plan opts starve_trace in
  let s' := state_after skip_plan opts (starve_trace ++ [AWake 1; APoll 1; AWake 1]) in
  run script_sys skip_plan opts [AWake 1; APoll 1; AWake 1] s = Some s' ∧
  (tasks s' = [AtAcquire; AtSleep] ∨ tasks s' = [AtAcquire; AtPoll]).
Proof.
  intros opts s s'.
  assert (Hrun : run script_sys skip_plan opts [AWake 1; APoll 1; AWake 1] s = Some s')
    by (by vm_compute).
  split; [exact Hrun|].
  apply (polling_holds_slot_forever [AWake 1; APoll 1; AWake 1] s'); [|exact Hrun].
  intros Hin. by repeat (apply elem_of_cons in Hin as [Hin|Hin]; [discriminate|]);
    apply elem_of_nil in Hin.
Defined.

(** The claim as stated fails under fail-fast: when [failing] has failed
    and cancelled the run, [dependent], which was sleeping between two
    polls, records "execution cancelled"; all its dependencies have
    results then and one is failed. Without fail-fast the same plan gives
    "dependency failed". *)
Lemma dependent_cancelled_under_failfast :
  let s := state_after skip_plan (skip_opts 4 true) failfast_trace in
  run script_sys skip_plan (skip_opts 4 true) failfast_trace (init skip_plan) = Some s ∧
  all_done s ∧
  Status <$> results s !! "failing" = Some "failed" ∧
  results s !! "dependent"
    = Some (mkStepResult "dependent" "skipped" "execution cancelled" "" 0 0 0) ∧
  results (state_after skip_plan (skip_opts 4 false) skip_trace) !! "dependent"
    = Some (mkStepResult "dependent" "skipped" "dependency failed" "" 0 0 0).
Proof. split; [by vm_compute|]. split; [repeat constructor|]. by vm_compute. Qed.

(** A dependent step can also run although its dependency failed:
    [failedSteps] is written after [results], and a goroutine that polls
    in between finds its dependency recorded and not yet marked failed. *)
Lemma dependent_runs_in_race :
  let s := state_after skip_plan (skip_opts 4 false) race_trace in
  run script_sys skip_plan (skip_opts 4 false) race_trace (init skip_plan) = Some s ∧
  Status <$> results s !! "failing" = Some "failed" ∧
  is_failed s "failing" = false ∧
  tasks s !! 1%nat = Some AtRun.
Proof. by vm_compute. Qed.

Lemma failed_dependency_skip_witness :
  let opts := skip_opts 4 false in
  let s := state_after skip_plan opts (take 11 skip_trace) in
  let s' := state_after skip_plan opts skip_trace in
  is_failed s "failing" = true ∧
  run script_sys skip_plan opts [ACheck 1; ASkip 1] s = Some s' ∧
  results s' !! "dependent" = Some (dependency_skip "dependent").
Proof.
  intros opts s s'.
  assert (Hrun : run script_sys skip_plan opts [ACheck 1; ASkip 1] s = Some s')
    by (by vm_compute).
  split; [reflexivity|]. split; [exact Hrun|].
  destruct (failed_dependency_skip script_sys skip_plan opts 1 "dependent" dependent)
    as (Hskip & _).
  - exact skip_plan_NoDup.
  - reflexivity.
  - reflexivity.
  - destruct (Hskip [ACheck 1; ASkip 1] s s' "failing") as (_ & _ & Hdone).
    + reflexivity.
    + left.
    + reflexivity.
    + exact Hrun.
    + apply Hdone. reflexivity.
Defined.

End scheduler_claims.

(** ** More on the planner *)

Section planner_more.
Import Plan.

(** What a returned order tells of the steps. *)
Lemma TopologicalSort_Ok_wf steps order :
  TopologicalSort steps = Some (Ok order) →
  NoDup order ∧ order ≡ₚ ids steps ∧ linearizes order steps ∧
  NoDup (ids steps) ∧ resolved steps ∧ acyclic steps.
Proof.
  intros Hsort.
  assert (Hwf : NoDup order ∧ order ≡ₚ ids steps ∧
                NoDup (ids steps) ∧ resolved steps ∧ acyclic steps).
  { apply TopologicalSort_Ok_inv in Hsort as [[-> ->]|(indeg & Hinv & Hlen)].
    - split; [constructor|]. split; [done|]. split; [constructor|]. split.
      + intros st d Hst. by apply elem_of_nil in Hst.
      + intros x Htc. apply tc_depends_target in Htc. by apply elem_of_nil in Htc.
    - pose proof (inv_final_nodup _ _ _ Hinv) as Hnd.
      assert (Hperm : order ≡ₚ ids steps).
      { apply submseteq_length_Permutation.
        - apply NoDup_submseteq; [done|]. intros n Hn.
          by apply (inv_final_mem _ _ _ n Hinv) in Hn as [? _].
        - unfold ids. rewrite length_fmap. lia. }
      split; [done|]. split; [done|]. split; [by rewrite <- Hperm|]. split.
      + intros st d Hst Hd.
        assert (Hin : ID st ∈ order).
        { rewrite Hperm. apply list_elem_of_fmap. eauto. }
        apply (inv_final_mem _ _ _ _ Hinv) in Hin as [_ Hdeps].
        rewrite <- Hperm. apply Hdeps. by exists st.
      + intros x Htc. apply (cycle_not_ordered _ _ _ _ Hinv Htc).
        rewrite Hperm. by eapply tc_depends_target. }
  destruct Hwf as (Hnd & Hperm & Hndi & Hres & Hacyc).
  destruct (TopologicalSort_acyclic steps Hndi Hres Hacyc) as (order' & Hsort' & _ & Hlin).
  rewrite Hsort in Hsort'. injection Hsort' as <-. done.
Qed.

Lemma TopologicalSort_Err steps e :
  TopologicalSort steps = Some (Err e) →
  ∃ n, (n < length steps)%nat ∧ e = ErrCycle n (length steps).
Proof.
  destruct steps as [|st steps]; [done|].
  destruct (TopologicalSort_unfold (st :: steps)) as (res & indeg & Hinv & ->); [done|].
  destruct (decide _) as [Hne|]; [|done]. intros [= <-]. exists (length res).
  split; [|done]. pose proof (inv_bound _ _ _ _ _ Hinv). simpl in *. lia.
Qed.

(** X1. [TopologicalSort] returns an order exactly for the step lists with
    pairwise distinct ids, all dependency ids resolved and no cycle; the
    order is then a rearrangement of the ids without repetition. In every
    other case, a repeated id and a dependency that names no step
    included, it returns the cycle error, with a count of ordered steps
    below the number of steps. *)
Theorem TopologicalSort_succeeds_iff (steps : list PlanStep) :
  ((∃ order, TopologicalSort steps = Some (Ok order)) ↔
   NoDup (ids steps) ∧ resolved steps ∧ acyclic steps) ∧
  (∀ order, TopologicalSort steps = Some (Ok order) →
            NoDup order ∧ order ≡ₚ ids steps) ∧
  (¬ (NoDup (ids steps) ∧ resolved steps ∧ acyclic steps) →
   ∃ n, (n < length steps)%nat ∧
        TopologicalSort steps = Some (Err (ErrCycle n (length steps)))).
Proof.
  split; [split|split].
  - intros [order Hsort]. by destruct (TopologicalSort_Ok_wf _ _ Hsort) as (_ & _ & _ & ?).
  - intros (Hnd & Hres & Hacyc).
    destruct (TopologicalSort_acyclic steps Hnd Hres Hacyc) as (order & Hsort & _).
    by exists order.
  - intros order Hsort. by destruct (TopologicalSort_Ok_wf _ _ Hsort) as (? & ? & _).
  - intros Hbad. destruct (TopologicalSort_returns steps) as [[order|e] Hsort].
    + exfalso. apply Hbad. by destruct (TopologicalSort_Ok_wf _ _ Hsort) as (_ & _ & _ & ?).
    + destruct (TopologicalSort_Err _ _ Hsort) as (n & Hn & ->). by exists n.
Qed.

End planner_more.

(** ** Properties of the configuration *)

Section config_theorems.
Import Config.

Lemma marked_insert m k x : marked (<[k := true]> m) x = bool_decide (x = k) || marked m x.
Proof.
  unfold marked. destruct (decide (x = k)) as [->|Hne].
  - by rewrite lookup_insert_eq, bool_decide_eq_true_2.
  - by rewrite lookup_insert_ne, bool_decide_eq_false_2.
Qed.

Lemma marked_empty x : marked ∅ x = false.
Proof. unfold marked. by rewrite lookup_empty. Qed.

Lemma marked_singleton k x : marked {[k := true]} x = bool_decide (x = k).
Proof.
  unfold marked. destruct (decide (x = k)) as [->|Hne].
  - by rewrite lookup_singleton_eq, bool_decide_eq_true_2.
  - by rewrite lookup_singleton_ne, bool_decide_eq_false_2.
Qed.

(** *** The steps of one profile *)

Lemma check_steps_spec name steps : ∀ m,
  (∃ m', check_steps name m steps = Ok m') ↔
  Forall step_ok steps ∧ NoDup (ids steps) ∧ ∀ x, x ∈ ids steps → marked m x = false.
Proof.
  induction steps as [|step steps IH]; intros m; simpl.
  - split; [intros _|by eauto]. split; [constructor|]. split; [constructor|].
    intros x Hx. by apply elem_of_nil in Hx.
  - destruct (decide (ID step = "")) as [He|He].
    { split; [by intros [? ?]|]. intros (Hok & _). apply Forall_cons in Hok as [(? & _) _]. done. }
    destruct (marked m (ID step)) eqn:Hm.
    { split; [by intros [? ?]|]. intros (_ & _ & Hfresh).
      rewrite Hfresh in Hm; [done|left]. }
    destruct (decide (Type_ step ∈ validStepTypes)) as [Ht|Ht].
    2:{ rewrite bool_decide_eq_false_2 by done. simpl.
        split; [by intros [? ?]|]. intros (Hok & _). apply Forall_cons in Hok as [(_ & ? & _) _]. done. }
    rewrite bool_decide_eq_true_2 by done. simpl.
    destruct (bool_decide (Type_ step = "shell") && bool_decide (length (Command step) = 0%nat)) eqn:Hsh.
    { split; [by intros [? ?]|]. intros (Hok & _). apply Forall_cons in Hok as [(_ & _ & Hc) _].
      apply andb_true_iff in Hsh as [Hs%bool_decide_eq_true Hl%bool_decide_eq_true].
      exfalso. apply Hc; [done|]. by destruct (Command step). }
    rewrite IH. split.
    + intros (Hok & Hnd & Hfresh). split; [|split].
      * constructor; [|done]. split; [done|]. split; [done|]. intros Hs Hc.
        rewrite bool_decide_eq_true_2 in Hsh by done.
        rewrite Hc in Hsh. done.
      * constructor; [|done]. intros Hin. specialize (Hfresh _ Hin).
        rewrite marked_insert in Hfresh. by rewrite bool_decide_eq_true_2 in Hfresh.
      * intros x [->|Hx]%elem_of_cons; [done|]. specialize (Hfresh _ Hx).
        rewrite marked_insert in Hfresh. by apply orb_false_iff in Hfresh as [_ ?].
    + intros (Hok & Hnd & Hfresh). apply Forall_cons in Hok as [_ Hok].
      apply NoDup_cons in Hnd as [Hnin Hnd]. split; [done|]. split; [done|].
      intros x Hx. rewrite marked_insert. apply orb_false_iff. split.
      * apply bool_decide_eq_false. intros ->. done.
      * apply Hfresh. by right.
Qed.

Lemma check_steps_marked name steps : ∀ m m',
  check_steps name m steps = Ok m' →
  ∀ x, marked m' x = marked m x || bool_decide (x ∈ ids steps).
Proof.
  induction steps as [|step steps IH]; intros m m'; simpl.
  - intros [= <-] x. by rewrite orb_false_r.
  - repeat (case_match; try done). intros Hrec x. rewrite (IH _ _ Hrec), marked_insert.
    destruct (decide (x = ID step)) as [->|Hne].
    + rewrite (bool_decide_eq_true_2 (ID step = ID step)) by done.
      rewrite (bool_decide_eq_true_2 (ID step ∈ ID step :: ids steps)) by left.
      by rewrite orb_true_r.
    + rewrite (bool_decide_eq_false_2 (x = ID step)) by done. simpl.
      f_equal. apply bool_decide_ext. rewrite elem_of_cons. naive_solver.
Qed.

Lemma check_deps_spec name m steps :
  check_deps name m steps = Ok tt ↔
  ∀ step dep, step ∈ steps → dep ∈ Deps step → marked m dep = true.
Proof.
  induction steps as [|step steps IH]; simpl.
  - split; [|done]. intros _ step dep Hs. by apply elem_of_nil in Hs.
  - destruct (List.find _ _) as [dep|] eqn:Hfind.
    + apply find_some in Hfind as [Hin Hm]. split; [done|]. intros H.
      rewrite (H step dep) in Hm; [done|left|by apply list_elem_of_In].
    + rewrite IH. split.
      * intros H s d [->|Hs]%elem_of_cons Hd; [|by eapply H].
        apply list_elem_of_In in Hd.
        pose proof (find_none _ _ Hfind _ Hd) as Hn. by apply negb_false_iff in Hn.
      * intros H s d Hs. apply H. by right.
Qed.

(** *** The [extends] chain *)

Lemma keys_bounded {A} (m : gmap string A) (l : list string) :
  NoDup l → (∀ x, x ∈ l → is_Some (m !! x)) → (length l ≤ size m)%nat.
Proof.
  intros Hnd Hin. rewrite <- (length_map_to_list m), <- (length_fmap fst).
  apply submseteq_length, NoDup_submseteq; [done|].
  intros x [v Hx]%Hin. apply list_elem_of_fmap. exists (x, v). split; [done|].
  by apply elem_of_map_to_list.
Qed.

Section chain.
Variable cfg : Config.

Lemma extends_fun a b c : extends cfg a b → extends cfg a c → b = c.
Proof. intros (p & Hp & <- & _) (q & Hq & <- & _). congruence. Qed.

Lemma tc_extends_inv a y profile :
  Profiles cfg !! a = Some profile → tc (extends cfg) a y →
  Extends profile ≠ "" ∧ (y = Extends profile ∨ tc (extends cfg) (Extends profile) y).
Proof.
  intros Ha Htc. destruct Htc as [a y (q & Hq & <- & Hne)|a z y (q & Hq & <- & Hne) Hzy];
    assert (q = profile) as -> by congruence; auto.
Qed.

Lemma tc_extends_dom a y : tc (extends cfg) a y → is_Some (Profiles cfg !! a).
Proof. destruct 1 as [? ? (q & Hq & _)|? ? ? (q & Hq & _) _]; eauto. Qed.

Lemma checkExtendsCycle_total fuel : ∀ origin profile visited l,
  NoDup l →
  (∀ x, x ∈ l → marked visited x = true ∧ is_Some (Profiles cfg !! x)) →
  (size (Profiles cfg) < length l + fuel)%nat →
  is_Some (checkExtendsCycle fuel origin profile cfg visited).
Proof.
  induction fuel as [|fuel IH]; intros origin profile visited l Hnd Hl Hsz.
  - pose proof (keys_bounded (Profiles cfg) l Hnd (λ x Hx, proj2 (Hl x Hx))). lia.
  - simpl. destruct (decide _); [by eexists|].
    destruct (marked visited (Extends profile)) eqn:Hm; [by eexists|].
    destruct (Profiles cfg !! Extends profile) as [parent|] eqn:Hp; [|by eexists].
    apply (IH _ _ _ (Extends profile :: l)).
    + constructor; [|done]. intros [Hx _]%Hl. congruence.
    + intros x [->|Hx]%elem_of_cons; rewrite marked_insert.
      * by rewrite bool_decide_eq_true_2.
      * destruct (Hl x Hx) as [-> ?]. by rewrite orb_true_r.
    + simpl. lia.
Qed.

Lemma checkExtendsCycle_cycle fuel : ∀ origin cur profile visited o r,
  Profiles cfg !! cur = Some profile →
  (∀ x, marked visited x = true → rtc (extends cfg) x cur) →
  checkExtendsCycle fuel origin profile cfg visited = Some (Err (ErrExtendsCycle o r)) →
  tc (extends cfg) r r.
Proof.
  induction fuel as [|fuel IH]; intros origin cur profile visited o r Hcur Hv; [done|].
  simpl. destruct (decide _) as [|Hne]; [done|].
  assert (Hstep : extends cfg cur (Extends profile)) by (by exists profile).
  destruct (marked visited (Extends profile)) eqn:Hm.
  { intros [= _ <-]. eapply tc_rtc_l; [by apply Hv|by apply tc_once]. }
  destruct (Profiles cfg !! Extends profile) as [parent|] eqn:Hp; [|done].
  apply (IH _ (Extends profile)); [done|].
  intros x. rewrite marked_insert. intros [->%bool_decide_eq_true|Hx]%orb_true_iff; [done|].
  eapply rtc_r; [by apply Hv|done].
Qed.

Lemma checkExtendsCycle_missing fuel : ∀ origin cur profile visited o r,
  Profiles cfg !! cur = Some profile →
  checkExtendsCycle fuel origin profile cfg visited = Some (Err (ErrExtendsMissing o r)) →
  ∃ a pa, Profiles cfg !! a = Some pa ∧ Extends pa = r ∧ r ≠ "" ∧ Profiles cfg !! r = None.
Proof.
  induction fuel as [|fuel IH]; intros origin cur profile visited o r Hcur; [done|].
  simpl. destruct (decide _) as [|Hne]; [done|].
  destruct (marked visited (Extends profile)); [done|].
  destruct (Profiles cfg !! Extends profile) as [parent|] eqn:Hp.
  - by apply (IH _ (Extends profile)).
  - intros [= _ <-]. by exists cur, profile.
Qed.

Lemma checkExtendsCycle_errors fuel : ∀ origin profile visited e,
  checkExtendsCycle fuel origin profile cfg visited = Some (Err e) →
  (∃ o r, e = ErrExtendsCycle o r) ∨ (∃ o r, e = ErrExtendsMissing o r).
Proof.
  induction fuel as [|fuel IH]; intros origin profile visited e; [done|].
  simpl. repeat case_match; try done; try (intros [= <-]; eauto); eauto.
Qed.

Lemma checkExtendsCycle_unmarked fuel : ∀ origin cur profile visited,
  Profiles cfg !! cur = Some profile →
  checkExtendsCycle fuel origin profile cfg visited = Some (Ok tt) →
  ∀ y, tc (extends cfg) cur y → marked visited y = false.
Proof.
  induction fuel as [|fuel IH]; intros origin cur profile visited Hcur; [done|].
  simpl. destruct (decide _) as [He|Hne].
  { intros _ y Htc. by destruct (tc_extends_inv _ _ _ Hcur Htc). }
  destruct (marked visited (Extends profile)) eqn:Hm; [done|].
  destruct (Profiles cfg !! Extends profile) as [parent|] eqn:Hp; [|done].
  intros Hrec y Htc. destruct (tc_extends_inv _ _ _ Hcur Htc) as [_ [->|Hy]]; [done|].
  pose proof (IH _ _ _ _ Hp Hrec y Hy) as Hy'. rewrite marked_insert in Hy'.
  by apply orb_false_iff in Hy' as [_ ?].
Qed.

(** [resolveProfileChain] walks the chain as [checkExtendsCycle] does. *)
Lemma resolveProfileChain_check fuel : ∀ origin profile visited,
  match checkExtendsCycle fuel origin profile cfg visited with
  | None => resolveProfileChain fuel profile cfg visited = None
  | Some (Ok _) => ∃ steps, resolveProfileChain fuel profile cfg visited = Some (Ok steps)
  | Some (Err _) => ∃ e, resolveProfileChain fuel profile cfg visited = Some (Err e)
  end.
Proof.
  induction fuel as [|fuel IH]; intros origin profile visited; [done|].
  simpl. destruct (decide (Extends profile = "")) as [He|Hne].
  { rewrite decide_False by (by intros []). by eexists. }
  rewrite decide_True by done.
  destruct (marked visited (Extends profile)); [by eexists|].
  destruct (Profiles cfg !! Extends profile) as [parent|]; [|by eexists].
  specialize (IH origin parent (<[Extends profile:=true]> visited)).
  destruct (checkExtendsCycle _ _ _ _ _) as [[[]|e]|].
  - destruct IH as [steps ->]. by eexists.
  - destruct IH as [e' ->]. by eexists.
  - by rewrite IH.
Qed.

End chain.

Lemma validateProfile_total cfg name profile :
  is_Some (validateProfile name profile cfg).
Proof.
  unfold validateProfile. destruct (_ && _); [by eexists|].
  destruct (checkExtendsCycle_total cfg (S (size (Profiles cfg))) name profile
              {[name := true]} []) as [[[]|e] ->].
  - constructor.
  - intros x Hx. by apply elem_of_nil in Hx.
  - simpl. lia.
  - destruct (check_steps _ _ _); by eexists.
  - by eexists.
Qed.

Lemma steps_checks name steps :
  (∃ m, check_steps name ∅ steps = Ok m ∧ check_deps name m steps = Ok tt) ↔
  Forall step_ok steps ∧ NoDup (ids steps) ∧
  (∀ step dep, step ∈ steps → dep ∈ Deps step → dep ∈ ids steps).
Proof.
  split.
  - intros (m & Hm & Hd).
    destruct (proj1 (check_steps_spec name steps ∅) (ex_intro _ m Hm)) as (Hok & Hnd & _).
    split; [done|]. split; [done|]. intros step dep Hs Hdep.
    pose proof (proj1 (check_deps_spec name m steps) Hd step dep Hs Hdep) as Hmk.
    rewrite (check_steps_marked _ _ _ _ Hm), marked_empty in Hmk.
    by apply bool_decide_eq_true in Hmk.
  - intros (Hok & Hnd & Hdeps).
    destruct (proj2 (check_steps_spec name steps ∅)) as [m Hm].
    { split; [done|]. split; [done|]. intros. apply marked_empty. }
    exists m. split; [done|]. apply check_deps_spec. intros step dep Hs Hdep.
    rewrite (check_steps_marked _ _ _ _ Hm), marked_empty. simpl.
    apply bool_decide_eq_true. by eapply Hdeps.
Qed.

Lemma validateProfile_Ok cfg name profile :
  Profiles cfg !! name = Some profile →
  validateProfile name profile cfg = Some (Ok tt) →
  profile_ok cfg profile ∧ ¬ tc (extends cfg) name name.
Proof.
  intros Hname. unfold validateProfile.
  destruct (_ && _) eqn:Hpar; [done|].
  destruct (checkExtendsCycle _ _ _ _ _) as [[[]|e]|] eqn:Hcec; [|done..].
  destruct (check_steps _ _ _) as [m|e] eqn:Hm; [|done]. intros [= Hd].
  destruct (proj1 (steps_checks name (Steps profile))) as (Hok & Hnd & Hdeps); [by eauto|].
  split; [split; [|done]|].
  - intros Hne. apply andb_false_iff in Hpar as [Hp|Hp].
    + by rewrite bool_decide_eq_true_2 in Hp.
    + apply bool_decide_eq_false in Hp. by apply not_eq_None_Some.
  - intros Htc. pose proof (checkExtendsCycle_unmarked _ _ _ _ _ _ Hname Hcec _ Htc) as Hmk.
    rewrite marked_singleton in Hmk. by rewrite bool_decide_eq_true_2 in Hmk.
Qed.

Lemma validateProfile_well_formed cfg name profile :
  (∀ n q, Profiles cfg !! n = Some q → profile_ok cfg q) →
  (∀ n, ¬ tc (extends cfg) n n) →
  Profiles cfg !! name = Some profile →
  validateProfile name profile cfg = Some (Ok tt).
Proof.
  intros Hall Hacyc Hname. unfold validateProfile.
  destruct (Hall _ _ Hname) as (Hpar & Hsteps).
  assert (bool_decide (Extends profile ≠ "") &&
          bool_decide (Profiles cfg !! Extends profile = None) = false) as ->.
  { apply andb_false_iff. destruct (decide (Extends profile = "")) as [He|Hne].
    - left. apply bool_decide_eq_false. by intros [].
    - right. apply bool_decide_eq_false. by apply not_eq_None_Some, Hpar. }
  destruct (checkExtendsCycle_total cfg (S (size (Profiles cfg))) name profile
              {[name := true]} []) as [[[]|e] Hcec].
  - constructor.
  - intros x Hx. by apply elem_of_nil in Hx.
  - simpl. lia.
  - rewrite Hcec. destruct (proj2 (steps_checks name (Steps profile)) Hsteps) as (m & -> & ->).
    done.
  - exfalso. destruct (checkExtendsCycle_errors _ _ _ _ _ _ Hcec) as [(o & r & ->)|(o & r & ->)].
    + eapply Hacyc, (checkExtendsCycle_cycle _ _ _ name); [done| |done].
      intros x. rewrite marked_singleton. by intros ->%bool_decide_eq_true.
    + destruct (checkExtendsCycle_missing _ _ _ _ _ _ _ _ Hname Hcec)
        as (a & pa & Ha & <- & Hne & Hnone).
      destruct (Hall _ _ Ha) as (Hpa & _). specialize (Hpa Hne). rewrite Hnone in Hpa.
      by destruct Hpa.
Qed.

Lemma validate_profiles_total cfg entries : is_Some (validate_profiles cfg entries).
Proof.
  induction entries as [|[name profile] entries IH]; simpl; [by eexists|].
  destruct (validateProfile_total cfg name profile) as [[[]|e] ->]; [done|by eexists].
Qed.

Lemma validate_profiles_Ok cfg entries :
  validate_profiles cfg entries = Some (Ok tt) ↔
  Forall (λ e, validateProfile e.1 e.2 cfg = Some (Ok tt)) entries.
Proof.
  induction entries as [|[name profile] entries IH]; simpl.
  - split; [constructor|done].
  - rewrite Forall_cons. simpl. rewrite <- IH.
    destruct (validateProfile name profile cfg) as [[[]|e]|]; naive_solver.
Qed.

Lemma Validate_total range_Profiles cfg : is_Some (Validate range_Profiles cfg).
Proof.
  destruct cfg as [cfg|]; [|by eexists]. unfold Validate.
  repeat (destruct (decide _); [by eexists|]). apply validate_profiles_total.
Qed.

Lemma Validate_Ok_iff range_Profiles cfg :
  range_Profiles (Profiles cfg) ≡ₚ map_to_list (Profiles cfg) →
  Validate range_Profiles (Some cfg) = Some (Ok tt) ↔ well_formed cfg.
Proof.
  intros Hrange. unfold Validate, well_formed.
  destruct (decide (Version cfg ≠ 1)) as [Hv|Hv]; [naive_solver|].
  apply dec_stable in Hv.
  destruct (decide (Name (Project_ cfg) = "")) as [Hn|Hn]; [naive_solver|].
  destruct (decide (size (Profiles cfg) = 0%nat)) as [Hs|Hs].
  { apply map_size_empty_iff in Hs. naive_solver. }
  rewrite validate_profiles_Ok, Hrange, Forall_forall. split.
  - intros Hall.
    assert (Hent : ∀ name profile, Profiles cfg !! name = Some profile →
              profile_ok cfg profile ∧ ¬ tc (extends cfg) name name).
    { intros name profile Hp. apply validateProfile_Ok; [done|].
      apply (Hall (name, profile)). by apply elem_of_map_to_list. }
    split; [done|]. split; [done|]. split; [by rewrite <- map_size_empty_iff|].
    split; [intros name profile Hp; by apply (Hent name profile)|].
    intros name Htc.
    destruct (Profiles cfg !! name) as [profile|] eqn:Hp.
    + by apply (Hent name profile).
    + apply tc_extends_dom in Htc as [q Hq]. congruence.
  - intros (_ & _ & _ & Hall & Hacyc) [name profile] Hin%elem_of_map_to_list. simpl.
    by apply validateProfile_well_formed.
Qed.

(** X2. [Validate] always returns, and whatever the order in which it
    goes through the profiles it returns no error exactly for the
    configurations of version 1 with a project name and at least one
    profile in which every profile extends, if anything, a profile that
    exists, no chain of [extends] comes back to where it started, and the
    steps of each profile have non-empty and pairwise distinct ids, a
    type among shell, plugin and script, a command when of type shell,
    and only dependencies that are ids of steps of the same profile. A
    nil configuration is an error. *)
Theorem Validate_well_formed (range_Profiles : gmap string Profile → list (string * Profile))
    (cfg : Config) :
  range_Profiles (Profiles cfg) ≡ₚ map_to_list (Profiles cfg) →
  is_Some (Validate range_Profiles (Some cfg)) ∧
  (Validate range_Profiles (Some cfg) = Some (Ok tt) ↔ well_formed cfg) ∧
  Validate range_Profiles None = Some (Err ErrNilConfig).
Proof.
  intros Hrange. split; [apply Validate_total|]. split; [by apply Validate_Ok_iff|done].
Qed.

Lemma readme_config_well_formed : well_formed readme_config.
Proof. by apply (Validate_Ok_iff map_to_list). Qed.

Lemma Validate_well_formed_witness :
  Validate map_to_list (Some readme_config) = Some (Ok tt) ∧ well_formed readme_config.
Proof.
  destruct (Validate_well_formed map_to_list readme_config) as (_ & Hiff & _); [done|].
  assert (Hval : Validate map_to_list (Some readme_config) = Some (Ok tt)) by (by vm_compute).
  split; [exact Hval|]. apply Hiff. exact Hval.
Defined.

(** *** Merging the steps of a profile onto those of its parent *)

Lemma merge_step_nil step : merge_step [] step = [step].
Proof. done. Qed.

Lemma merge_step_cons b base step :
  merge_step (b :: base) step =
  if decide (ID b = ID step) then step :: base else b :: merge_step base step.
Proof.
  unfold merge_step. simpl. destruct (decide (ID b = ID step)); [done|].
  destruct (list_find _ base) as [[i x]|]; done.
Qed.

Lemma step_of_cons b steps id :
  step_of (b :: steps) id = if decide (ID b = id) then Some b else step_of steps id.
Proof.
  unfold step_of. simpl. destruct (decide (ID b = id)); [done|].
  by destruct (list_find _ steps) as [[i x]|].
Qed.

Lemma step_of_Some steps id step : step_of steps id = Some step → step ∈ steps ∧ ID step = id.
Proof.
  induction steps as [|b steps IH]; [done|]. rewrite step_of_cons.
  destruct (decide _); [intros [= <-]; split; [left|done]|].
  intros [? ?]%IH. split; [by right|done].
Qed.

Lemma step_of_None steps id : step_of steps id = None ↔ id ∉ ids steps.
Proof.
  induction steps as [|b steps IH]; [split; [by intros _ ?%elem_of_nil|done]|].
  rewrite step_of_cons. unfold ids in *. rewrite fmap_cons, not_elem_of_cons.
  destruct (decide _); naive_solver.
Qed.

Lemma merge_step_ids base step :
  ids (merge_step base step) =
  if decide (ID step ∈ ids base) then ids base else ids base ++ [ID step].
Proof.
  unfold ids. induction base as [|b base IH].
  - rewrite merge_step_nil. rewrite decide_False; [done|]. by intros ?%elem_of_nil.
  - rewrite merge_step_cons. destruct (decide (ID b = ID step)) as [He|Hne].
    + rewrite decide_True by (rewrite fmap_cons, He; left). by rewrite !fmap_cons, He.
    + rewrite !fmap_cons, IH. destruct (decide (ID step ∈ ID <$> base)) as [Hin|Hnin].
      * by rewrite decide_True by (by right).
      * rewrite decide_False; [done|]. rewrite not_elem_of_cons. naive_solver.
Qed.

Lemma merge_step_elem base step x :
  x ∈ merge_step base step → x ∈ base ∨ x = step.
Proof.
  induction base as [|b base IH].
  - rewrite merge_step_nil. intros ->%list_elem_of_singleton. by right.
  - rewrite merge_step_cons. destruct (decide _).
    + intros [->|Hx]%elem_of_cons; [by right|]. left. by right.
    + intros [->|Hx]%elem_of_cons; [left; left|]. destruct (IH Hx); [left; by right|by right].
Qed.

Lemma merge_step_of base step id :
  step_of (merge_step base step) id =
  if decide (ID step = id) then Some step else step_of base id.
Proof.
  induction base as [|b base IH].
  - rewrite merge_step_nil, !step_of_cons. by destruct (decide _).
  - rewrite merge_step_cons. destruct (decide (ID b = ID step)) as [He|Hne].
    + rewrite !step_of_cons. destruct (decide (ID step = id)) as [Hs|Hs]; [done|].
      rewrite decide_False by congruence. done.
    + rewrite !step_of_cons, IH. destruct (decide (ID b = id)) as [Hb|Hb]; [|done].
      rewrite decide_False by congruence. done.
Qed.

Lemma merge_ids_NoDup steps : ∀ base,
  NoDup (ids base) → NoDup (ids (fold_left merge_step steps base)).
Proof.
  induction steps as [|step steps IH]; intros base Hnd; [done|]. simpl. apply IH.
  rewrite merge_step_ids. destruct (decide _) as [|Hnin]; [done|].
  apply NoDup_app. split; [done|]. split; [|apply NoDup_singleton].
  intros x Hx ->%list_elem_of_singleton. done.
Qed.

Lemma merge_ids_prefix steps : ∀ base,
  ids base `prefix_of` ids (fold_left merge_step steps base).
Proof.
  induction steps as [|step steps IH]; intros base; [done|]. simpl.
  etrans; [|apply IH]. rewrite merge_step_ids. destruct (decide _); [done|].
  by apply prefix_app_r.
Qed.

Lemma merge_ids_elem steps : ∀ base id,
  id ∈ ids (fold_left merge_step steps base) ↔ id ∈ ids base ∨ id ∈ ids steps.
Proof.
  induction steps as [|step steps IH]; intros base id; simpl.
  - split; [by left|]. intros [?|Hx]; [done|]. by apply elem_of_nil in Hx.
  - rewrite IH, merge_step_ids, elem_of_cons.
    destruct (decide _) as [Hin|Hnin].
    + split; [naive_solver|]. intros [?|[->|?]]; auto.
    + rewrite elem_of_app, list_elem_of_singleton. naive_solver.
Qed.

Lemma merge_elem steps : ∀ base x,
  x ∈ fold_left merge_step steps base → x ∈ base ∨ x ∈ steps.
Proof.
  induction steps as [|step steps IH]; intros base x; simpl; [by left|].
  intros [[?| ->]%merge_step_elem|?]%IH; [by left|right; left|right; by right].
Qed.

Lemma merge_step_of_fold steps : ∀ base id,
  step_of (fold_left merge_step steps base) id =
  match last (filter (λ step, ID step = id) steps) with
  | Some step => Some step
  | None => step_of base id
  end.
Proof.
  induction steps as [|step steps IH]; intros base id; [done|]. simpl.
  rewrite IH, merge_step_of, filter_cons.
  destruct (decide (ID step = id)) as [He|Hne]; [|done].
  change (step :: filter (λ step0, ID step0 = id) steps)
    with ([step] ++ filter (λ step0, ID step0 = id) steps).
  rewrite last_app. by destruct (last (filter _ steps)).
Qed.

Lemma merge_fresh steps : ∀ base,
  NoDup (ids steps) → (∀ id, id ∈ ids steps → id ∉ ids base) →
  fold_left merge_step steps base = base ++ steps.
Proof.
  induction steps as [|step steps IH]; intros base Hnd Hfresh; simpl.
  - by rewrite app_nil_r.
  - unfold ids in Hnd. rewrite fmap_cons in Hnd. apply NoDup_cons in Hnd as [Hnin Hnd].
    assert (merge_step base step = base ++ [step]) as ->.
    { unfold merge_step. destruct (list_find _ base) as [[i x]|] eqn:Hf; [|done].
      apply list_find_Some in Hf as (Hi & He & _). exfalso.
      apply (Hfresh (ID step)); [left|]. apply list_elem_of_fmap. exists x.
      split; [done|]. by eapply list_elem_of_lookup_2. }
    rewrite IH, <- app_assoc; [done|done|].
    intros id Hid. unfold ids. rewrite fmap_app, elem_of_app.
    intros [?| ->%list_elem_of_singleton]; [|done]. apply (Hfresh id); [by right|done].
Qed.


(** *** [resolveProfileChain] *)

Section resolve.
Variable cfg : Config.

Lemma resolveProfileChain_total fuel origin profile visited :
  is_Some (checkExtendsCycle fuel origin profile cfg visited) →
  is_Some (resolveProfileChain fuel profile cfg visited).
Proof.
  intros [r Hr]. pose proof (resolveProfileChain_check cfg fuel origin profile visited) as H.
  rewrite Hr in H. destruct r as [[]|e]; destruct H as [? ->]; by eexists.
Qed.

(** A successful resolution does not depend on the fuel nor on the
    profiles marked, as long as they allow it. *)
Lemma resolveProfileChain_mono fuel : ∀ fuel' profile visited visited' steps,
  resolveProfileChain fuel profile cfg visited = Some (Ok steps) →
  (fuel ≤ fuel')%nat →
  (∀ x, marked visited' x = true → marked visited x = true) →
  resolveProfileChain fuel' profile cfg visited' = Some (Ok steps).
Proof.
  induction fuel as [|fuel IH]; intros fuel' profile visited visited' steps; [done|].
  intros Hres Hle Hsub. destruct fuel' as [|fuel']; [lia|]. simpl in *.
  destruct (decide (Extends profile ≠ "")) as [Hne|He]; [|done].
  destruct (marked visited (Extends profile)) eqn:Hm; [done|].
  destruct (marked visited' (Extends profile)) eqn:Hm'.
  { apply Hsub in Hm'. congruence. }
  destruct (Profiles cfg !! Extends profile) as [parent|]; [|done].
  destruct (resolveProfileChain fuel parent cfg _) as [[base|e]|] eqn:Hrec; [|done..].
  rewrite (IH fuel' _ _ (<[Extends profile:=true]> visited') _ Hrec); [done|lia|].
  intros x. rewrite !marked_insert. intros [?|?%Hsub]%orb_true_iff; apply orb_true_iff; auto.
Qed.

Lemma resolveProfileChain_unfold fuel profile visited steps :
  resolveProfileChain fuel profile cfg visited = Some (Ok steps) →
  ∃ base, steps = fold_left merge_step (Steps profile) base ∧
    if decide (Extends profile = "") then base = []
    else ∃ fuel' parent, fuel = S fuel' ∧
           marked visited (Extends profile) = false ∧
           Profiles cfg !! Extends profile = Some parent ∧
           resolveProfileChain fuel' parent cfg (<[Extends profile := true]> visited)
             = Some (Ok base).
Proof.
  destruct fuel as [|fuel]; [done|]. simpl.
  destruct (decide (Extends profile = "")) as [He|Hne].
  - rewrite decide_False by (by intros []). intros [= <-]. by exists [].
  - rewrite decide_True by done.
    destruct (marked visited (Extends profile)) eqn:Hm; [done|].
    destruct (Profiles cfg !! Extends profile) as [parent|]; [|done].
    destruct (resolveProfileChain fuel parent cfg _) as [[base|e]|] eqn:Hrec; [|done..].
    intros [= <-]. exists base. split; [done|]. by exists fuel, parent.
Qed.

Lemma resolveProfileChain_ids fuel : ∀ profile visited steps,
  resolveProfileChain fuel profile cfg visited = Some (Ok steps) →
  NoDup (ids steps) ∧ ∀ step, step ∈ Steps profile → ID step ∈ ids steps.
Proof.
  induction fuel as [|fuel IH]; intros profile visited steps Hres; [done|].
  destruct (resolveProfileChain_unfold _ _ _ _ Hres) as (base & -> & Hbase). split.
  - apply merge_ids_NoDup. destruct (decide _).
    + subst base. constructor.
    + destruct Hbase as (fuel' & parent & [= <-] & _ & _ & Hrec). by apply (IH _ _ _ Hrec).
  - intros step Hstep. apply merge_ids_elem. right. apply list_elem_of_fmap. eauto.
Qed.

(** Every step of a resolution is a step of a profile of the
    configuration, all of whose ids the resolution has. *)
Lemma resolveProfileChain_origin fuel : ∀ cur profile visited steps,
  Profiles cfg !! cur = Some profile →
  resolveProfileChain fuel profile cfg visited = Some (Ok steps) →
  ∀ step, step ∈ steps →
    ∃ n q, Profiles cfg !! n = Some q ∧ step ∈ Steps q ∧
           ∀ id, id ∈ ids (Steps q) → id ∈ ids steps.
Proof.
  induction fuel as [|fuel IH]; intros cur profile visited steps Hcur Hres; [done|].
  destruct (resolveProfileChain_unfold _ _ _ _ Hres) as (base & -> & Hbase).
  intros step [Hin|Hin]%merge_elem.
  - destruct (decide _); [subst base; by apply elem_of_nil in Hin|].
    destruct Hbase as (fuel' & parent & [= <-] & _ & Hp & Hrec).
    destruct (IH _ _ _ _ Hp Hrec step Hin) as (n' & q & Hq & Hs & Hids).
    exists n', q. split; [done|]. split; [done|]. intros id Hid.
    apply merge_ids_elem. left. by apply Hids.
  - exists cur, profile. split; [done|]. split; [done|]. intros id Hid.
    apply merge_ids_elem. by right.
Qed.

End resolve.

Lemma ResolveProfile_total cfg name : is_Some (ResolveProfile cfg name).
Proof.
  destruct cfg as [cfg|]; [|by eexists]. unfold ResolveProfile.
  destruct (Profiles cfg !! name) as [profile|]; [|by eexists].
  apply (resolveProfileChain_total cfg _ name).
  apply (checkExtendsCycle_total cfg _ _ _ _ []); [constructor| |simpl; lia].
  intros x Hx. by apply elem_of_nil in Hx.
Qed.

Lemma ResolveProfile_Ok_profile cfg name steps :
  ResolveProfile (Some cfg) name = Some (Ok steps) →
  ∃ profile, Profiles cfg !! name = Some profile.
Proof.
  unfold ResolveProfile. destruct (Profiles cfg !! name) as [profile|]; [eauto|done].
Qed.

(** X3. [ResolveProfile] always returns: an error for a nil configuration
    and for a name that is not a profile's; when it returns steps, their
    ids are pairwise distinct, whether or not the configuration was
    validated, and every id of the named profile's own steps is among
    them. *)
Theorem ResolveProfile_distinct_ids (cfg : option Config) (name : string) :
  is_Some (ResolveProfile cfg name) ∧
  (cfg = None → ResolveProfile cfg name = Some (Err ErrResolveNil)) ∧
  (∀ c, cfg = Some c → Profiles c !! name = None →
        ResolveProfile cfg name = Some (Err (ErrResolveNotFound name))) ∧
  (∀ steps, ResolveProfile cfg name = Some (Ok steps) →
     NoDup (ids steps) ∧
     ∃ c profile, cfg = Some c ∧ Profiles c !! name = Some profile ∧
                  ∀ step, step ∈ Steps profile → ID step ∈ ids steps).
Proof.
  split; [apply ResolveProfile_total|]. split; [by intros ->|].
  split; [by intros c -> Hn; unfold ResolveProfile; rewrite Hn|].
  intros steps. destruct cfg as [c|]; [|done]. unfold ResolveProfile.
  destruct (Profiles c !! name) as [profile|] eqn:Hp; [|done]. intros Hres.
  destruct (resolveProfileChain_ids c _ _ _ _ Hres) as [Hnd Hids].
  split; [done|]. by exists c, profile.
Qed.

Lemma ResolveProfile_well_formed cfg name profile :
  well_formed cfg → Profiles cfg !! name = Some profile →
  ∃ steps, ResolveProfile (Some cfg) name = Some (Ok steps) ∧
    Forall step_ok steps ∧ NoDup (ids steps) ∧
    (∀ step dep, step ∈ steps → dep ∈ Deps step → dep ∈ ids steps).
Proof.
  intros (_ & _ & _ & Hall & Hacyc) Hp. unfold ResolveProfile. rewrite Hp.
  pose proof (validateProfile_well_formed cfg name profile Hall Hacyc Hp) as Hval.
  unfold validateProfile in Hval. destruct (_ && _); [done|].
  pose proof (resolveProfileChain_check cfg (S (size (Profiles cfg))) name profile
                {[name := true]}) as Hchk.
  destruct (checkExtendsCycle _ _ _ _ _) as [[[]|e]|]; [|done..].
  destruct Hchk as [steps Hres]. exists steps. split; [done|].
  destruct (resolveProfileChain_ids cfg _ _ _ _ Hres) as [Hnd _].
  pose proof (resolveProfileChain_origin cfg _ _ _ _ _ Hp Hres) as Horg.
  split; [|split; [done|]].
  - apply Forall_forall. intros step (n & q & Hq & Hs & _)%Horg.
    destruct (Hall _ _ Hq) as (_ & Hok & _). rewrite Forall_forall in Hok. by apply Hok.
  - intros step dep (n & q & Hq & Hs & Hids)%Horg Hdep.
    destruct (Hall _ _ Hq) as (_ & _ & _ & Hdeps). apply Hids. by eapply Hdeps.
Qed.


(** X4. For a configuration that [Validate] accepts, [ResolveProfile]
    succeeds on every profile of the configuration, and the steps it
    returns keep what [Validate] checked profile by profile: valid steps,
    pairwise distinct ids, and dependencies that are ids of the returned
    steps. *)
Theorem ResolveProfile_validated (range_Profiles : gmap string Profile → list (string * Profile))
    (cfg : Config) (name : string) (profile : Profile) :
  range_Profiles (Profiles cfg) ≡ₚ map_to_list (Profiles cfg) →
  Validate range_Profiles (Some cfg) = Some (Ok tt) →
  Profiles cfg !! name = Some profile →
  ∃ steps, ResolveProfile (Some cfg) name = Some (Ok steps) ∧
    Forall step_ok steps ∧ NoDup (ids steps) ∧
    (∀ step dep, step ∈ steps → dep ∈ Deps step → dep ∈ ids steps).
Proof.
  intros Hrange Hval Hp. apply (ResolveProfile_well_formed cfg name profile); [|done].
  by apply (Validate_Ok_iff range_Profiles cfg Hrange).
Qed.

Lemma ResolveProfile_validated_witness :
  ∃ steps, ResolveProfile (Some readme_config) "release" = Some (Ok steps) ∧
           ids steps = ["lint"; "test"; "package"] ∧ NoDup (ids steps).
Proof.
  destruct (ResolveProfile_validated map_to_list readme_config "release" readme_release)
    as (steps & Hres & _ & Hnd & _); [done|by vm_compute|done|].
  exists steps. split; [exact Hres|]. split; [|exact Hnd].
  assert (Hsteps : ResolveProfile (Some readme_config) "release"
                   = Some (Ok [shell "lint" ["bash"; "-lc"; "go fmt ./..."] [];
                               shell "test" ["bash"; "-lc"; "go test -race ./..."] [];
                               shell "package" ["bash"; "-lc"; "go build ./..."] ["test"]]))
    by (by vm_compute).
  rewrite Hres in Hsteps. injection Hsteps as ->. reflexivity.
Defined.

Lemma merge_ids_fresh steps : ∀ base,
  ids (fold_left merge_step steps base) = ids base ++ fresh_ids (ids base) (ids steps).
Proof.
  induction steps as [|step steps IH]; intros base; simpl; [by rewrite app_nil_r|].
  rewrite IH, merge_step_ids. destruct (decide (ID step ∈ ids base)); [done|].
  by rewrite <- app_assoc.
Qed.

Lemma step_of_ids steps :
  NoDup (ids steps) → Forall2 (λ id step, step_of steps id = Some step) (ids steps) steps.
Proof.
  induction steps as [|b steps IH]; intros Hnd; [constructor|].
  unfold ids in Hnd. rewrite fmap_cons in Hnd. apply NoDup_cons in Hnd as [Hb Hnd].
  unfold ids. rewrite fmap_cons. constructor.
  - rewrite step_of_cons. by rewrite decide_True.
  - eapply Forall2_impl; [apply (IH Hnd)|]. intros id step Hof. simpl in Hof.
    rewrite step_of_cons. destruct (decide (ID b = id)) as [<-|]; [|done].
    exfalso. apply Hb. apply step_of_Some in Hof as [Hin <-].
    apply list_elem_of_fmap. eauto.
Qed.

Lemma Forall2_functional {A B : Type} (R : A → B → Prop) (l : list A) (k k' : list B) :
  (∀ a b b', R a b → R a b' → b = b') →
  Forall2 R l k → Forall2 R l k' → k = k'.
Proof.
  intros Hfun Hk. revert k'. induction Hk as [|a b l k Hab Hk IH]; intros k' Hk'.
  - by apply Forall2_nil_inv_l in Hk'.
  - apply Forall2_cons_inv_l in Hk' as (b' & k'' & Hab' & Hk'' & ->).
    f_equal; [by eapply Hfun|by apply IH].
Qed.

(** X5. The steps [ResolveProfile] returns for a profile are those of the
    profile it extends (none if it extends nothing), resolved in the same
    way, with the profile's own steps merged onto them, and no other
    list: the ids are those of the parent's resolution, in their order,
    followed by the ids that only the profile has, in the order in which
    they first occur in it; and at each id stands the last step of the
    profile with that id, if there is one, and else the step of the
    parent's resolution with that id. So every returned step is a step
    of the parent's resolution or of the profile, and a profile that
    extends nothing and whose ids are distinct resolves to its own
    steps. *)
Theorem ResolveProfile_extends (cfg : Config) (name : string) (profile : Profile)
    (steps : list Step) :
  Profiles cfg !! name = Some profile →
  ResolveProfile (Some cfg) name = Some (Ok steps) →
  ∃ base,
    (if decide (Extends profile = "") then base = []
     else ResolveProfile (Some cfg) (Extends profile) = Some (Ok base)) ∧
    ids steps = ids base ++ fresh_ids (ids base) (ids (Steps profile)) ∧
    Forall2 (λ id step, merged_step (Steps profile) base id = Some step) (ids steps) steps ∧
    (∀ steps',
       ids steps' = ids base ++ fresh_ids (ids base) (ids (Steps profile)) →
       Forall2 (λ id step, merged_step (Steps profile) base id = Some step)
               (ids steps') steps' →
       steps' = steps) ∧
    ids base `prefix_of` ids steps ∧
    (∀ step, step ∈ steps → step ∈ base ∨ step ∈ Steps profile) ∧
    (∀ id, step_of steps id = merged_step (Steps profile) base id) ∧
    (Extends profile = "" → NoDup (ids (Steps profile)) → steps = Steps profile).
Proof.
  intros Hp. unfold ResolveProfile at 1. rewrite Hp. intros Hres.
  pose proof (resolveProfileChain_ids _ _ _ _ _ Hres) as [Hnd _].
  destruct (resolveProfileChain_unfold _ _ _ _ _ Hres) as (base & -> & Hbase).
  assert (Hall : Forall2 (λ id step, merged_step (Steps profile) base id = Some step)
                   (ids (fold_left merge_step (Steps profile) base))
                   (fold_left merge_step (Steps profile) base)).
  { eapply Forall2_impl; [apply (step_of_ids _ Hnd)|]. intros id step Hof. simpl in Hof.
    unfold merged_step. by rewrite <- merge_step_of_fold. }
  exists base. split; [|split; [apply merge_ids_fresh|split; [exact Hall|split;
    [|split; [apply merge_ids_prefix|split; [apply merge_elem|split]]]]]].
  - destruct (decide _); [done|].
    destruct Hbase as (fuel' & parent & [= <-] & _ & Hparent & Hrec).
    unfold ResolveProfile. rewrite Hparent.
    apply (resolveProfileChain_mono _ _ _ _ _ _ _ Hrec); [lia|].
    intros x. rewrite marked_singleton, marked_insert. intros ->. done.
  - intros steps' Hids Hall'. rewrite <- merge_ids_fresh in Hids.
    rewrite Hids in Hall'.
    eapply Forall2_functional; [|exact Hall'|exact Hall].
    intros id b b' Hb Hb'. congruence.
  - intros id. apply merge_step_of_fold.
  - intros He Hnd'. rewrite decide_True in Hbase by done. subst base.
    rewrite merge_fresh; [done|done|]. intros id _ Hid. by apply elem_of_nil in Hid.
Qed.

Lemma ResolveProfile_extends_witness :
  ∃ base steps,
    ResolveProfile (Some readme_config) "default" = Some (Ok base) ∧
    ResolveProfile (Some readme_config) "release" = Some (Ok steps) ∧
    ids base = ["lint"; "test"] ∧
    ids steps = ["lint"; "test"; "package"] ∧
    step_of steps "test" = Some (shell "test" ["bash"; "-lc"; "go test -race ./..."] []) ∧
    step_of steps "lint" = step_of base "lint".
Proof.
  assert (Hres : ∃ steps, ResolveProfile (Some readme_config) "release" = Some (Ok steps))
    by (eexists; by vm_compute).
  destruct Hres as [steps Hres].
  destruct (ResolveProfile_extends readme_config "release" readme_release steps)
    as (base & Hbase & Hids & _ & _ & _ & _ & Hof & _); [done|exact Hres|].
  simpl in Hbase.
  assert (Hb : base = [shell "lint" ["bash"; "-lc"; "go fmt ./..."] [];
                       shell "test" ["bash"; "-lc"; "go test ./..."] ["lint"]]).
  { vm_compute in Hbase. by injection Hbase as <-. }
  exists base, steps. split; [exact Hbase|]. split; [exact Hres|].
  split; [by rewrite Hb|]. split; [rewrite Hids, Hb; by vm_compute|].
  split; [by rewrite (Hof "test")|].
  rewrite (Hof "lint"). unfold merged_step. by rewrite Hb.
Defined.


End config_theorems.

(** ** From the configuration to the plan *)

Section pipeline.

Lemma to_PlanStep_ids steps : Plan.ids (Plan.to_PlanStep <$> steps) = Config.ids steps.
Proof. unfold Plan.ids, Config.ids. rewrite <- list_fmap_compose. done. Qed.

Lemma to_PlanStep_resolved steps :
  Plan.resolved (Plan.to_PlanStep <$> steps) ↔
  ∀ step dep, step ∈ steps → dep ∈ Config.Deps step → dep ∈ Config.ids steps.
Proof.
  unfold Plan.resolved. rewrite to_PlanStep_ids. split.
  - intros H step dep Hs Hd. apply (H (Plan.to_PlanStep step)); [|done].
    apply list_elem_of_fmap. eauto.
  - intros H st dep (step & -> & Hs)%list_elem_of_fmap Hd. by apply (H step).
Qed.

Lemma stepMap_snoc (steps : list Plan.PlanStep) st :
  Exec.stepMap (steps ++ [st]) = <[Plan.ID st := st]> (Exec.stepMap steps).
Proof. unfold Exec.stepMap. by rewrite fold_left_app. Qed.

Lemma stepMap_Some (steps : list Plan.PlanStep) id st :
  Exec.stepMap steps !! id = Some st → st ∈ steps ∧ Plan.ID st = id.
Proof.
  revert st. induction steps as [|st0 steps IH] using rev_ind; intros st.
  - unfold Exec.stepMap. simpl. by rewrite lookup_empty.
  - rewrite stepMap_snoc. destruct (decide (Plan.ID st0 = id)) as [<-|Hne].
    + rewrite lookup_insert_eq. intros [= <-]. split; [|done]. apply elem_of_app. right. left.
    + rewrite lookup_insert_ne by done. intros [? ?]%IH. split; [|done].
      apply elem_of_app. by left.
Qed.

Lemma stepMap_None (steps : list Plan.PlanStep) id :
  Exec.stepMap steps !! id = None → id ∉ Plan.ids steps.
Proof.
  induction steps as [|st0 steps IH] using rev_ind.
  - intros _. apply not_elem_of_nil.
  - rewrite stepMap_snoc. unfold Plan.ids. rewrite fmap_app. simpl.
    destruct (decide (Plan.ID st0 = id)) as [<-|Hne].
    + by rewrite lookup_insert_eq.
    + rewrite lookup_insert_ne by done. intros Hn%IH.
      rewrite elem_of_app. intros [?|?%list_elem_of_singleton]; [done|congruence].
Qed.

Lemma policy_violation_None policy steps :
  Main.policy_violation policy steps = None ↔
  Forall (λ s, Config.Type_ s = "script" → Policy.AllowScriptSteps policy = true) steps.
Proof.
  induction steps as [|s steps IH]; simpl; [split; [constructor|done]|].
  rewrite Forall_cons, <- IH. unfold Policy.ValidateStep.
  destruct (decide (Config.Type_ s = "script")) as [He|Hne].
  - rewrite bool_decide_eq_true_2 by done. destruct (Policy.AllowScriptSteps policy); naive_solver.
  - rewrite bool_decide_eq_false_2 by done. naive_solver.
Qed.

Lemma launch_order_in_steps p opts mkdir e :
  (∀ id, id ∈ Plan.Order p → id ∈ Plan.ids (Plan.Steps p)) →
  Exec.launch (Some p) opts mkdir = Exec.Failed e → ∃ msg, e = Exec.ErrCreateOutDir msg.
Proof.
  intros Hin. unfold Exec.launch.
  destruct (if decide (Exec.OutDir opts ≠ "") then mkdir else None) as [msg|].
  { intros [= <-]. eauto. }
  destruct (decide _); [done|].
  destruct (List.find _ _) as [id|] eqn:Hfind; [|done].
  apply find_some in Hfind as [Hid%list_elem_of_In Hnone%bool_decide_eq_true].
  apply stepMap_None in Hnone. by apply Hin in Hid.
Qed.

(** X6. Whatever the configuration file holds, a plan that [cmdPlan] and
    [cmdRun] get from [plan.Build] is built as follows: the file is
    read, its bytes decode to a configuration that [Validate] accepts,
    [ResolveProfile] returns the steps of the profile asked for, the file
    is read a second time, [ValidateStep] of the policy of that
    configuration accepts every step, and [TopologicalSort] orders them;
    the plan carries the project name, the profile name, the hash of the
    bytes of the second read, these steps and that order. Hence the
    configuration is well formed, the profile exists and has a non-empty
    name, the steps are valid and of type script only if the policy
    allows script steps, the order lists the ids of the steps once each,
    every step after its dependencies, and [Execute] on that plan can
    return no error other than that of creating the output directory. *)
Theorem planned_well_formed {W : Type} (env : Main.Env W)
    (configPath profileName : string) (w w' : W) (p : Plan.Plan) :
  (∀ m, Main.range_Profiles env m ≡ₚ map_to_list m) →
  Main.planned env configPath profileName w = (Some (Ok p), w') →
  ∃ data w1 cfg steps configData order,
    Main.os_ReadFile env configPath w = (Ok data, w1) ∧
    Main.yaml_Decode env data = Ok cfg ∧
    Config.Validate (Main.range_Profiles env) (Some cfg) = Some (Ok tt) ∧
    Config.ResolveProfile (Some cfg) profileName = Some (Ok steps) ∧
    Main.os_ReadFile env configPath w1 = (Ok configData, w') ∧
    Forall (λ s, Policy.ValidateStep (Config.Policy_ cfg) (Config.Type_ s) (Config.ID s) = None)
           steps ∧
    Plan.TopologicalSort (Plan.to_PlanStep <$> steps) = Some (Ok order) ∧
    p = Plan.mkPlan 1 (Config.Name (Config.Project_ cfg)) profileName
                    (Util.hashBytes configData) (Main.time_Now env w')
                    (Plan.to_PlanStep <$> steps) order ∧
    Config.well_formed cfg ∧
    is_Some (Config.Profiles cfg !! profileName) ∧
    profileName ≠ "" ∧
    Forall Config.step_ok steps ∧
    Forall (λ s, Config.Type_ s = "script" →
                 Policy.AllowScriptSteps (Config.Policy_ cfg) = true) steps ∧
    NoDup (Plan.Order p) ∧
    Plan.Order p ≡ₚ Plan.ids (Plan.Steps p) ∧
    Plan.linearizes (Plan.Order p) (Plan.Steps p) ∧
    ∀ opts mkdir e, Exec.launch (Some p) opts mkdir = Exec.Failed e →
                    ∃ msg, e = Exec.ErrCreateOutDir msg.
Proof.
  intros Hrange. unfold Main.planned, Main.loadAndResolve, Config.Load, Config.RawBytes.
  destruct (Main.os_ReadFile env configPath w) as [[data|e] w1] eqn:Hread; [|done].
  unfold Config.LoadFromBytes.
  destruct (Main.yaml_Decode env data) as [cfg|e] eqn:Hdec; [|done].
  destruct (Config.Validate _ _) as [[[]|e]|] eqn:Hval; [|done..].
  pose proof (proj1 (Validate_Ok_iff _ _ (Hrange _)) Hval) as Hwf.
  destruct (Config.ResolveProfile _ _) as [[steps|e]|] eqn:Hres; [|done..].
  destruct (Main.os_ReadFile env configPath w1) as [[configData|e] w2] eqn:Hraw; [|done].
  destruct (Main.policy_violation _ _) eqn:Hpol; [done|].
  assert (Hpolicy : Forall (λ s, Policy.ValidateStep (Config.Policy_ cfg) (Config.Type_ s)
                                   (Config.ID s) = None) steps).
  { clear -Hpol. induction steps as [|s steps IH]; [constructor|]. simpl in Hpol.
    destruct (Policy.ValidateStep _ _ _) eqn:Hv; [done|]. constructor; [done|by apply IH]. }
  apply policy_violation_None in Hpol.
  unfold Plan.Build. destruct (decide _); [done|]. destruct (decide _) as [|Hname]; [done|].
  destruct (Plan.TopologicalSort _) as [[order|e]|] eqn:Hsort; [|done..].
  intros Heq.
  assert (w2 = w') as -> by congruence.
  assert (p = Plan.mkPlan 1 (Config.Name (Config.Project_ cfg)) profileName
    (Hex.EncodeToString (SHA256.Sum256 configData)) (Main.time_Now env w')
    (Plan.to_PlanStep <$> steps) order) as -> by congruence. clear Heq.
  destruct (TopologicalSort_Ok_wf _ _ Hsort) as (Hnd & Hperm & Hlin & _).
  destruct (ResolveProfile_Ok_profile _ _ _ Hres) as [profile Hp].
  destruct (ResolveProfile_well_formed cfg profileName profile Hwf Hp)
    as (steps' & Hres' & Hstepok & _).
  rewrite Hres in Hres'. injection Hres' as <-.
  exists data, w1, cfg, steps, configData, order.
  do 16 (split; [done || by eexists|]).
  intros opts mkdir e. apply launch_order_in_steps. simpl. intros id. by rewrite Hperm.
Qed.

Lemma planned_well_formed_witness :
  ∃ p, (Main.planned Main.readme_env ".foundry.yaml" "release" (Some [])).1 = Some (Ok p) ∧
       Plan.Order p = ["lint"; "test"; "package"] ∧
       NoDup (Plan.Order p) ∧ Plan.linearizes (Plan.Order p) (Plan.Steps p) ∧
       Plan.ConfigHash p = Util.hashBytes [].
Proof.
  assert (Hplan : ∃ p, Main.planned Main.readme_env ".foundry.yaml" "release" (Some [])
                       = (Some (Ok p), Some []) ∧
                       Plan.Order p = ["lint"; "test"; "package"]).
  { vm_compute. eexists. split; reflexivity. }
  destruct Hplan as (p & Hplan & Horder).
  destruct (planned_well_formed Main.readme_env ".foundry.yaml" "release" (Some []) (Some []) p)
    as (data & w1 & cfg & steps & configData & order & Hread & _ & _ & _ & Hraw & _ & _ & Hp &
        _ & _ & _ & _ & _ & Hnd & _ & Hlin & _);
    [done|exact Hplan|].
  exists p. split; [by rewrite Hplan|]. split; [exact Horder|]. split; [exact Hnd|].
  split; [exact Hlin|].
  assert (configData = []) as ->.
  { simpl in Hread. injection Hread as _ <-. simpl in Hraw. by injection Hraw as <-. }
  by rewrite Hp.
Defined.



End pipeline.

(** ** More on the step runner *)

Section runner_more.
Import Exec.
Context {W : Type} (sys : Sys W).
Implicit Types (step : Step) (opts : Options) (w : W).

(** What an attempt returns besides its status. *)
Lemma executeStepAttempt_fields step opts attempt w :
  let r := (executeStepAttempt sys step opts attempt w).1 in
  Duration r = 0 ∧
  (Status r = "success" → ExitCode r = 0 ∧ Error r = "") ∧
  (OutDir opts = "" → LogFile r = "") ∧
  (LogFile r = "" ∨
   LogFile r = filepath_Join sys (OutDir opts) (logFileName (Plan.ID step) attempt)) ∧
  (Status r = "success" → OutDir opts ≠ "" →
   LogFile r = filepath_Join sys (OutDir opts) (logFileName (Plan.ID step) attempt)).
Proof.
  unfold executeStepAttempt.
  destruct (decide (Plan.Type_ step ≠ "shell")); [simpl; split_and!; intros; by auto|].
  destruct (decide (length (Plan.Command step) = 0%nat)); [simpl; split_and!; intros; by auto|].
  unfold create_log. destruct (decide (OutDir opts ≠ "")) as [Hout|Hout].
  - destruct (os_Create _ _ _) as [[err|] w1]; simpl; [split_and!; intros; by auto|].
    destruct (step_timeout _ _ _) as [timeout|err]; simpl; [|split_and!; intros; by auto].
    destruct (cmd_Run _ _ _) as [[| |] w2]; simpl; split_and!; intros; by auto.
  - apply dec_stable in Hout. simpl.
    destruct (step_timeout _ _ _) as [timeout|err]; simpl; [|split_and!; intros; by auto].
    destruct (cmd_Run _ _ _) as [[| |] w2]; simpl; split_and!; intros; by auto.
Qed.

Lemma maxAttempts_ge step : 1 ≤ maxAttempts step.
Proof. unfold maxAttempts. case_decide; lia. Qed.

Lemma maxAttempts_overflow step : Plan.Retries step = 2 ^ 63 - 1 → maxAttempts step = 1.
Proof. intros Hr. unfold maxAttempts. rewrite Hr. by vm_compute. Qed.

Lemma executeStep_shape step opts w :
  let r := (executeStep sys step opts w).1 in
  ID r = Plan.ID step ∧
  (Status r = "failed" ∨ Status r = "success") ∧
  1 ≤ Attempt r ≤ maxAttempts step ∧
  (Status r = "success" → ExitCode r = 0 ∧ Error r = "") ∧
  (OutDir opts = "" → LogFile r = "") ∧
  (LogFile r = "" ∨
   LogFile r = filepath_Join sys (OutDir opts) (logFileName (Plan.ID step) (Attempt r))) ∧
  (Status r = "success" → OutDir opts ≠ "" →
   LogFile r = filepath_Join sys (OutDir opts) (logFileName (Plan.ID step) (Attempt r))).
Proof.
  unfold executeStep.
  destruct (attempt_loop_last sys step opts (time_Now sys w)
              (Z.to_nat (maxAttempts step - 1)) 1 w) as (lst & Hlast & ->).
  simpl. rewrite last_lookup in Hlast.
  pose proof (attempt_log_length sys step opts (Z.to_nat (maxAttempts step - 1)) 1 w) as Hlen.
  pose proof (maxAttempts_ge step) as Hge.
  apply attempt_log_lookup in Hlast as [Hn Hcall].
  pose proof (executeStepAttempt_shape sys step opts (at_number lst) (at_before lst))
    as (Hid & Hatt & Hst).
  pose proof (executeStepAttempt_fields step opts (at_number lst) (at_before lst))
    as (_ & Hok & Hnolog & Hlog & Hlogok).
  rewrite Hcall in Hid, Hatt, Hst, Hok, Hnolog, Hlog, Hlogok. simpl in *.
  rewrite Hatt.
  assert (Hrange : 1 ≤ at_number lst ≤ maxAttempts step) by lia.
  done.
Qed.

(** X8. Whatever the world and the step, [executeStep] returns a result
    that carries the id of the step, is failed or successful, and reports
    an attempt between 1 and the number of attempts allowed; a successful
    result has exit code 0 and no error text; the log file it names, if
    any, is that of the reported attempt, [<id>.<attempt>.log] under the
    output directory, it names none when there is no output directory,
    and a successful result names one when there is. The attempt is at
    most [Retries + 1] (1 for a negative budget), and exactly 1 for the
    budget [2^63 - 1], whose increment wraps around. *)
Theorem executeStep_result (step : Step) (opts : Options) (w : W) :
  let r := (executeStep sys step opts w).1 in
  ID r = Plan.ID step ∧
  (Status r = "failed" ∨ Status r = "success") ∧
  1 ≤ Attempt r ≤ maxAttempts step ∧
  (Status r = "success" → ExitCode r = 0 ∧ Error r = "") ∧
  (OutDir opts = "" → LogFile r = "") ∧
  (LogFile r = "" ∨
   LogFile r = filepath_Join sys (OutDir opts) (logFileName (Plan.ID step) (Attempt r))) ∧
  (Status r = "success" → OutDir opts ≠ "" →
   LogFile r = filepath_Join sys (OutDir opts) (logFileName (Plan.ID step) (Attempt r))) ∧
  (- 2 ^ 63 ≤ Plan.Retries step < 2 ^ 63 - 1 →
   Attempt r ≤ Z.max (Plan.Retries step + 1) 1) ∧
  (Plan.Retries step = 2 ^ 63 - 1 → Attempt r = 1).
Proof.
  destruct (executeStep_shape step opts w) as (Hid & Hst & Hrange & Hok & Hno & Hlog & Hlogok).
  simpl. do 7 (split; [done|]). split.
  - intros Hr. destruct (maxAttempts_max step) as [_ Hmax]; [lia|]. rewrite <- Hmax; lia.
  - intros Hr. rewrite (maxAttempts_overflow step Hr) in Hrange. lia.
Qed.

(** The loop when no attempt succeeds and none leaves the context
    cancelled: it goes through all its passes. *)
Lemma attempt_loop_live step opts stepStart k : ∀ attempt w,
  (∀ a w0, Status (executeStepAttempt sys step opts a w0).1 = "failed") →
  Forall (λ a, ctx_Err sys (at_after a) = false) (attempt_log sys step opts k attempt w) →
  let r := (attempt_loop sys step opts stepStart k attempt w).1 in
  Status r = "failed" ∧ Attempt r = attempt + Z.of_nat k.
Proof.
  induction k as [|k IH]; intros attempt w Hfail;
    rewrite attempt_loop_unfold, attempt_log_unfold; simpl;
    pose proof (Hfail attempt w) as Hst;
    pose proof (executeStepAttempt_shape sys step opts attempt w) as (_ & Hatt & _);
    rewrite Hst; simpl;
    destruct (ctx_Err sys (executeStepAttempt sys step opts attempt w).2) eqn:Hctx.
  - intros Hlive%Forall_cons_1. simpl in Hlive. destruct Hlive; congruence.
  - intros _. split; [done|]. simpl. simpl in Hatt. lia.
  - intros Hlive%Forall_cons_1. simpl in Hlive. destruct Hlive; congruence.
  - intros [_ Hlive]%Forall_cons_1.
    destruct (IH (attempt + 1)
               (retry_pause sys (executeStepAttempt sys step opts attempt w).2) Hfail Hlive)
      as [Hs Ha].
    split; [done|]. rewrite Ha. lia.
Qed.

(** X9. A shell step with a command whose timeout is not empty and does
    not parse fails at every attempt with exit code 0, without its
    command being handed to [cmd.Run()]: all the attempt asks of the
    world is the creation of its log file, which comes before the
    timeout is parsed. Its error is "invalid timeout: ..." with the log
    file named, or "create log file: ..." when that creation fails.
    [executeStep] returns failed for such a step: after all the attempts
    allowed when none of them leaves the context cancelled, and after
    the first when that one does. *)
Theorem executeStep_invalid_timeout (step : Step) (opts : Options) (e : string) :
  Plan.Type_ step = "shell" → Plan.Command step ≠ [] →
  Plan.Timeout step ≠ "" →
  time_ParseDuration sys (Plan.Timeout step) = Err e →
  (∀ attempt w,
     let a := executeStepAttempt sys step opts attempt w in
     Status a.1 = "failed" ∧ ExitCode a.1 = 0 ∧
     a.2 = (create_log sys step opts attempt w).2 ∧
     match (create_log sys step opts attempt w).1 with
     | (Some err, _) => Error a.1 = "create log file: " +:+ err ∧ LogFile a.1 = ""
     | (None, logFile) => Error a.1 = "invalid timeout: " +:+ e ∧
                          LogFile a.1 = default "" logFile
     end) ∧
  (∀ w, Status (executeStep sys step opts w).1 = "failed") ∧
  (∀ w, Forall (λ a, ctx_Err sys (at_after a) = false) (executeStep_log sys step opts w) →
        Attempt (executeStep sys step opts w).1 = maxAttempts step) ∧
  (∀ w, ctx_Err sys (create_log sys step opts 1 w).2 = true →
        Attempt (executeStep sys step opts w).1 = 1).
Proof.
  intros Htype Hcmd Htimeout Hparse.
  assert (Hattempt : ∀ attempt w,
     let a := executeStepAttempt sys step opts attempt w in
     Status a.1 = "failed" ∧ ExitCode a.1 = 0 ∧
     a.2 = (create_log sys step opts attempt w).2 ∧
     match (create_log sys step opts attempt w).1 with
     | (Some err, _) => Error a.1 = "create log file: " +:+ err ∧ LogFile a.1 = ""
     | (None, logFile) => Error a.1 = "invalid timeout: " +:+ e ∧
                          LogFile a.1 = default "" logFile
     end).
  { intros attempt w. unfold executeStepAttempt.
    rewrite decide_False by (by intros []).
    rewrite decide_False by (by destruct (Plan.Command step)).
    destruct (create_log sys step opts attempt w) as [[[err|] logFile] w1]; simpl; [done|].
    unfold step_timeout. rewrite decide_True by done. rewrite Hparse. done. }
  split; [exact Hattempt|]. split; [|split].
  - intros w. destruct (executeStep_status sys step opts w) as [_ [Hs|Hs]]; [done|].
    exfalso. revert Hs. unfold executeStep.
    destruct (attempt_loop_last sys step opts (time_Now sys w)
                (Z.to_nat (maxAttempts step - 1)) 1 w) as (lst & Hlast & ->).
    simpl. rewrite last_lookup in Hlast. apply attempt_log_lookup in Hlast as [_ Hcall].
    destruct (Hattempt (at_number lst) (at_before lst)) as [Hst _].
    rewrite Hcall in Hst. simpl in Hst. by rewrite Hst.
  - intros w Hlive. unfold executeStep.
    destruct (attempt_loop_live step opts (time_Now sys w)
                (Z.to_nat (maxAttempts step - 1)) 1 w) as [_ ->]; [|done|].
    + intros a w0. by destruct (Hattempt a w0).
    + pose proof (maxAttempts_ge step). lia.
  - intros w Hctx. unfold executeStep. rewrite attempt_loop_unfold.
    destruct (Hattempt 1 w) as (Hst & _ & Hw & _). simpl in Hst, Hw.
    simpl. rewrite Hst, Hw, Hctx. simpl.
    pose proof (executeStepAttempt_shape sys step opts 1 w) as (_ & Hatt & _). done.
Qed.

End runner_more.

Section runner_examples.
Import Exec.

Lemma executeStep_invalid_timeout_witness :
  let opts := skip_opts 1 false in
  Error (executeStepAttempt script_sys hasty opts 1 ok_world).1
  = "invalid timeout: time: invalid duration " +:+ Time.quote "soon" ∧
  ran (executeStepAttempt script_sys hasty opts 1 ok_world).2 = [] ∧
  Status (executeStep script_sys hasty opts ok_world).1 = "failed" ∧
  Attempt (executeStep script_sys hasty opts ok_world).1 = 3 ∧
  Attempt (executeStep script_sys hasty opts cancelled_world).1 = 1.
Proof.
  intros opts.
  destruct (executeStep_invalid_timeout script_sys hasty opts
              ("time: invalid duration " +:+ Time.quote "soon"))
    as (Hatt & Hst & Hlive & Hcan); [done|done|done|by vm_compute|].
  destruct (Hatt 1 ok_world) as (_ & _ & Hw & Herr).
  split; [by destruct Herr|]. split; [by rewrite Hw|]. split; [apply Hst|].
  split.
  - rewrite Hlive; [by vm_compute|]. vm_compute. repeat constructor.
  - apply Hcan. by vm_compute.
Defined.

End runner_examples.

(** ** More on the scheduler *)

Section scheduler_more.
Import Exec.
Context {W : Type} (sys : Sys W) (p : Plan.Plan) (opts : Options).

Lemma run_app acts1 acts2 s :
  run sys p opts (acts1 ++ acts2) s = run sys p opts acts1 s ≫= run sys p opts acts2.
Proof.
  revert s. induction acts1 as [|a acts1 IH]; intros s; simpl; [done|].
  destruct (fire sys p opts a s) as [s1|]; simpl; [apply IH|done].
Qed.

Lemma reachable_run acts s s' :
  reachable sys p opts s → run sys p opts acts s = Some s' → reachable sys p opts s'.
Proof.
  intros [acts0 H0] Hrun. exists (acts0 ++ acts). rewrite run_app, H0. done.
Qed.

(** A property of the start that every action keeps holds after every run. *)
Lemma run_invariant (I : state → Prop) :
  (∀ a s s', I s → fire sys p opts a s = Some s' → I s') →
  ∀ acts s s', I s → run sys p opts acts s = Some s' → I s'.
Proof.
  intros Hstep acts. induction acts as [|a acts IH]; intros s s' Hs; simpl;
    [by intros [= <-]|].
  destruct (fire sys p opts a s) as [s1|] eqn:Hfire; [|done]. simpl.
  apply IH. by eapply Hstep.
Qed.

Lemma results_grow_fire a s s' k :
  fire sys p opts a s = Some s' → is_Some (results s !! k) → is_Some (results s' !! k).
Proof.
  intros [[-> ->]|(i & id & step & c & c' & s1 & _ & _ & _ & _ & Htf & ->)]%fire_Some Hk;
    [done|]. simpl.
  destruct (task_fire_results sys opts _ _ _ _ _ _ _ Htf) as [[->|[r ->]] _]; [done|].
  destruct (decide (id = k)) as [->|Hne]; [rewrite lookup_insert_eq; by eexists|].
  by rewrite lookup_insert_ne.
Qed.

(** *** Dependencies first *)

Lemma task_fire_past_poll id step a c s c' s1 :
  task_fire sys opts id step a c s = Some (c', s1) →
  past_poll c' = true →
  past_poll c = true ∨ forallb (is_complete s) (Plan.Deps step) = true.
Proof.
  destruct a, c; simpl; intros H; repeat case_match; simplify_eq/=; auto.
Qed.

Lemma dep_inv_init : dep_inv p (init p).
Proof. intros i id step c _ _ Hc. simpl in Hc. by apply lookup_replicate in Hc as [-> _]. Qed.

Lemma dep_inv_fire a s s' : dep_inv p s → fire sys p opts a s = Some s' → dep_inv p s'.
Proof.
  intros Hinv Hfire. pose proof (λ k, results_grow_fire a s s' k Hfire) as Hgrow.
  apply fire_Some in Hfire
    as [[-> ->]|(i & id & step & c & c' & s1 & _ & Hid & Hstep & Hc & Htf & ->)]; [done|].
  pose proof (task_fire_tasks sys opts _ _ _ _ _ _ _ Htf) as Ht.
  intros j idj stepj cj Hj Hstepj Hcj Hpast d Hd. simpl in Hcj. rewrite Ht in Hcj.
  apply Hgrow. destruct (decide (j = i)) as [->|Hne].
  - rewrite list_lookup_insert_eq in Hcj by (by eapply lookup_lt_Some). simplify_eq.
    assert (stepj = step) as ->
      by (apply (inj Some); etrans; [symmetry; exact Hstepj|exact Hstep]).
    destruct (task_fire_past_poll _ _ _ _ _ _ _ Htf Hpast) as [Hc0|Hall].
    + by eapply Hinv.
    + rewrite forallb_forall in Hall. apply list_elem_of_In in Hd.
      by apply Hall, bool_decide_eq_true in Hd.
  - rewrite list_lookup_insert_ne in Hcj by done. by eapply Hinv.
Qed.

(** X10. In every state [Execute] can reach, a goroutine that has left its
    polling loop (it stands at the check of failed dependencies, at the
    skip, in [executeStep] or at the writes that follow) has a result
    recorded for every dependency of its step; so [executeStep] starts
    only for a step whose dependencies all have a result. A result, once
    recorded, is there in every later state. *)
Theorem run_after_dependencies (s : state) (i : nat) (id : string) (step : Step) :
  reachable sys p opts s →
  Plan.Order p !! i = Some id →
  stepMap (Plan.Steps p) !! id = Some step →
  (∀ c, tasks s !! i = Some c → past_poll c = true →
        ∀ d, d ∈ Plan.Deps step → is_Some (results s !! d)) ∧
  (∀ w s', fire sys p opts (ARun i w) s = Some s' →
           ∀ d, d ∈ Plan.Deps step → is_Some (results s !! d)) ∧
  (∀ acts s' d, run sys p opts acts s = Some s' →
                is_Some (results s !! d) → is_Some (results s' !! d)).
Proof.
  intros [acts Hrun] Hid Hstep.
  pose proof (run_invariant (dep_inv p) dep_inv_fire acts _ _ dep_inv_init Hrun) as Hinv.
  split; [|split].
  - intros c Hc Hpast. by eapply Hinv.
  - intros w s' Hfire.
    apply fire_Some in Hfire
      as [[? _]|(j & idj & stepj & c & c' & s1 & Hact & Hj & Hstepj & Hc & Htf & _)]; [done|].
    simpl in Hact. simplify_eq. destruct c; try done. by eapply (Hinv _ _ _ AtRun).
  - intros acts' s' d Hrun'.
    apply (run_invariant (λ s0, is_Some (results s !! d) → is_Some (results s0 !! d))
             (λ a s0 s1 H0 Hfire Hd, results_grow_fire a s0 s1 d Hfire (H0 Hd))
             acts' s s' (λ H, H) Hrun').
Qed.


(** *** The results *)

Lemma task_fire_cancelled id step a c s c' s1 :
  task_fire sys opts id step a c s = Some (c', s1) →
  cancelled s = true → cancelled s1 = true.
Proof.
  destruct a, c; simpl; intros H; repeat case_match; by simplify_eq/=.
Qed.

Lemma task_fire_cancel_skip id step a c s s1 :
  task_fire sys opts id step a c s = Some (AtDone, s1) →
  c = AtAcquire ∨ c = AtSleep → cancelled s1 = true.
Proof.
  destruct a, c; simpl; intros H [?|?]; repeat case_match; by simplify_eq/=.
Qed.

Lemma task_fire_recorded id step a c s c' s1 :
  task_fire sys opts id step a c s = Some (c', s1) →
  recorded c = true → recorded c' = true ∧ results s1 = results s.
Proof.
  destruct a, c; simpl; intros H; repeat case_match; by simplify_eq/=.
Qed.

Lemma executeStep_executed id step w :
  stepMap (Plan.Steps p) !! id = Some step → executed id (executeStep sys step opts w).1.
Proof.
  intros [_ Hid]%stepMap_Some.
  destruct (executeStep_shape sys step opts w) as (Hr & Hst & Hatt & Hok & _).
  split; [congruence|]. split; [done|]. split; [lia|done].
Qed.

Lemma res_inv_init : res_inv p (init p).
Proof.
  split; simpl.
  - intros id r. by rewrite lookup_empty.
  - intros i id r _ Hc. by apply lookup_replicate in Hc as [? _].
  - intros id. rewrite lookup_empty. by intros [? ?].
Qed.

Lemma res_inv_fire a s s' :
  res_inv p s → fire sys p opts a s = Some s' → res_inv p s'.
Proof.
  intros [Hfinal Hstore Howner]
    [[-> ->]|(i & id & step & c & c' & s1 & _ & Hid & Hstep & Hc & Htf & ->)]%fire_Some.
  { split; simpl; [|done..]. intros id r Hr. destruct (Hfinal id r Hr) as [?|[[? ?]|?]]; auto. }
  pose proof (task_fire_tasks sys opts _ _ _ _ _ _ _ Htf) as Ht.
  pose proof (task_fire_writes sys opts _ _ _ _ _ _ _ Htf) as Hw.
  pose proof (task_fire_arrive sys opts _ _ _ _ _ _ _ Htf) as (Hstore' & _).
  pose proof (task_fire_cancelled _ _ _ _ _ _ _ Htf) as Hcan.
  assert (Hi : (i < length (tasks s))%nat) by (by eapply lookup_lt_Some).
  split; simpl; rewrite ?Ht.
  - intros k r Hr.
    assert (Hold : ∀ r0, results s !! k = Some r0 →
              r0 = dependency_skip k ∨ (r0 = cancelled_skip k ∧ cancelled s1 = true) ∨
              executed k r0).
    { intros r0 Hr0. destruct (Hfinal k r0 Hr0) as [?|[[? ?]|?]]; auto. }
    destruct Hw as [[Hsame _]|(r' & Hins & Hcase)]; [rewrite Hsame in Hr; by apply Hold|].
    rewrite Hins in Hr. destruct (decide (k = id)) as [->|Hne];
      [|rewrite lookup_insert_ne in Hr by done; by apply Hold].
    rewrite lookup_insert_eq in Hr. simplify_eq.
    destruct Hcase as [[-> ->]|[(-> & -> & ->)|(Hpos & -> & ->)]].
    + right. right. by eapply Hstore.
    + by left.
    + right. left. split; [done|]. by eapply task_fire_cancel_skip.
  - intros j idj r Hj Hcj. destruct (decide (j = i)) as [->|Hne].
    + rewrite list_lookup_insert_eq in Hcj by done. simplify_eq.
      destruct (Hstore' r eq_refl) as [w ->]. by apply executeStep_executed.
    + rewrite list_lookup_insert_ne in Hcj by done. by eapply Hstore.
  - intros k Hk.
    assert (Hkeep : ∀ j cj idj, Plan.Order p !! j = Some idj → tasks s !! j = Some cj →
              recorded cj = true →
              ∃ j' c0, Plan.Order p !! j' = Some idj ∧
                       <[i := c']> (tasks s) !! j' = Some c0 ∧ recorded c0 = true).
    { intros j cj idj Hj Hcj Hrec. destruct (decide (j = i)) as [->|Hne].
      - simplify_eq. exists i, c'. rewrite list_lookup_insert_eq by done.
        split; [done|]. split; [done|]. by apply (task_fire_recorded _ _ _ _ _ _ _ Htf).
      - exists j, cj. by rewrite list_lookup_insert_ne. }
    destruct Hw as [[Hsame _]|(r' & Hins & Hcase)].
    { rewrite Hsame in Hk. destruct (Howner k Hk) as (j & cj & Hj & Hcj & Hrec). by eapply Hkeep. }
    destruct (decide (k = id)) as [->|Hne].
    + exists i, c'. rewrite list_lookup_insert_eq by done. split; [done|]. split; [done|].
      destruct Hcase as [[_ ->]|[(_ & -> & _)|(_ & -> & _)]]; done.
    + rewrite Hins, lookup_insert_ne in Hk by done.
      destruct (Howner k Hk) as (j & cj & Hj & Hcj & Hrec). by eapply Hkeep.
Qed.

Lemma reachable_res_inv s : reachable sys p opts s → res_inv p s.
Proof. intros [acts Hrun]. by eapply (run_invariant (res_inv p)), Hrun; [apply res_inv_fire|apply res_inv_init]. Qed.


Lemma final_ID s id r : res_inv p s → results s !! id = Some r → ID r = id.
Proof. intros Hinv Hr. destruct (ri_final _ _ Hinv id r Hr) as [->|[[-> _]|[? _]]]; done. Qed.

Lemma results_keep_fire a s s' id r :
  NoDup (Plan.Order p) → res_inv p s →
  fire sys p opts a s = Some s' → results s !! id = Some r → results s' !! id = Some r.
Proof.
  intros Hnd Hinv
    [[-> ->]|(i & idi & step & c & c' & s1 & _ & Hid & Hstep & Hc & Htf & ->)]%fire_Some Hr;
    [done|]. simpl.
  destruct (task_fire_writes sys opts _ _ _ _ _ _ _ Htf) as [[-> _]|(r' & -> & Hcase)]; [done|].
  destruct (decide (idi = id)) as [->|Hne]; [|by rewrite lookup_insert_ne].
  exfalso. destruct (ri_owner _ _ Hinv id) as (j & cj & Hj & Hcj & Hrec); [by eexists|].
  assert (j = i) as -> by (by eapply NoDup_lookup). simplify_eq.
  destruct Hcase as [[-> _]|[(-> & _)|([-> | ->] & _)]]; done.
Qed.

(** X11. In a plan whose order has no repeated id, a result is written
    once: every later state holds the same result for the id. The id is
    an id of the order, and the result carries it. *)
Theorem results_written_once (acts : list action) (s s' : state) (id : string)
    (r : StepResult) :
  NoDup (Plan.Order p) →
  reachable sys p opts s →
  results s !! id = Some r →
  run sys p opts acts s = Some s' →
  results s' !! id = Some r ∧ id ∈ Plan.Order p ∧ ID r = id.
Proof.
  intros Hnd Hreach Hr Hrun. pose proof (reachable_res_inv s Hreach) as Hinv.
  split; [|split].
  - assert (Hboth : res_inv p s' ∧ results s' !! id = Some r); [|by destruct Hboth].
    apply (run_invariant (λ s0, res_inv p s0 ∧ results s0 !! id = Some r)) with acts s;
      [|done|done].
    intros a s0 s1 [Hinv0 Hr0] Hfire. split; [by eapply res_inv_fire|].
    by eapply results_keep_fire.
  - destruct (ri_owner _ _ Hinv id) as (i & c & Hi & _); [by eexists|].
    by eapply list_elem_of_lookup_2.
  - by eapply final_ID.
Qed.

(** What [Execute] has done when it returns a result. *)
Lemma Execute_Ok_inv (mkdir : option string) (res : ExecutionResult) :
  Execute sys (Some p) opts mkdir (Ok res) →
  ∃ acts s, run sys p opts acts (init p) = Some s ∧ all_done s ∧
    Forall2 (λ id r, results s !! id = Some r) (Plan.Order p) (Overall_Steps res) ∧
    Overall_Status res =
      (if decide (Exists (λ r, Status r = "failed") (Overall_Steps res))
       then "failed" else "success") ∧
    0 ≤ Jobs opts.
Proof.
  intros H. inversion H as [e Hlaunch|p' acts s elapsed Hlaunch Hrun Hdone Hout].
  assert (p' = p ∧ 0 ≤ Jobs opts) as [-> Hjobs].
  { unfold launch in Hlaunch. repeat case_match; simplify_eq; (split; [done|lia]). }
  pose proof (all_done_recorded sys p opts acts s Hrun Hdone) as Hall.
  destruct (collect_Ok (Plan.Order p) (results s) [] "success" Hall) as (rs & Hrs & Hc).
  unfold finish in Hout. rewrite Hc in Hout. simpl in Hout. injection Hout as <-.
  exists acts, s. done.
Qed.

(** X12. When [Execute] returns a result, its [Steps] hold one entry for
    each id of the order, in that order and carrying that id. The status
    of an entry is success, failed or skipped; the skipped entries are
    those with attempt 0, and they have the error "dependency failed" or
    "execution cancelled", exit code 0, no log file and no duration; a
    successful entry has exit code 0 and no error. *)
Theorem Execute_results (mkdir : option string) (res : ExecutionResult) :
  Execute sys (Some p) opts mkdir (Ok res) →
  Forall2 (λ id r,
      ID r = id ∧
      (Status r = "success" ∨ Status r = "failed" ∨ Status r = "skipped") ∧
      (Status r = "skipped" ↔ Attempt r = 0) ∧
      (Status r = "skipped" →
       (Error r = "dependency failed" ∨ Error r = "execution cancelled") ∧
       ExitCode r = 0 ∧ LogFile r = "" ∧ Duration r = 0) ∧
      (Status r = "success" → ExitCode r = 0 ∧ Error r = ""))
    (Plan.Order p) (Overall_Steps res) ∧
  length (Overall_Steps res) = length (Plan.Order p).
Proof.
  intros (acts & s & Hrun & Hdone & Hres & _)%Execute_Ok_inv.
  pose proof (reachable_res_inv s (ex_intro _ acts Hrun)) as Hinv.
  split; [|symmetry; by eapply Forall2_length].
  eapply Forall2_impl; [exact Hres|]. intros id r Hr. simpl in Hr.
  destruct (ri_final _ _ Hinv id r Hr) as [->|[[-> _]|(Hid & Hst & Hatt & Hok)]].
  - simpl. split_and!; auto; try (split; done).
  - simpl. split_and!; auto; try (split; done).
  - split; [done|]. split; [tauto|]. split; [|split; [|done]].
    + split; [intros Hs|intros Ha; lia]. destruct Hst as [H1|H1]; rewrite H1 in Hs; done.
    + intros Hs. destruct Hst as [H1|H1]; rewrite H1 in Hs; done.
Qed.


(** *** Skips and cancellation *)

Lemma is_failed_fire a s s' d :
  fire sys p opts a s = Some s' → is_failed s d = true → is_failed s' d = true.
Proof.
  intros [[-> ->]|(i & id & step & c & c' & s1 & _ & _ & _ & _ & Htf & ->)]%fire_Some Hd;
    [done|]. change (is_failed s1 d = true). by eapply (is_failed_mono sys opts).
Qed.

Lemma is_failed_run acts : ∀ s s' d,
  run sys p opts acts s = Some s' → is_failed s d = true → is_failed s' d = true.
Proof.
  induction acts as [|a acts IH]; intros s s' d; simpl; [by intros [= <-]|].
  destruct (fire sys p opts a s) as [s1|] eqn:Hfire; [|done]. simpl.
  intros Hrun Hd. eapply IH; [done|]. by eapply is_failed_fire.
Qed.

Lemma skip_inv_init : skip_inv p (init p).
Proof.
  split; simpl.
  - intros i Hc. by apply lookup_replicate in Hc as [? _].
  - intros id. by rewrite lookup_empty.
  - intros i id _ Hc. by apply lookup_replicate in Hc as [? _].
Qed.

Lemma skip_inv_fire a s s' :
  res_inv p s → skip_inv p s → fire sys p opts a s = Some s' → skip_inv p s'.
Proof.
  intros Hres [Hskip Hresult Hcancel] Hfire.
  pose proof (λ d, is_failed_fire a s s' d Hfire) as Hmono.
  apply fire_Some in Hfire
    as [[-> ->]|(i & id & step & c & c' & s1 & _ & Hid & Hstep & Hc & Htf & ->)];
    [by split|].
  pose proof (task_fire_tasks sys opts _ _ _ _ _ _ _ Htf) as Ht.
  pose proof (task_fire_writes sys opts _ _ _ _ _ _ _ Htf) as Hw.
  pose proof (task_fire_failed sys opts _ _ _ _ _ _ _ Htf) as Hf.
  pose proof (task_fire_arrive sys opts _ _ _ _ _ _ _ Htf) as (_ & Hskip' & _).
  assert (Hi : (i < length (tasks s))%nat) by (by eapply lookup_lt_Some).
  split; simpl; rewrite ?Ht.
  - intros j Hcj. destruct (decide (j = i)) as [->|Hne].
    + rewrite list_lookup_insert_eq in Hcj by done. simplify_eq.
      destruct (Hskip' eq_refl) as (_ & d & _ & Hd). exists d. by apply Hmono.
    + rewrite list_lookup_insert_ne in Hcj by done.
      destruct (Hskip j Hcj) as [d Hd]. exists d. by apply Hmono.
  - intros k Hk.
    assert (∃ d, is_failed s d = true) as [d Hd]; [|exists d; by apply Hmono].
    destruct Hw as [[Hsame _]|(r' & Hins & Hcase)]; [rewrite Hsame in Hk; by eapply Hresult|].
    rewrite Hins in Hk. destruct (decide (k = id)) as [->|Hne];
      [|rewrite lookup_insert_ne in Hk by done; by eapply Hresult].
    rewrite lookup_insert_eq in Hk. simplify_eq.
    destruct Hcase as [[-> _]|[(-> & _)|(_ & _ & Heq)]].
    + destruct (ri_store _ _ Hres i id _ Hid Hc) as (_ & [Hs|Hs] & _); done.
    + by eapply Hskip.
    + done.
  - intros j idj Hj Hcj. destruct (decide (j = i)) as [->|Hne].
    + rewrite list_lookup_insert_eq in Hcj by done. simplify_eq.
      destruct Hf as [[_ Hno]|(r & _ & _ & _ & Hins)]; [exfalso; revert Htf Hno|].
      * destruct a, c; simpl; intros H; repeat case_match; simplify_eq/=. intros Hno.
        apply Hno. by eexists.
      * unfold is_failed. simpl. by rewrite Hins, lookup_insert_eq.
    + rewrite list_lookup_insert_ne in Hcj by done. apply Hmono. by eapply Hcancel.
Qed.

Lemma run_res_skip_inv acts : ∀ s s',
  res_inv p s → skip_inv p s → run sys p opts acts s = Some s' →
  res_inv p s' ∧ skip_inv p s'.
Proof.
  intros s s' Hres Hskip Hrun.
  apply (run_invariant (λ s0, res_inv p s0 ∧ skip_inv p s0)) with acts s; [|done|done].
  intros a s0 s1 [H1 H2] Hfire. split; [by eapply res_inv_fire|by eapply skip_inv_fire].
Qed.

(** The cancellation comes from the caller, or from a failed step under
    fail-fast. *)
Lemma cancelled_source acts : ∀ s s',
  res_inv p s → skip_inv p s →
  run sys p opts acts s = Some s' →
  cancelled s = false → cancelled s' = true →
  ACallerCancel ∈ acts ∨ (FailFast opts = true ∧ ∃ d, is_failed s' d = true).
Proof.
  induction acts as [|a acts IH]; intros s s' Hres Hskip; simpl.
  { intros [= <-] H1 H2. congruence. }
  destruct (fire sys p opts a s) as [s1|] eqn:Hfire; [|done]. simpl.
  intros Hrun Hc Hc'.
  pose proof (res_inv_fire _ _ _ Hres Hfire) as Hres1.
  pose proof (skip_inv_fire _ _ _ Hres Hskip Hfire) as Hskip1.
  destruct (cancelled s1) eqn:Hc1.
  - apply fire_Some in Hfire
      as [[-> ->]|(i & id & step & c & c' & s2 & _ & Hid & Hstep & Hci & Htf & ->)];
      [left; left|].
    right. simpl in Hc1.
    assert (c = AtCancel ∧ FailFast opts = true) as [-> Hff].
    { revert Htf Hc1. destruct a, c; simpl; intros H Hc1; repeat case_match;
        simplify_eq/=; first [congruence|done]. }
    split; [done|]. exists id. eapply is_failed_run; [exact Hrun|].
    change (is_failed s2 id = true).
    eapply (is_failed_mono sys opts); [exact Htf|]. by eapply (si_cancel _ _ Hskip).
  - destruct (IH s1 s' Hres1 Hskip1 Hrun Hc1 Hc') as [Hin|?]; [left; by right|by right].
Qed.

(** X13. In a plan whose order has no repeated id, and as long as the
    caller does not cancel the context: without fail-fast the execution
    is never cancelled; it is cancelled only once some step has a failed
    result; and there is a skipped result only once some step has a
    failed result. *)
Theorem cancellation_sources (acts : list action) (s : state) :
  NoDup (Plan.Order p) →
  run sys p opts acts (init p) = Some s →
  ACallerCancel ∉ acts →
  (FailFast opts = false → cancelled s = false) ∧
  (cancelled s = true → ∃ id r, results s !! id = Some r ∧ Status r = "failed") ∧
  (∀ id r, results s !! id = Some r → Status r = "skipped" →
           ∃ id' r', results s !! id' = Some r' ∧ Status r' = "failed").
Proof.
  intros Hnd Hrun Hno.
  destruct (run_res_skip_inv acts _ _ res_inv_init skip_inv_init Hrun) as [Hres Hskip].
  pose proof (fail_inv_run sys p opts acts _ _ Hnd (fail_inv_init p) Hrun) as Hfail.
  assert (Hfailed : ∀ d, is_failed s d = true →
            ∃ id r, results s !! id = Some r ∧ Status r = "failed").
  { intros d (i & r & _ & _ & Hr & Hs)%(fi_failed _ _ Hfail). eauto. }
  assert (Hcan : cancelled s = true →
            FailFast opts = true ∧ ∃ d, is_failed s d = true).
  { intros Hc.
    destruct (cancelled_source acts _ _ res_inv_init skip_inv_init Hrun eq_refl Hc)
      as [?|?]; done. }
  split; [|split].
  - intros Hff. destruct (cancelled s) eqn:Hc; [|done].
    destruct (Hcan eq_refl) as [? _]. congruence.
  - intros Hc. destruct (Hcan Hc) as (_ & d & Hd). by eapply Hfailed.
  - intros id r Hr Hs.
    destruct (ri_final _ _ Hres id r Hr) as [->|[[-> Hc]|(_ & [Hx|Hx] & _)]].
    + destruct (si_result _ _ Hskip id Hr) as [d Hd]. by eapply Hfailed.
    + destruct (Hcan Hc) as (_ & d & Hd). by eapply Hfailed.
    + rewrite Hx in Hs. done.
    + rewrite Hx in Hs. done.
Qed.

(** X14. When all the goroutines have returned, the caller has not
    cancelled and no result is failed (the overall status is success),
    every id of the order has a successful result, of at least one
    attempt, with exit code 0 and no error: no step was skipped. *)
Theorem success_means_all_succeeded (acts : list action) (s : state) :
  NoDup (Plan.Order p) →
  run sys p opts acts (init p) = Some s →
  all_done s →
  ACallerCancel ∉ acts →
  (∀ id r, results s !! id = Some r → Status r ≠ "failed") →
  ∀ id, id ∈ Plan.Order p →
    ∃ r, results s !! id = Some r ∧ ID r = id ∧ Status r = "success" ∧
         1 ≤ Attempt r ∧ ExitCode r = 0 ∧ Error r = "".
Proof.
  intros Hnd Hrun Hdone Hno Hnofail id Hid.
  destruct (run_res_skip_inv acts _ _ res_inv_init skip_inv_init Hrun) as [Hres Hskip].
  pose proof (fail_inv_run sys p opts acts _ _ Hnd (fail_inv_init p) Hrun) as Hfail.
  assert (Hfailed : ∀ d, is_failed s d = true → False).
  { intros d (i & r & _ & _ & Hr & Hs)%(fi_failed _ _ Hfail). by eapply Hnofail. }
  destruct (all_done_recorded sys p opts acts s Hrun Hdone id Hid) as [r Hr].
  exists r. split; [done|].
  destruct (ri_final _ _ Hres id r Hr) as [->|[[-> Hc]|(Hrid & [Hx|Hx] & Hatt & Hok)]].
  - destruct (si_result _ _ Hskip id Hr) as [d Hd]. by destruct (Hfailed d).
  - destruct (cancelled_source acts _ _ res_inv_init skip_inv_init Hrun eq_refl Hc)
      as [?|(_ & d & Hd)]; [done|by destruct (Hfailed d)].
  - by destruct (Hnofail id r Hr).
  - destruct (Hok Hx). done.
Qed.


(** *** No slot at all *)

Lemma idle_fire a s s' :
  Jobs opts = 0 → sem_inv p opts s → idle s →
  fire sys p opts a s = Some s' →
  idle s' ∧ (∀ i w, a ≠ ARun i w) ∧
  (cancelled s = false → cancelled s' = true → a = ACallerCancel).
Proof.
  intros Hjobs Hsem (Hall & Hdone & Hres)
    [[-> ->]|(i & id & step & c & c' & s1 & Hact & Hid & Hstep & Hc & Htf & ->)]%fire_Some.
  { split; [|done]. split; [done|]. split; [done|]. done. }
  pose proof (task_fire_tasks sys opts _ _ _ _ _ _ _ Htf) as Ht.
  pose proof (running_le_slots (tasks s)) as Hslots.
  pose proof (sem_slots _ _ _ Hsem) as Hs.
  assert (Hi : (i < length (tasks s))%nat) by (by eapply lookup_lt_Some).
  assert (Hc0 : c = AtAcquire ∨ c = AtDone).
  { rewrite Forall_forall in Hall. apply Hall. by eapply list_elem_of_lookup_2. }
  assert (c = AtAcquire ∧ c' = AtDone ∧ cancelled s = true ∧
          s1 = set_results id (cancelled_skip id) s ∧ ∀ j w, a ≠ ARun j w)
    as (-> & -> & Hcan & -> & Hno).
  { revert Htf. destruct Hc0 as [-> | ->]; destruct a; simpl; intros H;
      repeat case_match; simplify_eq/=; try lia; split_and!; done. }
  split; [|split; [done|simpl; congruence]].
  split; [|split]; simpl.
  - apply Forall_insert; [done|by right].
  - done.
  - intros k r. destruct (decide (k = id)) as [->|Hne].
    + rewrite lookup_insert_eq. by intros [= <-].
    + rewrite lookup_insert_ne by done. apply Hres.
Qed.

Lemma idle_run acts : ∀ s s',
  Jobs opts = 0 → sem_inv p opts s → idle s →
  run sys p opts acts s = Some s' →
  idle s' ∧ (∀ i w, ARun i w ∉ acts) ∧
  (cancelled s = false → cancelled s' = true → ACallerCancel ∈ acts).
Proof.
  induction acts as [|a acts IH]; intros s s' Hjobs Hsem Hidle; simpl.
  - intros [= <-]. split; [done|]. split; [intros i w; apply not_elem_of_nil|congruence].
  - destruct (fire sys p opts a s) as [s1|] eqn:Hfire; [|done]. simpl. intros Hrun.
    destruct (idle_fire a s s1 Hjobs Hsem Hidle Hfire) as (Hidle1 & Hno & Hcan).
    destruct (IH s1 s' Hjobs (sem_inv_fire sys p opts _ _ _ Hsem Hfire) Hidle1 Hrun)
      as (Hidle' & Hno' & Hcan').
    split; [done|]. split.
    + intros i w [?|?]%elem_of_cons; [by eapply Hno|by eapply Hno'].
    + intros Hc Hc'. destruct (cancelled s1) eqn:Hc1.
      * rewrite (Hcan Hc eq_refl). left.
      * right. by apply Hcan'.
Qed.

Lemma idle_init : idle (init p).
Proof.
  split; [|split]; simpl.
  - apply Forall_replicate. by left.
  - intros i Hc. by apply lookup_replicate in Hc as [? _].
  - intros id r. by rewrite lookup_empty.
Qed.

Lemma collected_fmap (m : gmap string StepResult) (f : string → StepResult) order rs :
  (∀ id r, m !! id = Some r → r = f id) →
  Forall2 (λ id r, m !! id = Some r) order rs → rs = f <$> order.
Proof.
  intros Hf. revert rs. induction order as [|id order IH]; intros rs Hrs.
  - by apply Forall2_nil_inv_l in Hrs.
  - apply Forall2_cons_inv_l in Hrs as (r & rs' & Hr0 & Hrs' & ->).
    rewrite fmap_cons, (IH rs' Hrs'), (Hf id r Hr0). done.
Qed.

(** X15. With [Jobs = 0] no goroutine ever gets a slot: no step runs, the
    only results are skips for cancellation, and the goroutines of a plan
    with steps return only after the caller has cancelled the context;
    [Execute] then returns the overall status success, with every step
    skipped as cancelled. With a negative [Jobs] the creation of the
    semaphore panics once the output directory is there: [Execute]
    returns nothing. *)
Theorem Execute_no_jobs :
  (Jobs opts = 0 →
   (∀ acts s, run sys p opts acts (init p) = Some s →
      (∀ i w, ARun i w ∉ acts) ∧
      Forall (λ c, c = AtAcquire ∨ c = AtDone) (tasks s) ∧
      (∀ id r, results s !! id = Some r → r = cancelled_skip id) ∧
      (Plan.Order p ≠ [] → all_done s → ACallerCancel ∈ acts)) ∧
   (∀ mkdir res, Execute sys (Some p) opts mkdir (Ok res) →
      Overall_Status res = "success" ∧
      Overall_Steps res = cancelled_skip <$> Plan.Order p)) ∧
  (Jobs opts < 0 →
   ∀ mkdir, OutDir opts = "" ∨ mkdir = None →
     launch (Some p) opts mkdir = Panicked ∧
     ∀ out, ¬ Execute sys (Some p) opts mkdir out).
Proof.
  split; last first.
  { intros Hjobs mkdir Hmk.
    assert (Hl : launch (Some p) opts mkdir = Panicked).
    { unfold launch. destruct Hmk as [-> | ->].
      - rewrite decide_False by (by intros []). by rewrite decide_True.
      - destruct (decide _); by rewrite decide_True. }
    split; [done|]. intros out H.
    inversion H as [e Hlaunch|p' acts s elapsed Hlaunch]; congruence. }
  intros Hjobs.
  assert (Hrun : ∀ acts s, run sys p opts acts (init p) = Some s →
     (∀ i w, ARun i w ∉ acts) ∧
     Forall (λ c, c = AtAcquire ∨ c = AtDone) (tasks s) ∧
     (∀ id r, results s !! id = Some r → r = cancelled_skip id) ∧
     (Plan.Order p ≠ [] → all_done s → ACallerCancel ∈ acts)).
  { intros acts s Hr.
    destruct (idle_run acts _ _ Hjobs (sem_inv_init p opts) idle_init Hr)
      as ((Hall & Hdone & Hres) & Hno & Hcan).
    split; [done|]. split; [done|]. split; [done|]. intros Hne Hd. apply Hcan; [done|].
    pose proof (sem_inv_run sys p opts _ _ _ (sem_inv_init p opts) Hr) as [Hlen _ _].
    destruct (tasks s) as [|c cs] eqn:Hts.
    { destruct (Plan.Order p); done. }
    apply (Hdone 0%nat). unfold all_done in Hd. rewrite Hts in Hd.
    apply Forall_cons in Hd as [-> _]. done. }
  split; [exact Hrun|].
  intros mkdir res (acts & s & Hr & Hdone & Hres & Hst & _)%Execute_Ok_inv.
  destruct (Hrun acts s Hr) as (_ & _ & Hskip & _).
  assert (Hsteps : Overall_Steps res = cancelled_skip <$> Plan.Order p).
  { by eapply collected_fmap. }
  split; [|done]. rewrite Hst, decide_False; [done|].
  rewrite Hsteps. intros (r & (id & -> & _)%list_elem_of_fmap & Hs)%Exists_exists. done.
Qed.


(** *** A dependency that is not in the order *)

Lemma cancelled_fire a s s' :
  fire sys p opts a s = Some s' → cancelled s = true → cancelled s' = true.
Proof.
  intros [[-> ->]|(i & id & step & c & c' & s1 & _ & _ & _ & _ & Htf & ->)]%fire_Some Hc;
    [done|]. simpl. by eapply task_fire_cancelled.
Qed.

Lemma results_owner s d : res_inv p s → d ∉ Plan.Order p → results s !! d = None.
Proof.
  intros Hinv Hd. destruct (results s !! d) as [r|] eqn:Hr; [|done]. exfalso.
  destruct (ri_owner _ _ Hinv d) as (i & c & Hi & _); [by eexists|].
  apply Hd. by eapply list_elem_of_lookup_2.
Qed.

Lemma waiting_fire i a s s' :
  (∀ c, tasks s' !! i = Some c → past_poll c = false) →
  waiting i s → fire sys p opts a s = Some s' →
  waiting i s' ∧ ∀ w, a ≠ ARun i w.
Proof.
  intros Hnot Hwait Hfire. pose proof (cancelled_fire a s s' Hfire) as Hcan.
  apply fire_Some in Hfire
    as [[-> ->]|(j & id & step & c & c' & s1 & Hact & Hid & Hstep & Hc & Htf & ->)].
  { split; [|done]. unfold waiting in *. simpl. naive_solver. }
  pose proof (task_fire_tasks sys opts _ _ _ _ _ _ _ Htf) as Ht.
  assert (Hj : (j < length (tasks s))%nat) by (by eapply lookup_lt_Some).
  simpl in Hnot, Hcan. rewrite Ht in Hnot.
  destruct (decide (j = i)) as [->|Hne].
  - rewrite list_lookup_insert_eq in Hnot by done. specialize (Hnot c' eq_refl).
    unfold waiting. simpl. rewrite Ht, list_lookup_insert_eq by done.
    assert (c = AtAcquire ∨ c = AtPoll ∨ c = AtSleep) as Hc0.
    { destruct Hwait as [?|[?|[?|[? _]]]]; simplify_eq; auto.
      by destruct (task_fire_arrive sys opts _ _ _ _ _ _ _ Htf) as (_ & _ & _ & ?). }
    split.
    + destruct c'; try done; auto. right. right. right. split; [done|].
      destruct Hc0 as [-> | [-> | ->]]; [by eapply task_fire_cancel_skip; eauto| |
                                     by eapply task_fire_cancel_skip; eauto].
      revert Htf. destruct a; simpl; intros H; repeat case_match; simplify_eq.
    + intros w ->. simpl in Htf. destruct Hc0 as [-> | [-> | ->]]; done.
  - split.
    + unfold waiting in *. simpl. rewrite Ht, list_lookup_insert_ne by done. naive_solver.
    + intros w ->. simpl in Hact. congruence.
Qed.

(** X16. A step with a dependency that is no id of the order never runs:
    the dependency never gets a result, and the goroutine of the step
    stays at the semaphore or in its polling loop until a cancellation
    lets it return. [Execute] on such a plan returns only after a
    cancellation. *)
Theorem dangling_dependency (i : nat) (id : string) (step : Step) (d : string) :
  Plan.Order p !! i = Some id →
  stepMap (Plan.Steps p) !! id = Some step →
  d ∈ Plan.Deps step →
  d ∉ Plan.Order p →
  ∀ acts s, run sys p opts acts (init p) = Some s →
    results s !! d = None ∧
    (∀ w, ARun i w ∉ acts) ∧
    (tasks s !! i = Some AtAcquire ∨ tasks s !! i = Some AtPoll ∨
     tasks s !! i = Some AtSleep ∨ (tasks s !! i = Some AtDone ∧ cancelled s = true)) ∧
    (all_done s → cancelled s = true).
Proof.
  intros Hid Hstep Hd Hnot.
  assert (Hblocked : ∀ s, dep_inv p s → res_inv p s →
            ∀ c, tasks s !! i = Some c → past_poll c = false).
  { intros s Hdep Hres c Hc. destruct (past_poll c) eqn:Hpast; [|done]. exfalso.
    destruct (Hdep i id step c Hid Hstep Hc Hpast d Hd) as [r Hr].
    by rewrite (results_owner s d Hres Hnot) in Hr. }
  assert (Hrun : ∀ acts s s', dep_inv p s → res_inv p s → waiting i s →
            run sys p opts acts s = Some s' →
            res_inv p s' ∧ waiting i s' ∧ ∀ w, ARun i w ∉ acts).
  { induction acts as [|a acts IH]; intros s s' Hdep Hres Hwait; simpl.
    - intros [= <-]. split; [done|]. split; [done|]. intros w. apply not_elem_of_nil.
    - destruct (fire sys p opts a s) as [s1|] eqn:Hfire; [|done]. simpl. intros Hr.
      pose proof (dep_inv_fire _ _ _ Hdep Hfire) as Hdep1.
      pose proof (res_inv_fire _ _ _ Hres Hfire) as Hres1.
      destruct (waiting_fire i a s s1 (Hblocked s1 Hdep1 Hres1) Hwait Hfire) as [Hwait1 Hno].
      destruct (IH s1 s' Hdep1 Hres1 Hwait1 Hr) as (Hres' & Hwait' & Hno').
      split; [done|]. split; [done|].
      intros w [?|?]%elem_of_cons; [by eapply Hno|by eapply Hno']. }
  intros acts s Hr.
  assert (Hw0 : waiting i (init p)).
  { left. simpl. apply lookup_replicate. split; [done|]. by eapply lookup_lt_Some. }
  destruct (Hrun acts _ _ dep_inv_init res_inv_init Hw0 Hr) as (Hres & Hwait & Hno).
  split; [by apply results_owner|]. split; [done|]. split; [done|].
  intros Hdone. unfold all_done in Hdone. rewrite Forall_forall in Hdone.
  destruct Hwait as [Hc|[Hc|[Hc|[_ ?]]]]; [..|done];
    apply list_elem_of_lookup_2, Hdone in Hc; done.
Qed.


(** *** Two interleavings *)

Lemma fire_task a i id step c c' s s1 :
  actor a = Some i → Plan.Order p !! i = Some id →
  stepMap (Plan.Steps p) !! id = Some step → tasks s !! i = Some c →
  task_fire sys opts id step a c s = Some (c', s1) →
  fire sys p opts a s = Some (set_pc i c' s1).
Proof.
  intros Hact Hid Hstep Hc Htf. unfold fire. rewrite Hact, Hid. simpl.
  rewrite Hstep. simpl. rewrite Hc. simpl. by rewrite Htf.
Qed.

Lemma run_snoc acts a s s1 s2 :
  run sys p opts acts s = Some s1 → fire sys p opts a s1 = Some s2 →
  run sys p opts (acts ++ [a]) s = Some s2.
Proof. intros H1 H2. rewrite run_app, H1. simpl. by rewrite H2. Qed.

Lemma run_cons a acts s s1 :
  fire sys p opts a s = Some s1 →
  run sys p opts (a :: acts) s = run sys p opts acts s1.
Proof. intros H. simpl. by rewrite H. Qed.

Lemma starved_acquire J : ∀ s,
  NoDup J → (Z.of_nat (length J) + sem s ≤ Jobs opts) →
  (∀ i, i ∈ J → tasks s !! i = Some AtAcquire ∧
                ∃ id step, Plan.Order p !! i = Some id ∧
                           stepMap (Plan.Steps p) !! id = Some step) →
  ∃ s', run sys p opts (AAcquire <$> J) s = Some s' ∧
    results s' = results s ∧ cancelled s' = cancelled s ∧
    sem s' = sem s + Z.of_nat (length J) ∧
    length (tasks s') = length (tasks s) ∧
    ∀ i, tasks s' !! i = if decide (i ∈ J) then Some AtPoll else tasks s !! i.
Proof.
  induction J as [|j J IH]; intros s Hnd Hroom Hall.
  { exists s. simpl. split; [done|]. split; [done|]. split; [done|]. split; [lia|].
    split; [done|]. done. }
  apply NoDup_cons in Hnd as [Hj Hnd].
  destruct (Hall j) as (Hcj & id & step & Hid & Hstep); [left|].
  assert (Hlt : (j < length (tasks s))%nat) by (by eapply lookup_lt_Some).
  assert (Hfire : fire sys p opts (AAcquire j) s
                  = Some (set_pc j AtPoll (set_sem (sem s + 1) s))).
  { apply (fire_task (AAcquire j) j id step AtAcquire); [done..|].
    simpl. rewrite decide_True; [done|]. rewrite length_cons in Hroom. lia. }
  rewrite length_cons in Hroom. rewrite fmap_cons, (run_cons _ _ _ _ Hfire).
  destruct (IH (set_pc j AtPoll (set_sem (sem s + 1) s)) Hnd)
    as (s' & Hrun & Hres & Hcan & Hsem & Hlen & Hts).
  - simpl. lia.
  - intros i Hi. destruct (Hall i) as [Hci Hstepi]; [by right|]. split; [|done].
    simpl. rewrite list_lookup_insert_ne; [done|]. by intros ->.
  - exists s'. split; [done|]. split; [done|]. split; [done|]. split; [simpl in *; lia|].
    split; [simpl in Hlen; by rewrite length_insert in Hlen|].
    intros i. rewrite Hts. simpl. destruct (decide (i = j)) as [->|Hne].
    + rewrite decide_False by done. rewrite decide_True by left.
      by apply list_lookup_insert_eq.
    + rewrite list_lookup_insert_ne by done.
      destruct (decide (i ∈ J)) as [Hi|Hi].
      * by rewrite decide_True by (by right).
      * rewrite decide_False; [done|]. by intros [?|?]%elem_of_cons.
Qed.

Lemma starved_fire J a s s' :
  Z.of_nat (length J) = Jobs opts →
  (∀ i, i ∈ J → ∃ id step, Plan.Order p !! i = Some id ∧
          stepMap (Plan.Steps p) !! id = Some step ∧ Plan.Deps step ≠ []) →
  a ≠ ACallerCancel → starved p J s → fire sys p opts a s = Some s' →
  starved p J s' ∧ ∀ i w, a ≠ ARun i w.
Proof.
  intros Hjobs Hdeps Ha (Hres & Hcan & Hsem & Hlen & Hts)
    [[-> _]|(i & id & step & c & c' & s1 & Hact & Hid & Hstep & Hc & Htf & ->)]%fire_Some;
    [done|].
  assert (Hi : (i < length (tasks s))%nat) by (by eapply lookup_lt_Some).
  pose proof (Hts i c Hc) as Hpos. destruct (decide (i ∈ J)) as [HiJ|HiJ].
  - destruct (Hdeps i HiJ) as (id' & step' & Hid' & Hstep' & Hne).
    assert (id' = id) as -> by congruence. assert (step' = step) as ->.
    { unfold Step in *. rewrite Hstep in Hstep'. by injection Hstep'. }
    assert (Hpoll : forallb (is_complete s) (Plan.Deps step) = false).
    { destruct (Plan.Deps step) as [|d ds]; [done|]. simpl.
      unfold is_complete. rewrite Hres, lookup_empty.
      by rewrite bool_decide_eq_false_2 by (by intros [? ?]). }
    assert (s1 = s ∧ (c' = AtPoll ∨ c' = AtSleep) ∧ ∀ j w, a ≠ ARun j w) as (-> & Hc' & Hno).
    { revert Htf. destruct Hpos as [-> | ->]; destruct a; simpl;
        rewrite ?Hcan, ?Hpoll; intros Htf; simplify_eq; auto. }
    split; [|done]. split; [done|]. split; [done|]. split; [done|].
    split; [simpl; by rewrite length_insert|].
    intros k ck. simpl. destruct (decide (k = i)) as [->|Hki].
    + rewrite list_lookup_insert_eq by done. intros [= <-]. by rewrite decide_True.
    + rewrite list_lookup_insert_ne by done. apply Hts.
  - subst c. exfalso. revert Htf. destruct a; simpl; rewrite ?Hcan; try done.
    rewrite Hsem, Hjobs. by rewrite decide_False by lia.
Qed.

(** Once the goroutines of [J] hold every slot, nothing moves. *)
Lemma starved_forever (J : list nat) :
  NoDup J → J ≠ [] →
  Z.of_nat (length J) = Jobs opts →
  (∀ i, i ∈ J → ∃ id step, Plan.Order p !! i = Some id ∧
          stepMap (Plan.Steps p) !! id = Some step ∧ Plan.Deps step ≠ []) →
  ∃ s0, run sys p opts (AAcquire <$> J) (init p) = Some s0 ∧
    ∀ acts s, ACallerCancel ∉ acts → run sys p opts acts s0 = Some s →
      results s = ∅ ∧ cancelled s = false ∧
      (∀ i w, ARun i w ∉ acts) ∧
      (∀ i c, tasks s !! i = Some c →
              if decide (i ∈ J) then c = AtPoll ∨ c = AtSleep else c = AtAcquire) ∧
      ¬ all_done s.
Proof.
  intros Hnd Hne Hjobs Hdeps.
  destruct (starved_acquire J (init p) Hnd) as (s0 & Hrun0 & Hres & Hcan & Hsem & Hlen & Hts).
  { simpl. lia. }
  { intros i Hi. destruct (Hdeps i Hi) as (id & step & Hid & Hstep & _).
    split; [|by eauto]. simpl. apply lookup_replicate. split; [done|]. by eapply lookup_lt_Some. }
  assert (Hs0 : starved p J s0).
  { split; [done|]. split; [done|]. split; [simpl in Hsem; lia|].
    split; [rewrite Hlen; simpl; by rewrite length_replicate|].
    intros i c. rewrite Hts. destruct (decide (i ∈ J)); [intros [= <-]; by left|].
    simpl. by intros [-> _]%lookup_replicate. }
  assert (Hrun : ∀ acts s s', ACallerCancel ∉ acts → starved p J s →
            run sys p opts acts s = Some s' → starved p J s' ∧ ∀ i w, ARun i w ∉ acts).
  { induction acts as [|a acts IH]; intros s s' Hno Hs; simpl.
    - intros [= <-]. split; [done|]. intros i w. apply not_elem_of_nil.
    - destruct (fire sys p opts a s) as [s1|] eqn:Hf; [|done]. simpl. intros Hr.
      apply not_elem_of_cons in Hno as [Ha Hno].
      destruct (starved_fire J a s s1 Hjobs Hdeps (not_eq_sym Ha) Hs Hf) as [Hs1 Hna].
      destruct (IH s1 s' Hno Hs1 Hr) as [Hs' Hna'].
      split; [done|]. intros i w [?|?]%elem_of_cons; [by eapply Hna|by eapply Hna']. }
  exists s0. split; [done|]. intros acts s Hno Hr.
  destruct (Hrun acts s0 s Hno Hs0 Hr) as [(Hres' & Hcan' & Hsem' & Hlen' & Hts') Hna].
  split; [done|]. split; [done|]. split; [done|]. split; [done|].
  intros Hdone. destruct J as [|j J']; [done|].
  destruct (Hdeps j) as (id & step & Hid & _); [left|].
  destruct (lookup_lt_is_Some_2 (tasks s) j) as [c Hc].
  { rewrite Hlen'. by eapply lookup_lt_Some. }
  pose proof (Hts' j c Hc) as Hpos. rewrite decide_True in Hpos by left.
  unfold all_done in Hdone. rewrite Forall_forall in Hdone.
  apply list_elem_of_lookup_2, Hdone in Hc. destruct Hpos; congruence.
Qed.

(** X17. With two slots or more, a step whose only dependency is a step
    without dependencies can reach [executeStep] although the dependency
    has failed: the result of the dependency is written before its entry
    in [failedSteps], and between the two writes the dependent finds the
    dependency complete and not failed. *)
Theorem dependent_can_run_after_failure (i j : nat) (a b : string) (sa sb : Step) (w : W) :
  i ≠ j →
  Plan.Order p !! i = Some a → Plan.Order p !! j = Some b →
  stepMap (Plan.Steps p) !! a = Some sa → stepMap (Plan.Steps p) !! b = Some sb →
  Plan.Deps sa = [] → Plan.Deps sb = [a] →
  2 ≤ Jobs opts →
  Status (executeStep sys sa opts w).1 = "failed" →
  ∃ s, run sys p opts [AAcquire i; APoll i; ACheck i; ARun i w; AStore i;
                       AAcquire j; APoll j; ACheck j] (init p) = Some s ∧
       results s !! a = Some (executeStep sys sa opts w).1 ∧
       Status (executeStep sys sa opts w).1 = "failed" ∧
       is_failed s a = false ∧
       tasks s !! j = Some AtRun ∧
       ∃ s', fire sys p opts (ARun j w) s = Some s'.
Proof.
  intros Hne Hi Hj Hsa Hsb Hda Hdb Hjobs Hfail.
  set (n := length (Plan.Order p)).
  assert (Hin : (i < n)%nat) by (by eapply lookup_lt_Some).
  assert (Hjn : (j < n)%nat) by (by eapply lookup_lt_Some).
  set (r := (executeStep sys sa opts w).1).
  set (s1 := set_pc i AtPoll (set_sem 1 (init p))).
  set (s2 := set_pc i AtCheck s1).
  set (s3 := set_pc i AtRun s2).
  set (s4 := set_pc i (AtStore r) s3).
  set (s5 := set_pc i (AtTrack r) (set_results a r s4)).
  set (s6 := set_pc j AtPoll (set_sem 2 s5)).
  set (s7 := set_pc j AtCheck s6).
  set (s8 := set_pc j AtRun s7).
  assert (Hat : ∀ (k : nat) (c : pc) (l : list pc),
            (k < length l)%nat → <[k := c]> l !! k = Some c)
    by (intros; by apply list_lookup_insert_eq).
  assert (H1 : fire sys p opts (AAcquire i) (init p) = Some s1).
  { apply (fire_task _ i a sa AtAcquire); try done.
    - simpl. by apply lookup_replicate.
    - simpl. by rewrite decide_True by lia. }
  assert (H2 : fire sys p opts (APoll i) s1 = Some s2).
  { apply (fire_task _ i a sa AtPoll); try done.
    - simpl. apply Hat. by rewrite length_replicate.
    - simpl. by rewrite Hda. }
  assert (H3 : fire sys p opts (ACheck i) s2 = Some s3).
  { apply (fire_task _ i a sa AtCheck); try done.
    - simpl. apply Hat. by rewrite length_insert, length_replicate.
    - simpl. by rewrite Hda. }
  assert (H4 : fire sys p opts (ARun i w) s3 = Some s4).
  { apply (fire_task _ i a sa AtRun); try done.
    simpl. apply Hat. by rewrite !length_insert, length_replicate. }
  assert (H5 : fire sys p opts (AStore i) s4 = Some s5).
  { apply (fire_task _ i a sa (AtStore r)); try done.
    simpl. apply Hat. by rewrite !length_insert, length_replicate. }
  assert (H6 : fire sys p opts (AAcquire j) s5 = Some s6).
  { apply (fire_task _ j b sb AtAcquire); try done.
    - simpl. rewrite !list_lookup_insert_ne by done. by apply lookup_replicate.
    - simpl. by rewrite decide_True by lia. }
  assert (H7 : fire sys p opts (APoll j) s6 = Some s7).
  { apply (fire_task _ j b sb AtPoll); try done.
    - simpl. apply Hat. by rewrite !length_insert, length_replicate.
    - simpl. rewrite Hdb. simpl. unfold is_complete. simpl. rewrite lookup_insert_eq.
      by rewrite bool_decide_eq_true_2 by (by eexists). }
  assert (H8 : fire sys p opts (ACheck j) s7 = Some s8).
  { apply (fire_task _ j b sb AtCheck); try done.
    - simpl. apply Hat. by rewrite !length_insert, length_replicate.
    - simpl. rewrite Hdb. simpl. unfold is_failed. simpl. by rewrite lookup_empty. }
  assert (Hcj : tasks s8 !! j = Some AtRun).
  { simpl. apply Hat. by rewrite !length_insert, length_replicate. }
  exists s8. split.
  - rewrite (run_cons _ _ _ _ H1), (run_cons _ _ _ _ H2), (run_cons _ _ _ _ H3),
      (run_cons _ _ _ _ H4), (run_cons _ _ _ _ H5), (run_cons _ _ _ _ H6),
      (run_cons _ _ _ _ H7), (run_cons _ _ _ _ H8). done.
  - split; [simpl; by apply lookup_insert_eq|]. split; [done|]. split; [done|].
    split; [done|]. eexists. by apply (fire_task (ARun j w) j b sb AtRun).
Qed.


(** *** Enough slots *)

Lemma slots_le_length l : slots l ≤ Z.of_nat (length l).
Proof. induction l as [|c l IH]; simpl; [lia|]. destruct (holds_slot c); lia. Qed.

Lemma slots_lt_length l i c :
  l !! i = Some c → holds_slot c = false → slots l < Z.of_nat (length l).
Proof.
  revert i. induction l as [|x l IH]; intros [|i] Hi Hc; simplify_eq/=.
  - rewrite Hc. pose proof (slots_le_length l). lia.
  - specialize (IH i Hi Hc). destruct (holds_slot x); lia.
Qed.

Lemma sorted_ordered_plan :
  Plan.TopologicalSort (Plan.Steps p) = Some (Ok (Plan.Order p)) → ordered_plan p.
Proof.
  intros Hsort.
  destruct (TopologicalSort_Ok_wf _ _ Hsort) as (Hnd & Hperm & Hlin & _ & _ & _).
  intros i id Hi.
  assert (Hin : id ∈ Plan.ids (Plan.Steps p)).
  { rewrite <- Hperm. by eapply list_elem_of_lookup_2. }
  destruct (stepMap (Plan.Steps p) !! id) as [step|] eqn:Hstep;
    [|by apply stepMap_None in Hstep].
  exists step. split; [done|]. intros d Hd.
  apply stepMap_Some in Hstep as [Hst Hid].
  destruct (Hlin step d Hst Hd) as (l1 & l2 & Horder & Hd1). rewrite Hid in Horder.
  apply list_elem_of_lookup in Hd1 as [k Hk]. exists k.
  assert (Hlt : (k < length l1)%nat) by (by eapply lookup_lt_Some).
  assert (Hat : Plan.Order p !! length l1 = Some id).
  { rewrite Horder. by rewrite list_lookup_middle. }
  rewrite (NoDup_lookup _ _ _ _ Hnd Hi Hat). split; [done|].
  rewrite Horder. by rewrite lookup_app_l.
Qed.

End scheduler_more.

(** *** Slots and dependents *)

Section scheduler_live.
Import Exec.
Context {W : Type} (sys : Sys W) (p : Plan.Plan) (opts : Options).

(** A goroutine that finds a slot and its dependencies recorded goes to
    its return, whatever the others do not do meanwhile. *)
Lemma drive (w0 : W) (k : nat) (id : string) (step : Step) :
  Plan.Order p !! k = Some id →
  stepMap (Plan.Steps p) !! id = Some step →
  ∀ m s c, tasks s !! k = Some c → (steps_left c ≤ m)%nat →
    (c = AtAcquire → sem s < Jobs opts) →
    (c = AtAcquire ∨ c = AtPoll ∨ c = AtSleep →
     ∀ d, d ∈ Plan.Deps step → is_Some (results s !! d)) →
    ∃ acts s', run sys p opts acts s = Some s' ∧ (ACallerCancel ∉ acts) ∧
      tasks s' !! k = Some AtDone ∧
      (∀ i, i ≠ k → tasks s' !! i = tasks s !! i).
Proof.
  intros Hid Hstep.
  induction m as [|m IH]; intros s c Hc Hm Hslot Hdeps.
  { destruct c; simpl in Hm; try lia. exists [], s. split; [done|].
    split; [apply not_elem_of_nil|done]. }
  assert (Hk : (k < length (tasks s))%nat) by (by eapply lookup_lt_Some).
  assert (Hnext : ∀ a c' s1,
            actor a = Some k →
            task_fire sys opts id step a c s = Some (c', s1) →
            (steps_left c' ≤ m)%nat → c' ≠ AtAcquire →
            (c' = AtAcquire ∨ c' = AtPoll ∨ c' = AtSleep →
             results s1 = results s ∧ (c = AtAcquire ∨ c = AtPoll ∨ c = AtSleep)) →
            ∃ acts s', run sys p opts acts s = Some s' ∧ (ACallerCancel ∉ acts) ∧
              tasks s' !! k = Some AtDone ∧
              (∀ i, i ≠ k → tasks s' !! i = tasks s !! i)).
  { intros a c' s1 Hact Htf Hm' Hc' Hres.
    pose proof (fire_task sys p opts a k id step c c' s s1 Hact Hid Hstep Hc Htf) as Hfire.
    pose proof (task_fire_tasks sys opts _ _ _ _ _ _ _ Htf) as Ht.
    destruct (IH (set_pc k c' s1) c') as (acts & s' & Hrun & Hno & Hdone & Hothers).
    - simpl. rewrite Ht. by apply list_lookup_insert_eq.
    - done.
    - done.
    - intros Hpast d Hd. destruct (Hres Hpast) as [Hr Hpc]. simpl. rewrite Hr.
      by apply Hdeps.
    - exists (a :: acts), s'. split; [by rewrite (run_cons sys p opts _ _ _ _ Hfire)|].
      split. { apply not_elem_of_cons. split; [|done]. by intros <-. }
      split; [done|]. intros i Hi. rewrite (Hothers i Hi). simpl.
      by rewrite Ht, list_lookup_insert_ne. }
  destruct c; simpl in Hm.
  - apply (Hnext (AAcquire k) AtPoll (set_sem (sem s + 1) s)); [done| |simpl; lia|done|naive_solver].
    simpl. rewrite decide_True; [done|]. by apply Hslot.
  - apply (Hnext (APoll k) AtCheck s); [done| |simpl; lia|done|naive_solver].
    simpl. rewrite (proj2 (forallb_forall _ _)); [done|].
    intros d Hd%list_elem_of_In. apply bool_decide_eq_true. apply Hdeps; auto.
  - apply (Hnext (AWake k) AtPoll s); [done|done|simpl; lia|done|naive_solver].
  - destruct (existsb (is_failed s) (Plan.Deps step)) eqn:Hex.
    + apply (Hnext (ACheck k) AtSkip s); [done| |simpl; lia|done|naive_solver]. simpl. by rewrite Hex.
    + apply (Hnext (ACheck k) AtRun s); [done| |simpl; lia|done|naive_solver]. simpl. by rewrite Hex.
  - apply (Hnext (ASkip k) AtDone (release (set_results id (dependency_skip id) s)));
      [done|done|simpl; lia|done|naive_solver].
  - apply (Hnext (ARun k w0) (AtStore (executeStep sys step opts w0).1) s);
      [done|done|simpl; lia|done|naive_solver].
  - apply (Hnext (AStore k) (AtTrack r) (set_results id r s)); [done|done|simpl; lia|done|naive_solver].
  - destruct (decide (Status r = "failed")) as [Hf|Hf].
    + apply (Hnext (ATrack k) AtCancel (set_failed id s)); [done| |simpl; lia|done|naive_solver].
      simpl. by rewrite decide_True.
    + apply (Hnext (ATrack k) AtDone (release s)); [done| |simpl; lia|done|naive_solver].
      simpl. by rewrite decide_False.
  - apply (Hnext (ACancel k) AtDone
             (release (if FailFast opts then set_cancelled true s else s)));
      [done|done|simpl; lia|done|naive_solver].
  - exists [], s. split; [done|]. split; [apply not_elem_of_nil|done].
Qed.

Lemma has_deps_false id step :
  stepMap (Plan.Steps p) !! id = Some step → has_deps p id = false → Plan.Deps step = [].
Proof.
  intros Hstep. unfold has_deps. unfold Step in *. rewrite Hstep.
  intros Hb%negb_false_iff. by apply bool_decide_eq_true in Hb.
Qed.

(** The goroutines that need nothing from the others can be brought to
    their return. *)
Lemma settle (w0 : W) (s : state) :
  ordered_plan p →
  length (tasks s) = length (Plan.Order p) →
  ∃ acts s', run sys p opts acts s = Some s' ∧ (ACallerCancel ∉ acts) ∧ settled p s'.
Proof.
  intros Hplan Hlen.
  assert (Hgo : ∀ n, (n ≤ length (Plan.Order p))%nat →
            ∃ acts s', run sys p opts acts s = Some s' ∧ (ACallerCancel ∉ acts) ∧
              length (tasks s') = length (Plan.Order p) ∧
              ∀ i c id, (i < n)%nat → tasks s' !! i = Some c → Plan.Order p !! i = Some id →
                c = AtAcquire ∨ c = AtDone ∨
                ((c = AtPoll ∨ c = AtSleep) ∧ has_deps p id = true)).
  { induction n as [|n IH]; intros Hn.
    { exists [], s. split; [done|]. split; [apply not_elem_of_nil|].
      split; [done|]. intros i c id Hi. lia. }
    destruct IH as (acts & s1 & Hrun1 & Hno1 & Hlen1 & Hshape1); [lia|].
    destruct (lookup_lt_is_Some_2 (Plan.Order p) n) as [id Hid]; [lia|].
    destruct (lookup_lt_is_Some_2 (tasks s1) n) as [c Hc]; [lia|].
    destruct (Hplan n id Hid) as (step & Hstep & _).
    assert (Hcase : (c = AtAcquire ∨ c = AtDone ∨
                     ((c = AtPoll ∨ c = AtSleep) ∧ has_deps p id = true)) ∨
                    (c ≠ AtAcquire ∧
                     (c = AtPoll ∨ c = AtSleep → has_deps p id = false))).
    { destruct c, (has_deps p id); naive_solver. }
    destruct Hcase as [Hok|[Hacq Hmove]].
    - exists acts, s1. split; [done|]. split; [done|]. split; [done|].
      intros i c' id' Hi Hc' Hid'.
      destruct (decide (i = n)) as [->|Hne]; [by simplify_eq|].
      apply (Hshape1 i c' id'); [lia|done|done].
    - destruct (drive w0 n id step Hid Hstep (steps_left c) s1 c Hc (le_n _))
        as (acts2 & s2 & Hrun2 & Hno2 & Hn2 & Hothers).
      + done.
      + intros Hpoll d Hd.
        assert (Hnodeps : has_deps p id = false) by naive_solver.
        rewrite (has_deps_false id step Hstep Hnodeps) in Hd. by apply elem_of_nil in Hd.
      + exists (acts ++ acts2), s2. split; [by rewrite run_app, Hrun1|].
        split; [rewrite elem_of_app; tauto|]. split.
        { rewrite <- Hlen1. apply Nat.le_antisymm.
          - apply Nat.nlt_ge. intros Hlt.
            destruct (lookup_lt_is_Some_2 (tasks s2) (length (tasks s1))) as [c' Hc']; [done|].
            destruct (decide (length (tasks s1) = n)) as [He|Hne]; [lia|].
            rewrite (Hothers _ Hne) in Hc'. apply lookup_lt_Some in Hc'. lia.
          - apply Nat.nlt_ge. intros Hlt.
            assert (Hin : (length (tasks s2) < length (tasks s1))%nat) by done.
            destruct (lookup_lt_is_Some_2 (tasks s1) (length (tasks s2))) as [c' Hc']; [done|].
            destruct (decide (length (tasks s2) = n)) as [He|Hne].
            + rewrite <- He in Hn2. apply lookup_lt_Some in Hn2. lia.
            + rewrite <- (Hothers _ Hne) in Hc'. apply lookup_lt_Some in Hc'. lia. }
        intros i c' id' Hi Hc' Hid'.
        destruct (decide (i = n)) as [->|Hne].
        * rewrite Hn2 in Hc'. injection Hc' as <-. auto.
        * rewrite (Hothers i Hne) in Hc'. apply (Hshape1 i c' id'); [lia|done|done]. }
  destruct (Hgo (length (Plan.Order p)) (le_n _)) as (acts & s' & Hrun & Hno & Hlen' & Hshape).
  exists acts, s'. split; [done|]. split; [done|]. intros i c id Hc Hid.
  apply (Hshape i c id); [by eapply lookup_lt_Some|done|done].
Qed.

(** In a settled state the slots taken are at most the dependents. *)
Lemma slots_le_dependents (f : string → bool) (l : list pc) : ∀ order : list string,
  (∀ i c id, l !! i = Some c → order !! i = Some id → holds_slot c = true → f id = true) →
  length l = length order →
  slots l ≤ Z.of_nat (length (List.filter f order)).
Proof.
  induction l as [|c l IH]; intros [|id order] Hall Hlen; simplify_eq/=; [lia|].
  specialize (IH order (λ i, Hall (S i)) Hlen).
  destruct (holds_slot c) eqn:Hh.
  - rewrite (Hall 0%nat c id eq_refl eq_refl Hh). simpl. lia.
  - destruct (f id); simpl; lia.
Qed.

Lemma settled_slots s :
  settled p s → length (tasks s) = length (Plan.Order p) →
  slots (tasks s) ≤ Z.of_nat (length (dependents p)).
Proof.
  intros Hset Hlen. apply slots_le_dependents; [|done].
  intros i c id Hc Hid Hh.
  destruct (Hset i c id Hc Hid) as [->|[->|[_ ?]]]; done.
Qed.

Lemma few_dependents_can_finish (w0 : W) (s : state) :
  ordered_plan p →
  Z.of_nat (length (dependents p)) < Jobs opts →
  reachable sys p opts s →
  ∃ acts s', run sys p opts acts s = Some s' ∧ (ACallerCancel ∉ acts) ∧ all_done s'.
Proof.
  intros Hplan Hjobs Hreach.
  pose proof (reachable_sem_inv sys p opts s Hreach) as Hsem0.
  destruct (settle w0 s Hplan (sem_len _ _ _ Hsem0)) as (acts0 & s0 & Hrun0 & Hno0 & Hset0).
  pose proof (reachable_run sys p opts acts0 s s0 Hreach Hrun0) as Hreach0.
  assert (Hgo : ∀ k, (k ≤ length (Plan.Order p))%nat →
            ∃ acts s', run sys p opts acts s0 = Some s' ∧ (ACallerCancel ∉ acts) ∧
              settled p s' ∧
              ∀ i, (i < k)%nat → tasks s' !! i = Some AtDone).
  { induction k as [|k IH]; intros Hk.
    { exists [], s0. split; [done|]. split; [apply not_elem_of_nil|].
      split; [done|]. intros i Hi. lia. }
    destruct IH as (acts & s1 & Hrun1 & Hno1 & Hset1 & Hdone1); [lia|].
    pose proof (reachable_run sys p opts acts s0 s1 Hreach0 Hrun1) as Hreach1.
    pose proof (reachable_sem_inv sys p opts s1 Hreach1) as Hsem.
    destruct Hreach1 as [acts1 Hinit1].
    pose proof (rec_inv_run sys p opts _ _ _ (rec_inv_init p) Hinit1) as Hrec.
    destruct (lookup_lt_is_Some_2 (Plan.Order p) k) as [id Hid]; [lia|].
    destruct (lookup_lt_is_Some_2 (tasks s1) k) as [c Hc];
      [rewrite (sem_len _ _ _ Hsem); lia|].
    destruct (Hplan k id Hid) as (step & Hstep & Hdeps).
    destruct (drive w0 k id step Hid Hstep (steps_left c) s1 c Hc (le_n _))
      as (acts2 & s2 & Hrun2 & Hno2 & Hk2 & Hothers).
    - intros _. pose proof (settled_slots s1 Hset1 (sem_len _ _ _ Hsem)) as Hslots.
      rewrite (sem_slots _ _ _ Hsem). lia.
    - intros _ d Hd. destruct (Hdeps d Hd) as (i & Hi & Hdi).
      apply (Hrec i d AtDone Hdi (Hdone1 i Hi) eq_refl).
    - exists (acts ++ acts2), s2. split; [by rewrite run_app, Hrun1|].
      split; [rewrite elem_of_app; tauto|]. split.
      + intros i c' id' Hc' Hid'. destruct (decide (i = k)) as [->|Hne].
        * rewrite Hk2 in Hc'. injection Hc' as <-. auto.
        * rewrite (Hothers i Hne) in Hc'. by apply (Hset1 i c' id').
      + intros i Hi. destruct (decide (i = k)) as [->|Hne]; [done|].
        rewrite (Hothers i Hne). apply Hdone1. lia. }
  destruct (Hgo (length (Plan.Order p)) (le_n _)) as (acts & s' & Hrun & Hno & _ & Hdone).
  exists (acts0 ++ acts), s'. split; [by rewrite run_app, Hrun0|].
  split; [rewrite elem_of_app; tauto|].
  pose proof (reachable_run sys p opts acts s0 s' Hreach0 Hrun) as Hreach'.
  pose proof (reachable_sem_inv sys p opts s' Hreach') as Hsem.
  unfold all_done. apply Forall_lookup. intros i c Hc.
  assert (Hi : (i < length (Plan.Order p))%nat).
  { rewrite <- (sem_len _ _ _ Hsem). by eapply lookup_lt_Some. }
  rewrite (Hdone i Hi) in Hc. congruence.
Qed.

(** The places of the ids that a test accepts. *)
Lemma filter_indices (f : string → bool) (order : list string) :
  ∃ I : list nat, NoDup I ∧ length I = length (List.filter f order) ∧
    ∀ i, i ∈ I → ∃ id, order !! i = Some id ∧ f id = true.
Proof.
  induction order as [|x order (I & Hnd & Hlen & Hall)].
  { exists []. split; [constructor|]. split; [done|]. by intros i ?%elem_of_nil. }
  assert (HndS : NoDup (S <$> I)) by (by apply (NoDup_fmap_2 S)).
  assert (HallS : ∀ i, i ∈ S <$> I → ∃ id, (x :: order) !! i = Some id ∧ f id = true).
  { intros i (j & -> & Hj)%list_elem_of_fmap. by apply Hall. }
  simpl. destruct (f x) eqn:Hx.
  - exists (0%nat :: (S <$> I)). split.
    + apply NoDup_cons. split; [|done]. by intros (j & ? & _)%list_elem_of_fmap.
    + split; [simpl; by rewrite length_fmap, Hlen|].
      intros i [->|Hi]%elem_of_cons; [by exists x|by apply HallS].
  - exists (S <$> I). split; [done|]. split; [by rewrite length_fmap|done].
Qed.

(** X18. With at least one slot and at least as many ids of the order
    whose step has a dependency as there are slots, [Execute] can reach
    a deadlock: the goroutines of such steps take every slot first, and
    from then on, unless the caller cancels the context, no step runs
    and no result is written; those goroutines poll for ever, the others
    wait for a slot, and [Execute] does not return. *)
Theorem slots_deadlock :
  1 ≤ Jobs opts ≤ Z.of_nat (length (dependents p)) →
  ∃ acts0 s0, run sys p opts acts0 (init p) = Some s0 ∧
    ∀ acts s, ACallerCancel ∉ acts → run sys p opts acts s0 = Some s →
      results s = ∅ ∧ cancelled s = false ∧
      (∀ i w, ARun i w ∉ acts) ∧
      Forall (λ c, c = AtAcquire ∨ c = AtPoll ∨ c = AtSleep) (tasks s) ∧
      ¬ all_done s.
Proof.
  intros Hjobs.
  destruct (filter_indices (has_deps p) (Plan.Order p)) as (I & Hnd & Hlen & Hall).
  fold (dependents p) in Hlen.
  pose (J := take (Z.to_nat (Jobs opts)) I).
  assert (HJlen : Z.of_nat (length J) = Jobs opts).
  { unfold J. rewrite length_take. lia. }
  destruct (starved_forever sys p opts J) as (s0 & Hrun0 & Hstuck).
  - unfold J. eapply sublist_NoDup; [done|apply sublist_take].
  - intros HJ. rewrite HJ in HJlen. simpl in HJlen. lia.
  - done.
  - intros i Hi. destruct (Hall i) as (id & Hid & Hdeps).
    { unfold J in Hi. apply elem_of_take in Hi as (j & Hj & _).
      by eapply list_elem_of_lookup_2. }
    unfold has_deps in Hdeps.
    destruct (stepMap (Plan.Steps p) !! id) as [step|] eqn:Hstep; [|done].
    exists id, step. split; [done|]. split; [done|].
    intros Hnil. by rewrite Hnil in Hdeps.
  - exists (AAcquire <$> J), s0. split; [done|]. intros acts s Hno Hrun.
    destruct (Hstuck acts s Hno Hrun) as (Hres & Hcan & Hnorun & Hts & Hnd').
    split; [done|]. split; [done|]. split; [done|]. split; [|done].
    apply Forall_lookup. intros i c Hc. specialize (Hts i c Hc).
    destruct (decide (i ∈ J)); naive_solver.
Qed.

(** X19. For a plan whose order is the topological order of its steps, as
    in every plan [Build] returns, and with more slots than there are
    steps with a dependency, the goroutines can all return from every
    state [Execute] can reach, without a cancellation by the caller:
    there is no deadlock, and [Execute] has a result to return when the
    output directory poses no problem. *)
Theorem Execute_can_finish (w0 : W) :
  Plan.TopologicalSort (Plan.Steps p) = Some (Ok (Plan.Order p)) →
  Z.of_nat (length (dependents p)) < Jobs opts →
  (∀ s, reachable sys p opts s →
        ∃ acts s', run sys p opts acts s = Some s' ∧ (ACallerCancel ∉ acts) ∧ all_done s') ∧
  (∀ mkdir, OutDir opts = "" ∨ mkdir = None →
            ∃ res, Execute sys (Some p) opts mkdir (Ok res)).
Proof.
  intros Hsort Hjobs.
  pose proof (sorted_ordered_plan p Hsort) as Hplan.
  assert (Hfin : ∀ s, reachable sys p opts s →
            ∃ acts s', run sys p opts acts s = Some s' ∧ (ACallerCancel ∉ acts) ∧ all_done s').
  { intros s Hs. by apply few_dependents_can_finish. }
  split; [exact Hfin|]. intros mkdir Hmk.
  destruct (Hfin (init p)) as (acts & s & Hrun & _ & Hdone); [by exists []|].
  assert (Hlaunch : launch (Some p) opts mkdir = Launched p).
  { unfold launch.
    assert ((if decide (OutDir opts ≠ "") then mkdir else None) = None) as ->.
    { destruct Hmk as [-> | ->]; [done|by case_decide]. }
    rewrite decide_False by lia.
    destruct (List.find _ _) as [id|] eqn:Hfind; [|done].
    apply find_some in Hfind as [Hid%list_elem_of_In Hnone%bool_decide_eq_true].
    apply list_elem_of_lookup in Hid as [i Hi].
    destruct (Hplan i id Hi) as (step & Hstep & _). unfold Step in *. congruence. }
  pose proof (all_done_recorded sys p opts acts s Hrun Hdone) as Hall.
  destruct (collect_Ok (Plan.Order p) (results s) [] "success" Hall) as (rs & _ & Hcol).
  eexists.
  pose proof (Execute_waited sys (Some p) opts mkdir p acts s 0 Hlaunch Hrun Hdone) as Hex.
  unfold finish in Hex. rewrite Hcol in Hex. exact Hex.
Qed.

End scheduler_live.

(** *** Skipped dependencies *)

Section scheduler_cascade.
Import Exec.
Context {W : Type} (sys : Sys W) (p : Plan.Plan) (opts : Options).

Lemma settled_deps_complete step s :
  settled_deps step s → forallb (is_complete s) (Plan.Deps step) = true.
Proof.
  intros Hdeps. apply forallb_forall. intros d Hd%list_elem_of_In.
  destruct (Hdeps d Hd) as (r & Hr & _). apply bool_decide_eq_true. by eexists.
Qed.

Lemma settled_deps_not_failed step s :
  fail_inv p s → settled_deps step s → existsb (is_failed s) (Plan.Deps step) = false.
Proof.
  intros Hinv Hdeps. apply not_true_is_false.
  intros (d & Hd%list_elem_of_In & Hf)%existsb_exists.
  destruct (fi_failed _ _ Hinv d Hf) as (_ & r & _ & _ & Hr & Hs).
  destruct (Hdeps d Hd) as (r' & Hr' & Hs'). congruence.
Qed.

Lemma settled_deps_fire step a s s' :
  NoDup (Plan.Order p) → res_inv p s →
  settled_deps step s → fire sys p opts a s = Some s' → settled_deps step s'.
Proof.
  intros Hnd Hinv Hdeps Hfire d Hd. destruct (Hdeps d Hd) as (r & Hr & Hs).
  exists r. split; [|done]. by eapply (results_keep_fire sys p opts).
Qed.

Lemma through_fire i id step a s s' :
  NoDup (Plan.Order p) →
  Plan.Order p !! i = Some id → stepMap (Plan.Steps p) !! id = Some step →
  fail_inv p s → settled_deps step s →
  through sys opts i id step s → fire sys p opts a s = Some s' →
  through sys opts i id step s'.
Proof.
  intros Hnd Hid Hstep Hfail Hdeps Hthrough
    [[-> ->]|(j & idj & stepj & c & c' & s1 & Hact & Hidj & Hstepj & Hc & Htf & ->)]%fire_Some;
    [done|].
  pose proof (task_fire_tasks sys opts _ _ _ _ _ _ _ Htf) as Ht.
  assert (Hj : (j < length (tasks s))%nat) by (by eapply lookup_lt_Some).
  destruct (decide (j = i)) as [->|Hne].
  - assert (idj = id) as -> by congruence.
    assert (stepj = step) as ->
      by (apply (inj Some); etrans; [symmetry; exact Hstepj|exact Hstep]).
    pose proof (settled_deps_complete step s Hdeps) as Hall.
    pose proof (settled_deps_not_failed step s Hfail Hdeps) as Hnone.
    unfold through. simpl. rewrite Ht, list_lookup_insert_eq by done.
    destruct Hthrough as [[[Hci|[Hci|Hci]] Hr]|[(w & Hci & Hr)|(w & [Hci|[Hci|Hci]] & Hr)]];
      rewrite Hc in Hci; injection Hci as ->;
      destruct a; simpl in Htf; try done;
      rewrite ?Hall, ?Hnone in Htf; repeat case_match; simplify_eq/=.
    + left. split; [auto|done].
    + left. split; [auto|done].
    + right. left. by eexists.
    + right. right. exists w. split; [auto|]. by rewrite lookup_insert_eq.
    + right. right. exists w. split; [auto|done].
    + right. right. exists w. split; [auto|done].
    + right. right. exists w. split; [auto|done].
    + right. right. exists w. split; [auto|done].
  - assert (idj ≠ id) as Hidne.
    { intros ->. apply Hne. by eapply NoDup_lookup. }
    assert (Hres : results s1 !! id = results s !! id).
    { destruct (task_fire_writes sys opts _ _ _ _ _ _ _ Htf) as [[-> _]|(r & -> & _)]; [done|].
      by rewrite lookup_insert_ne. }
    unfold through in *. simpl. rewrite Ht, list_lookup_insert_ne by done. by rewrite Hres.
Qed.

Lemma through_run i id step acts : ∀ s s',
  NoDup (Plan.Order p) →
  Plan.Order p !! i = Some id → stepMap (Plan.Steps p) !! id = Some step →
  reachable sys p opts s → settled_deps step s →
  through sys opts i id step s → run sys p opts acts s = Some s' →
  through sys opts i id step s'.
Proof.
  induction acts as [|a acts IH]; intros s s' Hnd Hid Hstep Hreach Hdeps Hthrough; simpl;
    [by intros [= <-]|].
  destruct (fire sys p opts a s) as [s1|] eqn:Hfire; [|done]. simpl.
  apply IH; try done.
  - apply (reachable_run sys p opts [a] s s1 Hreach). simpl. by rewrite Hfire.
  - eapply settled_deps_fire; [done| |done|done]. by apply (reachable_res_inv sys p opts).
  - eapply through_fire; [done|done|done| |done|done|done].
    by apply (reachable_fail_inv sys p opts).
Qed.

End scheduler_cascade.

Section cascade_claim.
Import Exec.




End cascade_claim.

(** *** At the plan of [TestExecute_DependencySkip] *)

Section scheduler_examples.
Import Exec.

Lemma run_after_dependencies_witness :
  let opts := skip_opts 2 false in
  let s := state_after skip_plan opts race_trace in
  tasks s !! 1%nat = Some AtRun ∧ is_Some (results s !! "failing").
Proof.
  intros opts s.
  assert (Hreach : reachable script_sys skip_plan opts s) by (exists race_trace; by vm_compute).
  assert (Hc : tasks s !! 1%nat = Some AtRun) by (by vm_compute).
  split; [exact Hc|].
  destruct (run_after_dependencies script_sys skip_plan opts s 1 "dependent" dependent
              Hreach eq_refl eq_refl) as (Hdeps & _ & _).
  apply (Hdeps AtRun Hc eq_refl). left.
Defined.

Lemma results_written_once_witness :
  let opts := skip_opts 2 false in
  let s := state_after skip_plan opts (take 7 skip_trace) in
  let s' := state_after skip_plan opts skip_trace in
  results s' !! "failing" = results s !! "failing" ∧ "failing" ∈ Plan.Order skip_plan.
Proof.
  intros opts s s'.
  assert (Hreach : reachable script_sys skip_plan opts s)
    by (exists (take 7 skip_trace); by vm_compute).
  assert (Hr : results s !! "failing" = Some (executeStep script_sys failing opts false_world).1)
    by (by vm_compute).
  assert (Hrun : run script_sys skip_plan opts (drop 7 skip_trace) s = Some s')
    by (by vm_compute).
  destruct (results_written_once script_sys skip_plan opts (drop 7 skip_trace) s s' "failing" _
              skip_plan_NoDup Hreach Hr Hrun) as (Hr' & Hin & _).
  split; [by rewrite Hr', Hr|exact Hin].
Defined.

Lemma Execute_results_witness :
  length [mkStepResult "failing" "failed" "exit status 1" "" 1000000 1 1;
          mkStepResult "dependent" "skipped" "dependency failed" "" 0 0 0]
  = length (Plan.Order skip_plan).
Proof.
  exact (proj2 (Execute_results script_sys skip_plan (skip_opts 4 false) None _
                  Execute_skip_plan)).
Defined.

Lemma cancellation_sources_witness :
  let opts := skip_opts 2 false in
  let s := state_after skip_plan opts skip_trace in
  cancelled s = false.
Proof.
  intros opts s.
  assert (Hrun : run script_sys skip_plan opts skip_trace (init skip_plan) = Some s)
    by (by vm_compute).
  destruct (cancellation_sources script_sys skip_plan opts skip_trace s skip_plan_NoDup Hrun)
    as (Hoff & _ & _); [|by apply Hoff].
  intros Hin. by repeat (apply elem_of_cons in Hin as [Hin|Hin]; [discriminate|]);
    apply elem_of_nil in Hin.
Defined.

Lemma success_means_all_succeeded_witness :
  let opts := skip_opts 1 true in
  let s := state_after skip_plan opts ok_trace in
  ∃ r, results s !! "dependent" = Some r ∧ Status r = "success" ∧ ExitCode r = 0.
Proof.
  intros opts s.
  assert (Hrun : run script_sys skip_plan opts ok_trace (init skip_plan) = Some s)
    by (by vm_compute).
  assert (Hdone : all_done s) by (vm_compute; repeat constructor).
  assert (Hres : results s =
            <["dependent" := (executeStep script_sys dependent opts ok_world).1]>
              (<["failing" := (executeStep script_sys failing opts ok_world).1]> ∅))
    by (by vm_compute).
  destruct (success_means_all_succeeded script_sys skip_plan opts ok_trace s
              skip_plan_NoDup Hrun Hdone) with (id := "dependent")
    as (r & Hr & _ & Hst & _ & Hexit & _).
  - intros Hin. by repeat (apply elem_of_cons in Hin as [Hin|Hin]; [discriminate|]);
      apply elem_of_nil in Hin.
  - intros id r. rewrite Hres.
    intros [[_ <-]|[_ [[_ <-]|[_ ?]]%lookup_insert_Some]]%lookup_insert_Some;
      [by vm_compute|by vm_compute|done].
  - right. left.
  - exists r. done.
Defined.

Lemma dangling_dependency_witness :
  let opts := skip_opts 1 false in
  let s := state_after dangling_plan opts [AAcquire 0; APoll 0; AWake 0] in
  results s !! "failing" = None ∧
  (tasks s !! 0%nat = Some AtAcquire ∨ tasks s !! 0%nat = Some AtPoll ∨
   tasks s !! 0%nat = Some AtSleep ∨ (tasks s !! 0%nat = Some AtDone ∧ cancelled s = true)).
Proof.
  intros opts s.
  assert (Hrun : run script_sys dangling_plan opts [AAcquire 0; APoll 0; AWake 0]
                   (init dangling_plan) = Some s) by (by vm_compute).
  destruct (dangling_dependency script_sys dangling_plan opts 0 "dependent" dependent "failing"
              eq_refl eq_refl) with (acts := [AAcquire 0; APoll 0; AWake 0] : list (action (W := script))) (s := s)
    as (Hnone & _ & Hwait & _).
  - left.
  - intros Hin. by apply list_elem_of_singleton in Hin.
  - exact Hrun.
  - split; [exact Hnone|exact Hwait].
Defined.

Lemma dependent_can_run_after_failure_witness :
  ∃ s, run script_sys skip_plan (skip_opts 2 false)
           [AAcquire 0; APoll 0; ACheck 0; ARun 0 false_world; AStore 0;
            AAcquire 1; APoll 1; ACheck 1] (init skip_plan) = Some s ∧
       is_failed s "failing" = false ∧ tasks s !! 1%nat = Some AtRun.
Proof.
  destruct (dependent_can_run_after_failure script_sys skip_plan (skip_opts 2 false)
              0 1 "failing" "dependent" failing dependent false_world)
    as (s & Hrun & _ & _ & Hf & Ht & _); [done..|].
  exists s. done.
Defined.

Lemma slots_deadlock_witness :
  ∃ acts0 s0, run script_sys skip_plan (skip_opts 1 false) acts0 (init skip_plan) = Some s0 ∧
    results s0 = ∅ ∧ cancelled s0 = false.
Proof.
  destruct (slots_deadlock script_sys skip_plan (skip_opts 1 false))
    as (acts0 & s0 & Hrun0 & Hstuck).
  - by vm_compute.
  - destruct (Hstuck [] s0) as (Hres & Hcan & _); [apply not_elem_of_nil|done|].
    exists acts0, s0. done.
Defined.

Lemma Execute_can_finish_witness :
  ∃ res, Execute script_sys (Some skip_plan) (skip_opts 2 true) None (Ok res).
Proof.
  destruct (Execute_can_finish script_sys skip_plan (skip_opts 2 true) ok_world) as [_ Hex].
  - by vm_compute.
  - by vm_compute.
  - apply Hex. by left.
Defined.

End scheduler_examples.

(** ** Hashes *)

Section hash_theorems.

Lemma round_length st kw : length (SHA256.round st kw) = length st.
Proof.
  unfold SHA256.round. destruct kw as [k w]. simpl.
  repeat (destruct st as [|? st]; try done).
Qed.

Lemma rounds_length kws : ∀ st, length (fold_left SHA256.round kws st) = length st.
Proof.
  induction kws as [|kw kws IH]; intros st; simpl; [done|]. by rewrite IH, round_length.
Qed.

Lemma block_length h ws : length (SHA256.block h ws) = length h.
Proof.
  unfold SHA256.block. rewrite length_zip_with, rounds_length. lia.
Qed.

Lemma blocks_length fuel : ∀ h ws, length (SHA256.blocks fuel h ws) = length h.
Proof.
  induction fuel as [|fuel IH]; intros h ws; simpl; [done|].
  destruct ws; [done|]. by rewrite IH, block_length.
Qed.

Lemma be_bytes_length n z : length (SHA256.be_bytes n z) = n.
Proof. induction n as [|n IH]; simpl; [done|]. by rewrite IH. Qed.

Lemma bind_be_bytes_length (l : list Z) : length (l ≫= SHA256.be_bytes 4) = (4 * length l)%nat.
Proof.
  induction l as [|z l IH]; [done|]. rewrite bind_cons, length_app, be_bytes_length, IH.
  simpl. lia.
Qed.

Lemma Sum256_length data : length (SHA256.Sum256 data) = 32%nat.
Proof.
  unfold SHA256.Sum256. rewrite length_fmap, bind_be_bytes_length, blocks_length. done.
Qed.

Lemma EncodeToString_length bs :
  String.length (Hex.EncodeToString bs) = (2 * length bs)%nat.
Proof. induction bs as [|b bs IH]; simpl; [done|]. rewrite IH. lia. Qed.

Lemma EncodeToString_digits bs :
  Forall (λ c, Util.hex_digit c = true) (list_ascii_of_string (Hex.EncodeToString bs)).
Proof.
  induction bs as [|b bs IH]; simpl; [constructor|].
  constructor; [by destruct b|]. constructor; [by destruct b|]. done.
Qed.

(** X20. [hashBytes] returns 64 characters, all lower-case hexadecimal
    digits, whatever the bytes; and the [ConfigHash] of a plan [Build]
    returns is [hashBytes] of the configuration bytes. *)
Theorem hashBytes_shape (data : list byte) :
  String.length (Util.hashBytes data) = 64%nat ∧
  Forall (λ c, c ∈ list_ascii_of_string "0123456789abcdef")
         (list_ascii_of_string (Util.hashBytes data)) ∧
  (∀ now projectName profileName steps p,
     Plan.Build now projectName profileName steps data = Some (Ok p) →
     Plan.ConfigHash p = Util.hashBytes data).
Proof.
  split; [|split].
  - unfold Util.hashBytes. simpl. by rewrite EncodeToString_length, Sum256_length.
  - eapply Forall_impl; [apply EncodeToString_digits|].
    intros c Hc. by apply bool_decide_eq_true in Hc.
  - intros now projectName profileName steps p. unfold Plan.Build.
    repeat case_match; try done. by intros [= <-].
Qed.

End hash_theorems.

(** ** Canonical JSON *)

Section json_theorems.
Import Util.
Context {F : Type}.

Lemma json_size_elem (l : list (json F)) x :
  x ∈ l → (json_size x < json_size (JArray l))%nat.
Proof.
  intros Hx. change (json_size x < S (foldr (λ x acc, json_size x + acc) 0 l))%nat.
  apply Nat.lt_succ_r. induction l as [|y l IH]; [by apply elem_of_nil in Hx|].
  apply elem_of_cons in Hx as [->|Hx%IH]; simpl; lia.
Qed.

Lemma json_size_lookup (m : gmap string (json F)) k x :
  m !! k = Some x → (json_size x < json_size (JObject m))%nat.
Proof.
  intros Hk%elem_of_map_to_list.
  change (json_size x < S (map_fold (λ _ x acc, json_size x + acc) 0 m))%nat.
  apply Nat.lt_succ_r. rewrite map_fold_foldr.
  induction (map_to_list m) as [|[k' y] l IH]; [by apply elem_of_nil in Hk|].
  apply elem_of_cons in Hk as [[= <- <-]|Hk%IH]; simpl in *; lia.
Qed.

(** The second loop of the map case writes back what it reads. *)
Lemma rebuild_lookup (m : gmap string (json F)) (keys : list string) :
  ∀ (acc : gmap string (json F)) j,
    fold_left (λ (result : gmap string (json F)) k, match m !! k with
                           | Some x => <[k := x]> result
                           | None => result
                           end) keys acc !! j
    = if decide (j ∈ keys ∧ is_Some (m !! j)) then m !! j else acc !! j.
Proof.
  induction keys as [|k keys IH]; intros acc j; simpl fold_left.
  { rewrite decide_False; [done|]. by intros [?%elem_of_nil _]. }
  rewrite IH. destruct (decide (j ∈ keys ∧ is_Some (m !! j))) as [[Hj Hs]|Hn].
  - rewrite decide_True; [done|]. split; [by right|done].
  - destruct (decide (j = k)) as [->|Hne].
    + destruct (m !! k) as [x|] eqn:Hk.
      * rewrite lookup_insert_eq. rewrite decide_True; [done|]. split; [left|by eexists].
      * rewrite decide_False; [done|]. by intros [_ [? ?]].
    + assert ((match m !! k with Some x => <[k := x]> acc | None => acc end) !! j = acc !! j)
        as ->.
      { destruct (m !! k); [by rewrite lookup_insert_ne|done]. }
      rewrite decide_False; [done|].
      intros [[?|?]%elem_of_cons ?]; [done|]. by apply Hn.
Qed.

Lemma rebuild_all (m : gmap string (json F)) (keys : list string) :
  (∀ k, is_Some (m !! k) → k ∈ keys) →
  fold_left (λ (result : gmap string (json F)) k, match m !! k with
                         | Some x => <[k := x]> result
                         | None => result
                         end) keys ∅ = m.
Proof.
  intros Hkeys. apply map_eq. intros j. rewrite rebuild_lookup.
  destruct (decide _) as [|Hn]; [done|]. rewrite lookup_empty.
  destruct (m !! j) as [x|] eqn:Hj; [|done]. exfalso. apply Hn.
  split; [apply Hkeys|]; by eexists.
Qed.

Lemma sort_Strings_elem (l : list string) k : k ∈ sort_Strings l ↔ k ∈ l.
Proof. unfold sort_Strings. by rewrite merge_sort_Permutation. Qed.

Lemma canonicalizeJSON_id_size n : ∀ v : json F, (json_size v ≤ n)%nat → canonicalizeJSON v = v.
Proof.
  induction n as [|n IH]; intros v Hn.
  { assert (0 < json_size v)%nat; [destruct v; simpl; lia|lia]. }
  destruct v as [| | | |l|m]; try done.
  - simpl. f_equal. rewrite <- (list_fmap_id l) at 2. apply list_fmap_ext.
    intros i x Hx. unfold id. apply IH. apply list_elem_of_lookup_2, json_size_elem in Hx. lia.
  - assert (Hvals : canonicalizeJSON <$> m = m).
    { apply map_eq. intros k. rewrite lookup_fmap.
      destruct (m !! k) as [x|] eqn:Hk; [|done]. simpl. f_equal. apply IH.
      apply json_size_lookup in Hk. lia. }
    simpl. rewrite Hvals. f_equal.
    apply rebuild_all. intros k [x Hk]. apply sort_Strings_elem.
    apply list_elem_of_fmap. exists (k, x). split; [done|]. by apply elem_of_map_to_list.
Qed.

Lemma canonicalizeJSON_id (v : json F) : canonicalizeJSON v = v.
Proof. by apply (canonicalizeJSON_id_size (json_size v)). Qed.

(** X21. On the values [json.Unmarshal] produces, [canonicalizeJSON]
    returns its argument unchanged, whatever the nesting: the map it
    rebuilds from the sorted keys is the map it was given, Go maps having
    no order. So when the input decodes to a value and that value
    encodes, [CanonicalHash] is the hash of the encoding of the decoded
    value; in every other case it is the hash of the input bytes. *)
Theorem canonicalizeJSON_identity
    (json_Unmarshal : list byte → result string (json F))
    (json_Marshal : json F → result string (list byte)) :
  (∀ v : json F, canonicalizeJSON v = v) ∧
  (∀ data, CanonicalHash json_Unmarshal json_Marshal data =
           match json_Unmarshal data with
           | Ok obj => match json_Marshal obj with
                       | Ok encoded => Util.hashBytes encoded
                       | Err _ => Util.hashBytes data
                       end
           | Err _ => Util.hashBytes data
           end) ∧
  (∀ data data' obj encoded,
     json_Unmarshal data = Ok obj → json_Unmarshal data' = Ok obj →
     json_Marshal obj = Ok encoded →
     CanonicalHash json_Unmarshal json_Marshal data
     = CanonicalHash json_Unmarshal json_Marshal data').
Proof.
  split; [apply canonicalizeJSON_id|]. split.
  - intros data. unfold CanonicalHash. destruct (json_Unmarshal data) as [obj|]; [|done].
    simpl. by rewrite canonicalizeJSON_id.
  - intros data data' obj encoded Hd Hd' Henc. unfold CanonicalHash.
    rewrite Hd, Hd'. simpl. by rewrite canonicalizeJSON_id, Henc.
Qed.

End json_theorems.
